(** * A shallow embedding of the text layout engine

    The development follows the three TypeScript modules of the
    repository: [layoutEngine] ([tokenizeText], [autoLayout] and the line
    packer), [scene] ([computeSafeRect], [alignLayout], [applyTextOffset])
    and [types] (the records).

    Modelling conventions:
    - a JavaScript [number] is an exact rational ([Q]); IEEE rounding, NaN
      and the infinities are outside the model, except for the two
      infinite seeds of the bounding box of [applyTextOffset], which are
      modelled by [ext];
    - a JavaScript string (well-formed, without lone surrogates) is a
      [string] holding its UTF-8 encoding; the
      characters a [for ... of] loop or [Array.from] visits are its code
      points, each a lead byte with its continuation bytes
      ([Array_from]);
    - mutable arrays and locals become explicit state passing;
    - the canvas measuring context is a record holding its current font,
      and the measurement provider is a section variable; every function
      that can reach the provider also returns the list of [Event]s it
      caused, so that statements about what is tried or measured can be
      made. *)

From Stdlib Require Import QArith Qminmax Qround ZArith Lia Lqa.
From Stdlib Require Import String Ascii List Sorted Permutation.
From stdpp Require Import gmap strings list.
From Equations Require Import Equations.
Import ListNotations.

(** ** types.ts *)

Record InlineAsset := {
  asset_id : string;
  asset_name : string;
  asset_dataUrl : string;
  naturalWidth : Q;
  naturalHeight : Q
}.

Record Rect := {
  rect_x : Q;
  rect_y : Q;
  rect_width : Q;
  rect_height : Q
}.

(** ** layoutEngine.ts: the tokenizer *)

Inductive LayoutToken :=
| TokText (value : string)
| TokAsset (asset : InlineAsset).

Definition ASSET_PREFIX : string := "[[asset:".
Definition ASSET_SUFFIX : string := "]]".

(** [strip_prefix p s] removes the literal [p] from the front of [s]. *)
Fixpoint strip_prefix (p s : string) : option string :=
  match p, s with
  | EmptyString, _ => Some s
  | String a p', String b s' =>
      if Ascii.eqb a b then strip_prefix p' s' else None
  | String _ _, EmptyString => None
  end.

Definition is_rbracket (c : ascii) : bool := Ascii.eqb c "]"%char.

(** The greedy class [[^\]]*]: the longest run of characters other than a
    closing bracket, and what follows it. *)
Fixpoint span_id (s : string) : string * string :=
  match s with
  | EmptyString => (EmptyString, EmptyString)
  | String c s' =>
      if is_rbracket c then (EmptyString, s)
      else let '(i, r) := span_id s' in (String c i, r)
  end.

(** One attempt of [ASSET_TOKEN_REGEX = /\[\[asset:([^\]]+)\]\]/] at the
    front of [s]: the captured id and the text after the match.  The class
    excludes the bracket that must follow it, so the greedy run is the only
    candidate and no backtracking can succeed where it fails. *)
Definition match_here (s : string) : option (string * string) :=
  match strip_prefix ASSET_PREFIX s with
  | None => None
  | Some s1 =>
      let '(i, s2) := span_id s1 in
      match i with
      | EmptyString => None
      | String _ _ =>
          match strip_prefix ASSET_SUFFIX s2 with
          | None => None
          | Some s3 => Some (i, s3)
          end
      end
  end.

(** The arguments the callback of [String.prototype.replace] receives. *)
Record RegexMatch := {
  m_match : string;
  m_assetId : string;
  m_offset : nat
}.

Definition marker (i : string) : string := ASSET_PREFIX +:+ i +:+ ASSET_SUFFIX.

Definition inspect {A} (a : A) : { b : A | a = b } := exist _ a eq_refl.

Lemma append_nil_l (s : string) : "" +:+ s = s.
Proof. reflexivity. Qed.

Lemma append_cons c (a s : string) : String c a +:+ s = String c (a +:+ s).
Proof. reflexivity. Qed.

Lemma strip_prefix_app p s r : strip_prefix p s = Some r -> s = p +:+ r.
Proof.
  revert s; induction p as [|a p IH]; intros [|b s]; simpl;
    rewrite ?append_nil_l, ?append_cons; try congruence.
  destruct (Ascii.eqb_spec a b); [|discriminate].
  intros H; apply IH in H; congruence.
Qed.

Lemma span_id_app s i r : span_id s = (i, r) -> s = i +:+ r.
Proof.
  revert i r; induction s as [|c s IH]; simpl; intros i r.
  - intros [= <- <-]; reflexivity.
  - destruct (is_rbracket c).
    + intros [= <- <-]; reflexivity.
    + destruct (span_id s) as [i' r']; intros [= <- <-].
      rewrite append_cons; f_equal; apply IH; reflexivity.
Qed.

Lemma length_append (a b : string) :
  String.length (a +:+ b) = (String.length a + String.length b)%nat.
Proof.
  induction a; rewrite ?append_nil_l, ?append_cons; simpl; congruence.
Qed.

Lemma append_assoc (a b c : string) : (a +:+ b) +:+ c = a +:+ b +:+ c.
Proof.
  induction a; rewrite ?append_nil_l, ?append_cons; congruence.
Qed.

Lemma match_here_app s i r : match_here s = Some (i, r) -> s = marker i +:+ r.
Proof.
  unfold match_here, marker.
  destruct (strip_prefix ASSET_PREFIX s) as [s1|] eqn:H1; [|discriminate].
  destruct (span_id s1) as [i' s2] eqn:H2.
  destruct i' as [|c i']; [discriminate|].
  destruct (strip_prefix ASSET_SUFFIX s2) as [s3|] eqn:H3; [|discriminate].
  intros [= <- <-].
  apply strip_prefix_app in H1, H3. apply span_id_app in H2.
  subst. rewrite !append_assoc. reflexivity.
Qed.

Lemma match_here_shorter s i r :
  match_here s = Some (i, r) -> (String.length r < String.length s)%nat.
Proof.
  intros H; apply match_here_app in H; subst.
  unfold marker; rewrite !length_append; simpl; lia.
Qed.

(** All matches of the global regex in [s], left to right, where [s] is
    the part of the input that starts at index [offset]: after a match the
    scan resumes behind it, otherwise one character further. *)
Equations? regex_matches (s : string) (offset : nat) : list RegexMatch
  by wf (String.length s) lt :=
  regex_matches s offset with inspect (match_here s) := {
    | exist _ (Some (i, r)) _ =>
        {| m_match := marker i; m_assetId := i; m_offset := offset |}
          :: regex_matches r (offset + String.length (marker i));
    | exist _ None _ with s := {
        | EmptyString => [];
        | String _ s' => regex_matches s' (S offset) } }.
Proof. eapply match_here_shorter; eauto. Qed.

(** [input.slice(from, to)] for [0 <= from] and [0 <= to]. *)
Definition slice (input : string) (from to : nat) : string :=
  String.substring from (to - from) input.

(** [input.slice(from)]. *)
Definition slice_from (input : string) (from : nat) : string :=
  String.substring from (String.length input - from) input.

(** A string is truthy when it is not empty. *)
Definition truthy (s : string) : bool :=
  match s with EmptyString => false | String _ _ => true end.

(** [new Map(assets.map((asset) => [asset.id, asset]))]: entries are
    inserted in order, so a later asset replaces an earlier one with the
    same id. *)
Definition buildAssetMap (assets : list InlineAsset) : gmap string InlineAsset :=
  fold_left (fun m asset => <[asset_id asset := asset]> m) assets ∅.

(** The callback handed to [input.replace]; its state is the pair of the
    local [results] and [lastIndex]. *)
Definition on_match (input : string) (assetMap : gmap string InlineAsset)
    (st : list LayoutToken * nat) (m : RegexMatch) : list LayoutToken * nat :=
  let '(results, lastIndex) := st in
  let results1 :=
    if Nat.ltb lastIndex (m_offset m) then
      let sl := slice input lastIndex (m_offset m) in
      if truthy sl then results ++ [TokText sl] else results
    else results in
  let results2 :=
    match assetMap !! m_assetId m with
    | Some asset => results1 ++ [TokAsset asset]
    | None => results1 ++ [TokText (m_match m)]
    end in
  (results2, (m_offset m + String.length (m_match m))%nat).

Definition tokenizeText (input : string) (assets : list InlineAsset)
    : list LayoutToken :=
  let assetMap := buildAssetMap assets in
  let '(results, lastIndex) :=
    fold_left (on_match input assetMap) (regex_matches input 0) ([], 0%nat) in
  let tail := slice_from input lastIndex in
  let results1 := if truthy tail then results ++ [TokText tail] else results in
  match results1 with
  | [] => [TokText ""]
  | _ :: _ => results1
  end.

Definition asset_x1 : InlineAsset :=
  {| asset_id := "x1"; asset_name := "x"; asset_dataUrl := "";
     naturalWidth := 3; naturalHeight := 1 |}.

(** ** types.ts, continued: the records of the layout engine *)

Record LayoutConfig := {
  cfg_width : Q;
  cfg_height : Q;
  cfg_fontSize : Q;
  cfg_minFontSize : Q;
  cfg_fontFamily : string;
  cfg_lineHeight : Q;
  cfg_maxColumns : Q;
  cfg_columnGap : Q;
  cfg_textColor : string;
  cfg_strokeColor : string;
  cfg_strokeWidth : Q
}.

Inductive RunType := RunText | RunAsset.

Record Placement := {
  p_type : RunType;
  p_value : string;
  p_asset : option InlineAsset;
  p_x : Q;
  p_y : Q;
  p_width : Q;
  p_height : Q;
  p_baseline : Q;
  p_lineHeight : Q;
  p_column : nat
}.

Record LayoutResult := {
  success : bool;
  placements : list Placement;
  fontSize : Q;
  columns : nat;
  columnHeights : list Q;
  warnings : list string
}.

(** ** Numbers *)

Definition Qleb (a b : Q) : bool := Qle_bool a b.
Definition Qltb (a b : Q) : bool := negb (Qle_bool b a).
Definition Qgtb (a b : Q) : bool := Qltb b a.
Definition Qgeb (a b : Q) : bool := Qleb b a.

Lemma Qleb_le a b : Qleb a b = true <-> (a <= b)%Q.
Proof. apply Qle_bool_iff. Qed.

Lemma Qltb_lt a b : Qltb a b = true <-> (a < b)%Q.
Proof.
  unfold Qltb. rewrite negb_true_iff, <- not_true_iff_false, Qle_bool_iff.
  split; [apply Qnot_le_lt | apply Qlt_not_le].
Qed.

Lemma Qltb_ge a b : Qltb a b = false <-> (b <= a)%Q.
Proof.
  unfold Qltb. rewrite negb_false_iff. apply Qle_bool_iff.
Qed.

Lemma Qleb_gt a b : Qleb a b = false <-> (b < a)%Q.
Proof.
  unfold Qleb. rewrite <- not_true_iff_false, Qle_bool_iff.
  split; [apply Qnot_le_lt | apply Qlt_not_le].
Qed.

(** [a || b] on numbers, where [a] may be missing: zero (like NaN and
    [undefined]) is falsy. *)
Definition num_or (a : option Q) (b : Q) : Q :=
  match a with
  | Some v => if Qeq_bool v 0 then b else v
  | None => b
  end.

(** ** layoutEngine.ts: line buffers and the measuring context *)

(** What [CanvasRenderingContext2D.measureText] returns. *)
Record TextMetrics := {
  tm_width : Q;
  actualBoundingBoxAscent : option Q;
  actualBoundingBoxDescent : option Q;
  fontBoundingBoxAscent : option Q;
  fontBoundingBoxDescent : option Q
}.

Record RunBuffer := {
  run_type : RunType;
  run_value : string;
  run_asset : option InlineAsset;
  run_width : Q;
  run_height : Q;
  run_ascent : Q;
  run_descent : Q;
  run_metrics : option TextMetrics
}.

Record LineBuffer := {
  runs : list RunBuffer;
  line_width : Q;
  line_ascent : Q;
  line_descent : Q;
  line_height : Q
}.

Record LayoutAttempt := {
  att_success : bool;
  att_placements : list Placement;
  att_overflow : bool;
  att_warnings : list string;
  att_columnHeights : list Q
}.

(** The font string [`${fontSize}px ${fontFamily}`] of the context. *)
Record Font := {
  font_px : Q;
  font_family : string
}.

Record MeasureContext := {
  ctx_font : Font
}.

Record LayoutWithConfigParams := {
  par_fontSize : Q;
  par_columns : nat;
  par_config : LayoutConfig;
  par_measureContext : MeasureContext
}.

(** What the search does that a caller cannot read off the result: an
    attempt of [layoutWithConfig] at a column count and font size, and a
    call of the measurement provider. *)
Inductive Event :=
| EvAttempt (columns : nat) (fontSize : Q)
| EvMeasure (font : Font) (char : string).

Definition WARN_INVALID_SAFE_RECT : string :=
  "安全区域尺寸无效，无法排版".
Definition WARN_TOO_NARROW : string :=
  "安全区域过窄，建议缩小角色或增加安全边距，可尝试下调“基准字号”。".
Definition WARN_OVERFLOW : string :=
  "内容过多，换列后仍然溢出，可尝试减小“基准字号”或精简文案。".
Definition WARN_DOES_NOT_FIT : string :=
  "内容过多，最小字号仍无法在安全区域排布，可尝试减少文字、缩小角色或下调“基准字号”。".
Definition WARN_OUTSIDE_SAFE_RECT : string :=
  "文案位置已超出安全区，可调整“文案偏移”或裁剪设置。".

Definition createLineBuffer (fontSize lineHeightRatio : Q) : LineBuffer :=
  let baseHeight := (fontSize * lineHeightRatio)%Q in
  {| runs := [];
     line_width := 0;
     line_ascent := (fontSize * 0.8)%Q;
     line_descent := (fontSize * 0.2)%Q;
     line_height := baseHeight |}.

Definition createMeasureContext (fontFamily : string) (fontSize : Q)
    : MeasureContext :=
  {| ctx_font := {| font_px := fontSize; font_family := fontFamily |} |}.

(** [reusableContext.font = `${fontSize}px ${config.fontFamily}`]. *)
Definition set_font (ctx : MeasureContext) (fontSize : Q) (fontFamily : string)
    : MeasureContext :=
  {| ctx_font := {| font_px := fontSize; font_family := fontFamily |} |}.

(** The run of a character as [pushTextSegment] builds it; absent or zero
    metrics fall back to fractions of the font size. *)
Definition textAscent (metrics : TextMetrics) (fontSize : Q) : Q :=
  num_or (actualBoundingBoxAscent metrics)
    (num_or (fontBoundingBoxAscent metrics) (fontSize * 0.82)%Q).

Definition textDescent (metrics : TextMetrics) (fontSize : Q) : Q :=
  num_or (actualBoundingBoxDescent metrics)
    (num_or (fontBoundingBoxDescent metrics) (fontSize * 0.18)%Q).

Definition textRun (char : string) (metrics : TextMetrics) (fontSize : Q)
    (currentLine : LineBuffer) : RunBuffer :=
  {| run_type := RunText;
     run_value := char;
     run_asset := None;
     run_width := tm_width metrics;
     run_height := line_height currentLine;
     run_ascent := textAscent metrics fontSize;
     run_descent := textDescent metrics fontSize;
     run_metrics := Some metrics |}.

(** The tail of the loop body of [pushTextSegment]: push the run, then
    update the width and the three metrics of the line. *)
Definition appendTextRun (currentLine : LineBuffer) (run : RunBuffer)
    : LineBuffer :=
  let ascent := Qmax (line_ascent currentLine) (run_ascent run) in
  let descent := Qmax (line_descent currentLine) (run_descent run) in
  {| runs := runs currentLine ++ [run];
     line_width := (line_width currentLine + run_width run)%Q;
     line_ascent := ascent;
     line_descent := descent;
     line_height := Qmax (line_height currentLine) (ascent + descent)%Q |}.

(** The tail of [pushAssetToken]. *)
Definition appendAssetRun (currentLine : LineBuffer) (run : RunBuffer)
    : LineBuffer :=
  let height := run_height run in
  let height1 := Qmax (line_height currentLine) height in
  let ascent := Qmax (line_ascent currentLine) height in
  let descent := Qmax (line_descent currentLine) 0 in
  {| runs := runs currentLine ++ [run];
     line_width := (line_width currentLine + run_width run)%Q;
     line_ascent := ascent;
     line_descent := descent;
     line_height := Qmax height1 (ascent + descent)%Q |}.

(** The wrap test shared by both push functions: close the line when the
    new run does not fit and the line already holds a run. *)
Definition wrapIfNeeded (currentLine : LineBuffer) (width columnWidth : Q)
    (fontSize lineHeightRatio : Q) (lines : list LineBuffer)
    : LineBuffer * list LineBuffer :=
  if Qgtb (line_width currentLine + width)%Q columnWidth
     && Nat.ltb 0 (length (runs currentLine))
  then (createLineBuffer fontSize lineHeightRatio, lines ++ [currentLine])
  else (currentLine, lines).

Definition newline : ascii := "010"%char.

(** [value.split('\n')]: never empty, one more piece than newlines. *)
Fixpoint split_newline (s : string) : list string :=
  match s with
  | EmptyString => [""]
  | String c s' =>
      match split_newline s' with
      | [] => [String c ""]
      | seg :: segs =>
          if Ascii.eqb c newline then "" :: seg :: segs
          else String c seg :: segs
      end
  end.

(** [columnHeights[i] = v].  Inside the array this is an update in place;
    JavaScript extends the array when [i] is its length, which only
    happens for [columns = 0] (never passed by [autoLayout]). *)
Definition array_set (i : nat) (v : Q) (a : list Q) : list Q :=
  if Nat.ltb i (length a) then <[i := v]> a
  else a ++ replicate (i - length a) 0%Q ++ [v].

Definition Qnat (n : nat) : Q := inject_Z (Z.of_nat n).

(** [Array.from(s)]: the code points of a string.  In UTF-8 a byte below
    128 is a character of its own, and a byte of the form 10xxxxxx
    continues the character begun before it. *)
Definition isAsciiByte (c : ascii) : bool :=
  match c with Ascii _ _ _ _ _ _ _ b7 => negb b7 end.

Definition isContinuation (c : ascii) : bool :=
  match c with Ascii _ _ _ _ _ _ b6 b7 => b7 && negb b6 end.

(** Whether the string starts in the middle of a character. *)
Definition continues (s : string) : bool :=
  match s with
  | String d _ => isContinuation d
  | EmptyString => false
  end.

Fixpoint Array_from (s : string) : list string :=
  match s with
  | EmptyString => []
  | String c rest =>
      match Array_from rest with
      | g :: gs =>
          if negb (isAsciiByte c) && continues rest
          then String c g :: gs
          else String c "" :: g :: gs
      | [] => [String c ""]
      end
  end.

Section LayoutEngine.

(** The measurement provider: the metrics of one character in the font
    the context currently holds. *)
Variable measureText : Font -> string -> TextMetrics.

(** [for (const char of Array.from(segment))]: the loop of
    [pushTextSegment] over the characters of the segment. *)
Fixpoint pushChars (chars : list string) (line : LineBuffer)
    (columnWidth : Q) (measureContext : MeasureContext)
    (fontSize lineHeightRatio : Q) (lines : list LineBuffer)
    : LineBuffer * list LineBuffer * list Event :=
  match chars with
  | [] => (line, lines, [])
  | char :: rest =>
      let metrics := measureText (ctx_font measureContext) char in
      let width := tm_width metrics in
      let '(currentLine, lines1) :=
        wrapIfNeeded line width columnWidth fontSize lineHeightRatio lines in
      let currentLine1 :=
        appendTextRun currentLine (textRun char metrics fontSize currentLine) in
      let '(last, lines2, events) :=
        pushChars rest currentLine1 columnWidth measureContext
          fontSize lineHeightRatio lines1 in
      (last, lines2, EvMeasure (ctx_font measureContext) char :: events)
  end.

Definition pushTextSegment (segment : string) (line : LineBuffer)
    (columnWidth : Q) (measureContext : MeasureContext)
    (fontSize lineHeightRatio : Q) (lines : list LineBuffer)
    : LineBuffer * list LineBuffer * list Event :=
  pushChars (Array_from segment) line columnWidth measureContext
    fontSize lineHeightRatio lines.

(** [asset.naturalWidth / asset.naturalHeight || 1]; a zero height with
    a positive width divides to infinity in JavaScript, which the
    shrink-to-fit branch then turns into the full column width and a
    height of zero. *)
Definition assetSize (asset : InlineAsset) (columnWidth fontSize : Q)
    : Q * Q :=
  let targetHeight := (fontSize * 1.05)%Q in
  if Qeq_bool (naturalHeight asset) 0 && Qltb 0 (naturalWidth asset)
     && Qltb 0 targetHeight
  then (columnWidth, 0%Q)
  else
    let ratio :=
      num_or (Some (naturalWidth asset / naturalHeight asset)%Q) 1 in
    let width := (targetHeight * ratio)%Q in
    let height := targetHeight in
    if Qgtb width columnWidth then
      let scale := (columnWidth / width)%Q in
      (columnWidth, (height * scale)%Q)
    else (width, height).

Definition pushAssetToken (asset : InlineAsset) (line : LineBuffer)
    (columnWidth fontSize lineHeightRatio : Q) (lines : list LineBuffer)
    : LineBuffer * list LineBuffer :=
  let '(width, height) := assetSize asset columnWidth fontSize in
  let '(currentLine, lines1) :=
    wrapIfNeeded line width columnWidth fontSize lineHeightRatio lines in
  let run :=
    {| run_type := RunAsset;
       run_value := asset_id asset;
       run_asset := Some asset;
       run_width := width;
       run_height := height;
       run_ascent := height;
       run_descent := 0;
       run_metrics := None |} in
  (appendAssetRun currentLine run, lines1).

(** [segments.forEach((segment, segmentIndex) => ...)] of
    [layoutWithConfig]; a segment is the last one when nothing follows. *)
Fixpoint pushSegments (segments : list string) (currentLine : LineBuffer)
    (columnWidth : Q) (measureContext : MeasureContext)
    (fontSize lineHeightRatio : Q) (lines : list LineBuffer)
    : LineBuffer * list LineBuffer * list Event :=
  match segments with
  | [] => (currentLine, lines, [])
  | segment :: rest =>
      let '(line1, lines1, ev1) :=
        if truthy segment then
          pushTextSegment segment currentLine columnWidth measureContext
            fontSize lineHeightRatio lines
        else (currentLine, lines, []) in
      let '(line2, lines2) :=
        match rest with
        | [] => (line1, lines1)
        | _ :: _ =>
            (createLineBuffer fontSize lineHeightRatio, lines1 ++ [line1])
        end in
      let '(line3, lines3, ev3) :=
        pushSegments rest line2 columnWidth measureContext
          fontSize lineHeightRatio lines2 in
      (line3, lines3, ev1 ++ ev3)
  end.

(** [for (const token of tokens)] of [layoutWithConfig]. *)
Fixpoint pushTokens (tokens : list LayoutToken) (currentLine : LineBuffer)
    (columnWidth : Q) (measureContext : MeasureContext)
    (fontSize lineHeightRatio : Q) (lines : list LineBuffer)
    : LineBuffer * list LineBuffer * list Event :=
  match tokens with
  | [] => (currentLine, lines, [])
  | token :: rest =>
      let '(line1, lines1, ev1) :=
        match token with
        | TokText value =>
            pushSegments (split_newline value) currentLine columnWidth
              measureContext fontSize lineHeightRatio lines
        | TokAsset asset =>
            let '(l, ls) :=
              pushAssetToken asset currentLine columnWidth fontSize
                lineHeightRatio lines in
            (l, ls, [])
        end in
      let '(line2, lines2, ev2) :=
        pushTokens rest line1 columnWidth measureContext
          fontSize lineHeightRatio lines1 in
      (line2, lines2, ev1 ++ ev2)
  end.

(** [for (const run of line.runs)]: one placement per run, left to
    right from [cursorX]. *)
Fixpoint placeRuns (line_runs : list RunBuffer) (line : LineBuffer)
    (safeRect : Rect) (left cursorX cursorY baseline : Q)
    (columnIndex : nat) : list Placement :=
  match line_runs with
  | [] => []
  | run :: rest =>
      let runHeight :=
        match run_type run with
        | RunAsset => run_height run
        | RunText => line_height line
        end in
      {| p_type := run_type run;
         p_value := run_value run;
         p_asset := run_asset run;
         p_x := (left + cursorX)%Q;
         p_y := (rect_y safeRect + cursorY)%Q;
         p_width := run_width run;
         p_height := runHeight;
         p_baseline := (rect_y safeRect + baseline)%Q;
         p_lineHeight := line_height line;
         p_column := columnIndex |}
      :: placeRuns rest line safeRect left (cursorX + run_width run)%Q
           cursorY baseline columnIndex
  end.

(** [for (const line of lines)]: the column packer, with its locals
    [placements], [columnHeights], [columnIndex] and [cursorY]. *)
Fixpoint placeLines (lines : list LineBuffer) (safeRect : Rect)
    (columns : nat) (columnWidth columnGap : Q)
    (placements : list Placement) (columnHeights : list Q)
    (columnIndex : nat) (cursorY : Q) : LayoutAttempt :=
  match lines with
  | [] =>
      {| att_success := true;
         att_placements := placements;
         att_overflow := false;
         att_warnings := [];
         att_columnHeights := array_set columnIndex cursorY columnHeights |}
  | line :: rest =>
      let place columnHeights1 columnIndex1 cursorY1 :=
        let left :=
          (rect_x safeRect + Qnat columnIndex1 * (columnWidth + columnGap))%Q in
        let baseline :=
          (cursorY1 + line_ascent line
           + Qmax 0 ((line_height line
                      - (line_ascent line + line_descent line)) / 2))%Q in
        placeLines rest safeRect columns columnWidth columnGap
          (placements
             ++ placeRuns (runs line) line safeRect left 0 cursorY1
                  baseline columnIndex1)
          columnHeights1 columnIndex1 (cursorY1 + line_height line)%Q in
      if Qgtb (cursorY + line_height line)%Q (rect_height safeRect + 0.5)%Q
      then
        let columnHeights1 := array_set columnIndex cursorY columnHeights in
        let columnIndex1 := S columnIndex in
        if Nat.leb columns columnIndex1 then
          {| att_success := false;
             att_placements := [];
             att_overflow := true;
             att_warnings := [WARN_OVERFLOW];
             att_columnHeights := columnHeights1 |}
        else place columnHeights1 columnIndex1 0%Q
      else place columnHeights columnIndex cursorY
  end.

Definition layoutWithConfig (tokens : list LayoutToken) (safeRect : Rect)
    (params : LayoutWithConfigParams) : LayoutAttempt * list Event :=
  let fontSize := par_fontSize params in
  let columns := par_columns params in
  let config := par_config params in
  let measureContext := par_measureContext params in
  let columnGap := cfg_columnGap config in
  let totalGap := (columnGap * (Qnat columns - 1))%Q in
  let columnWidth := ((rect_width safeRect - totalGap) / Qnat columns)%Q in
  if Qleb columnWidth 20 then
    ({| att_success := false;
        att_placements := [];
        att_overflow := true;
        att_warnings := [WARN_TOO_NARROW];
        att_columnHeights := replicate columns 0%Q |}, [])
  else
    let '(currentLine, lines, events) :=
      pushTokens tokens (createLineBuffer fontSize (cfg_lineHeight config))
        columnWidth measureContext fontSize (cfg_lineHeight config) [] in
    let lines1 :=
      if Nat.ltb 0 (length (runs currentLine)) || Nat.eqb (length lines) 0
      then lines ++ [currentLine] else lines in
    (placeLines lines1 safeRect columns columnWidth columnGap []
       (replicate columns 0%Q) 0 0%Q, events).

End LayoutEngine.

(** ** layoutEngine.ts: the search *)

(** The variant of the font size loop: it counts down with the distance
    of the loop variable to the minimum. *)
Definition font_measure (minFontSize fontSize : Q) : nat :=
  Z.to_nat (Qfloor (fontSize - minFontSize) + 1).

Lemma font_measure_decr minFontSize fontSize :
  Qgeb fontSize minFontSize = true ->
  (font_measure minFontSize (fontSize - 2) < font_measure minFontSize fontSize)%nat.
Proof.
  unfold Qgeb; rewrite Qleb_le; intros Hle.
  unfold font_measure.
  set (x := (fontSize - minFontSize)%Q).
  assert (Hx : (0 <= x)%Q) by (unfold x; apply (Qplus_le_l _ _ minFontSize); ring_simplify; exact Hle).
  assert (H0 : (0 <= Qfloor x)%Z) by (apply (Qfloor_resp_le 0 x) in Hx; exact Hx).
  assert (Hlt : (Qfloor (fontSize - 2 - minFontSize) < Qfloor x)%Z).
  { rewrite Zlt_Qlt.
    apply Qle_lt_trans with (x - 2)%Q.
    - assert (E : (fontSize - 2 - minFontSize == x - 2)%Q) by (unfold x; ring).
      rewrite <- E. apply Qfloor_le.
    - apply Qlt_le_trans with ((inject_Z (Qfloor x + 1)) - 2)%Q.
      + apply Qplus_lt_l. apply Qlt_floor.
      + rewrite inject_Z_plus. apply Qle_minus_iff. ring_simplify. discriminate. }
  lia.
Qed.

(** The value [findFontSizeForColumns] returns. *)
Record FontSearch := {
  fs_success : bool;
  fs_placements : list Placement;
  fs_fontSize : Q;
  fs_warnings : list string;
  fs_columnHeights : list Q
}.

Section LayoutSearch.

Variable measureText : Font -> string -> TextMetrics.

(** The [for] loop of [findFontSizeForColumns]; [fontSize] is the loop
    variable and [warnings] the local array. *)
Equations? fontSizeLoop (tokens : list LayoutToken) (safeRect : Rect)
    (config : LayoutConfig) (columns : nat)
    (reusableContext : MeasureContext) (fontSize : Q)
    (warnings : list string) : FontSearch * list Event
  by wf (font_measure (cfg_minFontSize config) fontSize) lt :=
  fontSizeLoop tokens safeRect config columns reusableContext fontSize
    warnings with inspect (Qgeb fontSize (cfg_minFontSize config)) := {
    | exist _ false _ =>
        ({| fs_success := false;
            fs_placements := [];
            fs_fontSize := cfg_minFontSize config;
            fs_warnings := warnings;
            fs_columnHeights := [] |}, []);
    | exist _ true _
        with layoutWithConfig measureText tokens safeRect
               {| par_fontSize := fontSize;
                  par_columns := columns;
                  par_config := config;
                  par_measureContext :=
                    set_font reusableContext fontSize (cfg_fontFamily config) |} := {
        | (attempt, events) with att_success attempt := {
            | true =>
                ({| fs_success := true;
                    fs_placements := att_placements attempt;
                    fs_fontSize := fontSize;
                    fs_warnings := warnings ++ att_warnings attempt;
                    fs_columnHeights := att_columnHeights attempt |},
                 EvAttempt columns fontSize :: events);
            | false
                with fontSizeLoop tokens safeRect config columns
                       (set_font reusableContext fontSize (cfg_fontFamily config))
                       (fontSize - 2)%Q (warnings ++ att_warnings attempt) := {
                | (result, events1) =>
                    (result, EvAttempt columns fontSize :: events ++ events1) } } } }.
Proof. apply font_measure_decr; assumption. Qed.

Definition findFontSizeForColumns (tokens : list LayoutToken)
    (safeRect : Rect) (config : LayoutConfig) (columns : nat)
    (reusableContext : MeasureContext) : FontSearch * list Event :=
  fontSizeLoop tokens safeRect config columns reusableContext
    (cfg_fontSize config) [].

(** [for (const columns of columnCandidates)] of [autoLayout], with the
    local [warnings]. *)
Fixpoint columnLoop (tokens : list LayoutToken) (config : LayoutConfig)
    (safeRect : Rect) (measureContext : MeasureContext)
    (columnCandidates : list nat) (warnings : list string)
    : LayoutResult * list Event :=
  match columnCandidates with
  | [] =>
      ({| success := false;
          placements := [];
          fontSize := cfg_minFontSize config;
          columns := 1;
          columnHeights := [];
          warnings :=
            if Nat.ltb 0 (length warnings) then warnings
            else [WARN_DOES_NOT_FIT] |}, [])
  | columns :: rest =>
      let '(attempt, events) :=
        findFontSizeForColumns tokens safeRect config columns measureContext in
      if fs_success attempt then
        ({| success := true;
            placements := fs_placements attempt;
            fontSize := fs_fontSize attempt;
            columns := columns;
            columnHeights := fs_columnHeights attempt;
            warnings := warnings ++ fs_warnings attempt |}, events)
      else
        let '(result, events1) :=
          columnLoop tokens config safeRect measureContext rest
            (warnings ++ fs_warnings attempt) in
        (result, events ++ events1)
  end.

(** [Array.from({ length: maxColumns }, (_, idx) => idx + 1)], or [[1]];
    a fractional length is truncated. *)
Definition columnCandidates (config : LayoutConfig) (autoColumns : bool)
    : list nat :=
  let maxColumns := if autoColumns then Qmax 1 (cfg_maxColumns config) else 1%Q in
  if autoColumns then map S (seq 0 (Z.to_nat (Qfloor maxColumns))) else [1%nat].

Definition autoLayout (tokens : list LayoutToken) (config : LayoutConfig)
    (safeRect : Rect) (autoColumns : bool) : LayoutResult * list Event :=
  if Qleb (rect_width safeRect) 0 || Qleb (rect_height safeRect) 0 then
    ({| success := false;
        placements := [];
        fontSize := cfg_minFontSize config;
        columns := 1;
        columnHeights := [];
        warnings := [WARN_INVALID_SAFE_RECT] |}, [])
  else
    let measureContext :=
      createMeasureContext (cfg_fontFamily config) (cfg_fontSize config) in
    columnLoop tokens config safeRect measureContext
      (columnCandidates config autoColumns) [].

End LayoutSearch.

(** ** scene.ts *)

Record CharacterOptions := {
  opt_scale : Q;
  opt_offsetX : Q;
  opt_offsetY : Q;
  opt_margin : Q;
  opt_brightness : Q;
  opt_contrast : Q;
  opt_dropShadow : bool
}.

Record SceneOptions := {
  so_canvasWidth : Q;
  so_canvasHeight : Q;
  so_outerPadding : Q;
  so_safePadding : Q;
  so_autoColumns : bool;
  so_textOffsetX : Q;
  so_textOffsetY : Q
}.

Record SceneComputation := {
  sc_safeRect : Rect;
  sc_characterRect : option Rect;
  sc_layout : LayoutResult;
  sc_warnings : list string
}.

(** The two fields of an [HTMLImageElement] the geometry reads. *)
Record Image := {
  img_naturalWidth : Q;
  img_naturalHeight : Q
}.

Definition clamp (value min max : Q) : Q := Qmin (Qmax value min) max.

Definition computeCharacterRect (canvasWidth canvasHeight : Q) (image : Image)
    (options : CharacterOptions) : Rect :=
  let maxWidth := (canvasWidth * 0.9)%Q in
  let width := Qmin maxWidth (canvasWidth * opt_scale options)%Q in
  let ratio :=
    if Qeq_bool (img_naturalHeight image) 0 then 1%Q
    else (img_naturalWidth image / img_naturalHeight image)%Q in
  let height := (width / num_or (Some ratio) 1)%Q in
  let baseX := (canvasWidth - width - opt_margin options)%Q in
  let baseY := (canvasHeight - height - opt_margin options)%Q in
  let x := clamp (baseX + opt_offsetX options)%Q (- width * 0.25)%Q
             (canvasWidth - width * 0.75)%Q in
  let y := clamp (baseY + opt_offsetY options)%Q (- height * 0.1)%Q
             (canvasHeight - height * 0.1)%Q in
  {| rect_x := x; rect_y := y; rect_width := width; rect_height := height |}.

Definition area (r : Rect) : Q := (rect_width r * rect_height r)%Q.

(** [Array.prototype.sort] with a comparator is a stable sort: [x], which
    comes first in the array, stays in front of [y] unless the comparator
    is positive on [(x, y)].  Insertion from the right realises it. *)
Fixpoint insert_sorted {A} (cmp : A -> A -> Q) (x : A) (l : list A) : list A :=
  match l with
  | [] => [x]
  | y :: l' =>
      if Qleb (cmp x y) 0 then x :: y :: l'
      else y :: insert_sorted cmp x l'
  end.

Definition array_sort {A} (cmp : A -> A -> Q) (l : list A) : list A :=
  fold_right (insert_sorted cmp) [] l.

(** The outer rectangle of [computeSafeRect] and its three candidates. *)
Definition outerRect (canvasWidth canvasHeight outerPadding : Q) : Rect :=
  {| rect_x := outerPadding;
     rect_y := outerPadding;
     rect_width := Qmax (canvasWidth - outerPadding * 2) 10;
     rect_height := Qmax (canvasHeight - outerPadding * 2) 10 |}.

Definition leftRect (outer characterRect : Rect) (safePadding : Q) : Rect :=
  {| rect_x := rect_x outer;
     rect_y := rect_y outer;
     rect_width := Qmax (rect_x characterRect - safePadding - rect_x outer) 0;
     rect_height := rect_height outer |}.

Definition topRect (outer characterRect : Rect) (safePadding : Q) : Rect :=
  {| rect_x := rect_x outer;
     rect_y := rect_y outer;
     rect_width := rect_width outer;
     rect_height := Qmax (rect_y characterRect - safePadding - rect_y outer) 0 |}.

Definition rightRect (outer characterRect : Rect) (safePadding : Q) : Rect :=
  let rightX := (rect_x characterRect + rect_width characterRect + safePadding)%Q in
  {| rect_x := rightX;
     rect_y := rect_y outer;
     rect_width := Qmax (rect_x outer + rect_width outer - rightX) 0;
     rect_height := rect_height outer |}.

Definition bigEnough (rect : Rect) : bool :=
  Qgtb (rect_width rect) 20 && Qgtb (rect_height rect) 20.

Definition byAreaDescending (a b : Rect) : Q := (area b - area a)%Q.

Definition computeSafeRect (canvasWidth canvasHeight : Q)
    (characterRect : option Rect) (outerPadding safePadding : Q) : Rect :=
  let outer := outerRect canvasWidth canvasHeight outerPadding in
  match characterRect with
  | None => outer
  | Some characterRect =>
      let candidates :=
        List.filter bigEnough
          [leftRect outer characterRect safePadding;
           topRect outer characterRect safePadding;
           rightRect outer characterRect safePadding] in
      match array_sort byAreaDescending candidates with
      | [] => outer
      | best :: _ => best
      end
  end.

(** [Math.max(...columnHeights)] of a non-empty array. *)
Definition maxOf (l : list Q) : Q :=
  match l with
  | [] => 0%Q
  | h :: t => fold_left Qmax t h
  end.

Definition alignLayout (layout : LayoutResult) (safeRect : Rect)
    (characterRect : option Rect) : LayoutResult :=
  if negb (success layout) || Nat.eqb (length (columnHeights layout)) 0
  then layout
  else
    let maxHeight := maxOf (columnHeights layout) in
    if Qleb maxHeight 0 then layout
    else
      let safeTop := rect_y safeRect in
      let safeBottom := (rect_y safeRect + rect_height safeRect)%Q in
      let targetTopRaw :=
        match characterRect with
        | Some c => rect_y c
        | None => safeTop
        end in
      let targetTop := Qmin (Qmax targetTopRaw safeTop) safeBottom in
      let desiredOffset := Qmax 0 (targetTop - safeTop) in
      let maxOffset := Qmax 0 (rect_height safeRect - maxHeight) in
      let appliedOffset := Qmin desiredOffset maxOffset in
      if Qleb appliedOffset 0 then layout
      else
        let adjust placement :=
          {| p_type := p_type placement;
             p_value := p_value placement;
             p_asset := p_asset placement;
             p_x := p_x placement;
             p_y := (p_y placement + appliedOffset)%Q;
             p_width := p_width placement;
             p_height := p_height placement;
             p_baseline := (p_baseline placement + appliedOffset)%Q;
             p_lineHeight := p_lineHeight placement;
             p_column := p_column placement |} in
        {| success := success layout;
           placements := map adjust (placements layout);
           fontSize := fontSize layout;
           columns := columns layout;
           columnHeights := columnHeights layout;
           warnings := warnings layout |}.

(** A number or one of the two infinities that seed the bounding box. *)
Inductive ext := NegInf | Fin (q : Q) | PosInf.

Definition ext_min (a : ext) (x : Q) : ext :=
  match a with
  | NegInf => NegInf
  | Fin q => Fin (Qmin q x)
  | PosInf => Fin x
  end.

Definition ext_max (a : ext) (x : Q) : ext :=
  match a with
  | NegInf => Fin x
  | Fin q => Fin (Qmax q x)
  | PosInf => PosInf
  end.

(** [a < x] and [a > x] for a bound [a] and a number [x]. *)
Definition ext_ltb (a : ext) (x : Q) : bool :=
  match a with
  | NegInf => true
  | Fin q => Qltb q x
  | PosInf => false
  end.

Definition ext_gtb (a : ext) (x : Q) : bool :=
  match a with
  | NegInf => false
  | Fin q => Qgtb q x
  | PosInf => true
  end.

Record Bounds := {
  minX : ext;
  maxX : ext;
  minY : ext;
  maxY : ext
}.

Definition noBounds : Bounds :=
  {| minX := PosInf; maxX := NegInf; minY := PosInf; maxY := NegInf |}.

(** The callback of [layout.placements.map] in [applyTextOffset]: it
    returns the moved placement and widens the four bounds. *)
Definition movePlacement (offsetX offsetY : Q) (b : Bounds)
    (placement : Placement) : Placement * Bounds :=
  let x := (p_x placement + offsetX)%Q in
  let y := (p_y placement + offsetY)%Q in
  let baseline := (p_baseline placement + offsetY)%Q in
  ({| p_type := p_type placement;
      p_value := p_value placement;
      p_asset := p_asset placement;
      p_x := x;
      p_y := y;
      p_width := p_width placement;
      p_height := p_height placement;
      p_baseline := baseline;
      p_lineHeight := p_lineHeight placement;
      p_column := p_column placement |},
   {| minX := ext_min (minX b) x;
      maxX := ext_max (maxX b) (x + p_width placement)%Q;
      minY := ext_min (minY b) y;
      maxY := ext_max (maxY b) (y + p_height placement)%Q |}).

Fixpoint movePlacements (offsetX offsetY : Q) (b : Bounds)
    (l : list Placement) : list Placement * Bounds :=
  match l with
  | [] => ([], b)
  | placement :: rest =>
      let '(moved, b1) := movePlacement offsetX offsetY b placement in
      let '(rest1, b2) := movePlacements offsetX offsetY b1 rest in
      (moved :: rest1, b2)
  end.

Definition outsideSafeRect (b : Bounds) (safeRect : Rect) : bool :=
  ext_ltb (minX b) (rect_x safeRect)
  || ext_gtb (maxX b) (rect_x safeRect + rect_width safeRect)%Q
  || ext_ltb (minY b) (rect_y safeRect)
  || ext_gtb (maxY b) (rect_y safeRect + rect_height safeRect)%Q.

(** [warnings.includes(warningText)]. *)
Definition includes (l : list string) (s : string) : bool :=
  existsb (String.eqb s) l.

Definition applyTextOffset (layout : LayoutResult) (offsetX offsetY : Q)
    (safeRect : Rect) : LayoutResult :=
  if negb (success layout) then layout
  else if Qeq_bool offsetX 0 && Qeq_bool offsetY 0 then layout
  else
    let '(placements1, b) :=
      movePlacements offsetX offsetY noBounds (placements layout) in
    let warnings0 := warnings layout in
    let warningText := WARN_OUTSIDE_SAFE_RECT in
    let warnings1 :=
      if outsideSafeRect b safeRect then
        if negb (includes warnings0 warningText)
        then warnings0 ++ [warningText] else warnings0
      else warnings0 in
    {| success := success layout;
       placements := placements1;
       fontSize := fontSize layout;
       columns := columns layout;
       columnHeights := columnHeights layout;
       warnings := warnings1 |}.

Section Scene.

Variable measureText : Font -> string -> TextMetrics.

Definition computeScene (canvasWidth canvasHeight : Q)
    (characterImage : option Image) (characterOptions : CharacterOptions)
    (text : string) (inlineAssets : list InlineAsset)
    (layoutConfig : LayoutConfig) (options : SceneOptions)
    : SceneComputation * list Event :=
  let characterRect :=
    match characterImage with
    | Some image =>
        Some (computeCharacterRect canvasWidth canvasHeight image characterOptions)
    | None => None
    end in
  let safeRect :=
    computeSafeRect canvasWidth canvasHeight characterRect
      (so_outerPadding options) (so_safePadding options) in
  let tokens := tokenizeText text inlineAssets in
  let '(rawLayout, events) :=
    autoLayout measureText tokens layoutConfig safeRect (so_autoColumns options) in
  let alignedLayout := alignLayout rawLayout safeRect characterRect in
  let offsetLayout :=
    applyTextOffset alignedLayout (so_textOffsetX options)
      (so_textOffsetY options) safeRect in
  ({| sc_safeRect := safeRect;
      sc_characterRect := characterRect;
      sc_layout := offsetLayout;
      sc_warnings := warnings offsetLayout |}, events).

End Scene.

(** ** App.tsx: the pure helpers of the user interface *)

(** What [normalizeCrop] returns. *)
Record Crop := {
  crop_top : Q;
  crop_bottom : Q;
  crop_height : Q
}.

Definition normalizeCrop (top bottom fullHeight minHeight : Q) : Crop :=
  let safeMinHeight := Qmin fullHeight (Qmax minHeight 1) in
  let maxTop := Qmax 0 (fullHeight - safeMinHeight) in
  let normalizedTop := Qmax 0 (Qmin top maxTop) in
  let maxBottom := Qmax 0 (fullHeight - normalizedTop - safeMinHeight) in
  let normalizedBottom := Qmax 0 (Qmin bottom maxBottom) in
  let trimmedHeight :=
    Qmax (fullHeight - normalizedTop - normalizedBottom) safeMinHeight in
  {| crop_top := normalizedTop;
     crop_bottom := normalizedBottom;
     crop_height := trimmedHeight |}.

(** The text [insertAssetToken] stores: the token replaces the selection
    [start .. end) of the editor, or is appended when there is no editor
    ([selection = None]). *)
Definition insertAssetToken (value : string) (selection : option (nat * nat))
    (assetId : string) : string :=
  let token := marker assetId in
  match selection with
  | None => value +:+ token
  | Some (start, end_) =>
      slice value 0 start +:+ token +:+ slice_from value end_
  end.

(** * Vocabulary of the statements *)

(** A token written back as the text it came from. *)
Definition render (t : LayoutToken) : string :=
  match t with
  | TokText value => value
  | TokAsset asset => marker (asset_id asset)
  end.

Definition join (l : list string) : string := fold_right String.append "" l.

Definition rendered (l : list LayoutToken) : string := join (map render l).

(** The token the callback pushes for a match. *)
Definition marker_token (assetMap : gmap string InlineAsset) (m : RegexMatch)
    : LayoutToken :=
  match assetMap !! m_assetId m with
  | Some asset => TokAsset asset
  | None => TokText (m_match m)
  end.


(** The values the loop variable [fontSize] of [findFontSizeForColumns]
    takes when the loop starts at [fontSize] and is never left early. *)
Equations? fontSizes (minFontSize fontSize : Q) : list Q
  by wf (font_measure minFontSize fontSize) lt :=
  fontSizes minFontSize fontSize with inspect (Qgeb fontSize minFontSize) := {
    | exist _ true _ => fontSize :: fontSizes minFontSize (fontSize - 2)%Q;
    | exist _ false _ => [] }.
Proof. apply font_measure_decr; assumption. Qed.

(** The (column count, font size) pairs in the order the nested loops of
    [autoLayout] and [findFontSizeForColumns] visit them. *)
Definition searchOrder (config : LayoutConfig) (candidates : list nat)
    : list (nat * Q) :=
  flat_map
    (fun c => map (pair c) (fontSizes (cfg_minFontSize config) (cfg_fontSize config)))
    candidates.

(** The attempts and the provider calls recorded in a list of events. *)
Fixpoint attempts (events : list Event) : list (nat * Q) :=
  match events with
  | [] => []
  | EvAttempt c f :: rest => (c, f) :: attempts rest
  | EvMeasure _ _ :: rest => attempts rest
  end.

Fixpoint measurements (events : list Event) : nat :=
  match events with
  | [] => 0
  | EvAttempt _ _ :: rest => measurements rest
  | EvMeasure _ _ :: rest => S (measurements rest)
  end.

Section SearchVocabulary.

Variable measureText : Font -> string -> TextMetrics.
Variable tokens : list LayoutToken.
Variable safeRect : Rect.
Variable config : LayoutConfig.

(** One attempt of the line packer at a column count and font size, as
    the search runs it: the context carries that font size. *)
Definition attemptAt (c : nat) (f : Q) : LayoutAttempt * list Event :=
  layoutWithConfig measureText tokens safeRect
    {| par_fontSize := f;
       par_columns := c;
       par_config := config;
       par_measureContext := createMeasureContext (cfg_fontFamily config) f |}.

Definition feasible (c : nat) (f : Q) : bool :=
  att_success (fst (attemptAt c f)).

(** The events and the warnings a run of attempts leaves behind. *)
Definition eventsOf (tried : list (nat * Q)) : list Event :=
  flat_map (fun cf => EvAttempt (fst cf) (snd cf) :: snd (attemptAt (fst cf) (snd cf)))
    tried.

Definition warningsOf (tried : list (nat * Q)) : list string :=
  flat_map (fun cf => att_warnings (fst (attemptAt (fst cf) (snd cf)))) tried.

End SearchVocabulary.

(** The width [layoutWithConfig] gives each of [c] columns. *)
Definition columnWidthOf (safeRect : Rect) (config : LayoutConfig) (c : nat) : Q :=
  ((rect_width safeRect - cfg_columnGap config * (Qnat c - 1)) / Qnat c)%Q.

Definition degenerate (safeRect : Rect) : Prop :=
  (rect_width safeRect <= 0)%Q \/ (rect_height safeRect <= 0)%Q.

(** The number of column counts [autoLayout] is prepared to try. *)
Definition columnLimit (config : LayoutConfig) (autoColumns : bool) : nat :=
  if autoColumns then Z.to_nat (Qfloor (Qmax 1 (cfg_maxColumns config))) else 1.

(** ** Concrete inputs *)

(** A provider of fixed-width glyphs that reports no ascent or descent. *)
Definition plainMetrics (w : Q) : Font -> string -> TextMetrics :=
  fun _ _ =>
    {| tm_width := w;
       actualBoundingBoxAscent := None;
       actualBoundingBoxDescent := None;
       fontBoundingBoxAscent := None;
       fontBoundingBoxDescent := None |}.

Definition sampleConfig (fontSize minFontSize lineHeight maxColumns : Q)
    : LayoutConfig :=
  {| cfg_width := 1000;
     cfg_height := 1000;
     cfg_fontSize := fontSize;
     cfg_minFontSize := minFontSize;
     cfg_fontFamily := "serif";
     cfg_lineHeight := lineHeight;
     cfg_maxColumns := maxColumns;
     cfg_columnGap := 0;
     cfg_textColor := "#fff";
     cfg_strokeColor := "#000";
     cfg_strokeWidth := 0 |}.

Definition sampleRect (width height : Q) : Rect :=
  {| rect_x := 0; rect_y := 0; rect_width := width; rect_height := height |}.

(** The bounding box [applyTextOffset] computes for the moved placements. *)
Definition movedBounds (layout : LayoutResult) (offsetX offsetY : Q) : Bounds :=
  snd (movePlacements offsetX offsetY noBounds (placements layout)).

(** A placement that the offset pushes out of the safe rectangle: moved
    by the offset, its left edge lies left of the rectangle, its right
    edge right of it, its top edge above it or its bottom edge below
    it. *)
Definition pushedOutside (safeRect : Rect) (offsetX offsetY : Q)
    (p : Placement) : Prop :=
  (p_x p + offsetX < rect_x safeRect)%Q
  \/ (rect_x safeRect + rect_width safeRect < p_x p + offsetX + p_width p)%Q
  \/ (p_y p + offsetY < rect_y safeRect)%Q
  \/ (rect_y safeRect + rect_height safeRect < p_y p + offsetY + p_height p)%Q.

Definition samplePlacement (x y width height : Q) : Placement :=
  {| p_type := RunText;
     p_value := "a";
     p_asset := None;
     p_x := x;
     p_y := y;
     p_width := width;
     p_height := height;
     p_baseline := (y + height)%Q;
     p_lineHeight := height;
     p_column := 0 |}.

Definition sampleLayout (ps : list Placement) (ws : list string) : LayoutResult :=
  {| success := true;
     placements := ps;
     fontSize := 12;
     columns := 1;
     columnHeights := [18%Q];
     warnings := ws |}.

(** A metric the provider does not supply: absent, or zero (which [||]
    treats alike). *)
Definition missing (a : option Q) : Prop :=
  match a with
  | None => True
  | Some v => (v == 0)%Q
  end.

(** The line buffers the packer can build at one font size: a fresh
    buffer, extended by text runs and asset runs. *)
Inductive builtLine (fontSize lineHeightRatio : Q) : LineBuffer -> Prop :=
| built_new :
    builtLine fontSize lineHeightRatio (createLineBuffer fontSize lineHeightRatio)
| built_text line char metrics :
    builtLine fontSize lineHeightRatio line ->
    builtLine fontSize lineHeightRatio
      (appendTextRun line (textRun char metrics fontSize line))
| built_asset line run :
    builtLine fontSize lineHeightRatio line ->
    run_ascent run = run_height run ->
    run_descent run = 0%Q ->
    builtLine fontSize lineHeightRatio (appendAssetRun line run).

(** The largest of [init] and the numbers of [l]. *)
Definition maxFrom (init : Q) (l : list Q) : Q := fold_left Qmax l init.

(** A provider of glyphs of width [w] with the actual ascent [a] and
    descent [d]. *)
Definition glyphMetrics (w a d : Q) : Font -> string -> TextMetrics :=
  fun _ _ =>
    {| tm_width := w;
       actualBoundingBoxAscent := Some a;
       actualBoundingBoxDescent := Some d;
       fontBoundingBoxAscent := None;
       fontBoundingBoxDescent := None |}.

(** The line after one character was pushed to a fresh buffer. *)
Definition oneCharLine (measureText : Font -> string -> TextMetrics)
    (fontSize lineHeightRatio : Q) : LineBuffer :=
  fst (fst (pushTextSegment measureText "a"
              (createLineBuffer fontSize lineHeightRatio) 200
              (createMeasureContext "serif" fontSize) fontSize lineHeightRatio [])).

(** A column height the packer may leave behind: within the limit, or
    the height of a single line of [lines] that is itself above the limit
    and was put first into a fresh column. *)
Definition heightAllowed (safeRect : Rect) (lines : list LineBuffer) (h : Q) : Prop :=
  (h <= rect_height safeRect + 0.5)%Q
  \/ exists line,
       In line lines
       /\ h = (0 + line_height line)%Q
       /\ (rect_height safeRect + 0.5 < line_height line)%Q.

(** The order a sort by descending area establishes. *)
Definition largerFirst (a b : Rect) : Prop := (area b <= area a)%Q.

(** ** Vocabulary of the further properties *)

(** A character other than the line break. *)
Definition notNewline (char : string) : bool :=
  negb (String.eqb char (String newline "")).

(** The characters of the text tokens that reach the line packer, in
    order: every character (code point) but the line breaks. *)
Definition textChars (tokens : list LayoutToken) : list string :=
  flat_map
    (fun t =>
       match t with
       | TokText value => List.filter notNewline (Array_from value)
       | TokAsset _ => []
       end)
    tokens.

(** What a complete layout shows, in order: one entry per character
    other than a line break, one per asset (its id). *)
Definition contentValues (tokens : list LayoutToken) : list string :=
  flat_map
    (fun t =>
       match t with
       | TokText value => List.filter notNewline (Array_from value)
       | TokAsset asset => [asset_id asset]
       end)
    tokens.

(** The runs held by the closed lines and the open line, in order. *)
Definition allRuns (lines : list LineBuffer) (line : LineBuffer) : list RunBuffer :=
  flat_map runs lines ++ runs line.

Definition sumWidths (rs : list RunBuffer) : Q :=
  fold_right (fun r acc => (run_width r + acc)%Q) 0%Q rs.

(** The left edge of column [i]. *)
Definition columnLeft (safeRect : Rect) (columnWidth columnGap : Q) (i : nat) : Q :=
  (rect_x safeRect + Qnat i * (columnWidth + columnGap))%Q.

(** The events of one attempt of the search. *)
Definition attemptTrace (tokens : list LayoutToken) (safeRect : Rect)
    (config : LayoutConfig) (cf : nat * Q) : list Event :=
  EvAttempt (fst cf) (snd cf)
  :: (if Qleb (columnWidthOf safeRect config (fst cf)) 20 then []
      else map (EvMeasure {| font_px := snd cf;
                             font_family := cfg_fontFamily config |})
             (textChars tokens)).

Definition wideEnough (safeRect : Rect) (config : LayoutConfig) (cf : nat * Q)
    : bool :=
  negb (Qleb (columnWidthOf safeRect config (fst cf)) 20).

(** Two rectangles whose interiors do not meet: one lies entirely to one
    side of the other. *)
Definition apart (r c : Rect) : Prop :=
  (rect_x r + rect_width r <= rect_x c)%Q
  \/ (rect_x c + rect_width c <= rect_x r)%Q
  \/ (rect_y r + rect_height r <= rect_y c)%Q
  \/ (rect_y c + rect_height c <= rect_y r)%Q.

(** The candidates of [computeSafeRect] that pass its filter. *)
Definition survivors (canvasWidth canvasHeight : Q) (characterRect : Rect)
    (outerPadding safePadding : Q) : list Rect :=
  let outer := outerRect canvasWidth canvasHeight outerPadding in
  List.filter bigEnough
    [leftRect outer characterRect safePadding;
     topRect outer characterRect safePadding;
     rightRect outer characterRect safePadding].

(** A placement moved down by [d], as [alignLayout] does. *)
Definition shiftDown (d : Q) (placement : Placement) : Placement :=
  {| p_type := p_type placement;
     p_value := p_value placement;
     p_asset := p_asset placement;
     p_x := p_x placement;
     p_y := (p_y placement + d)%Q;
     p_width := p_width placement;
     p_height := p_height placement;
     p_baseline := (p_baseline placement + d)%Q;
     p_lineHeight := p_lineHeight placement;
     p_column := p_column placement |}.

(** A placement moved by the user offset. *)
Definition moveBy (offsetX offsetY : Q) (placement : Placement) : Placement :=
  fst (movePlacement offsetX offsetY noBounds placement).

(** A placement one of whose edges lies outside the safe rectangle. *)
Definition sticksOut (safeRect : Rect) (p : Placement) : bool :=
  Qltb (p_x p) (rect_x safeRect)
  || Qgtb (p_x p + p_width p) (rect_x safeRect + rect_width safeRect)
  || Qltb (p_y p) (rect_y safeRect)
  || Qgtb (p_y p + p_height p) (rect_y safeRect + rect_height safeRect).

(** [lacks c s]: the character [c] does not occur in [s]. *)
Definition lacks (c : ascii) (s : string) : bool :=
  forallb (fun x => negb (Ascii.eqb x c)) (list_ascii_of_string s).

(** An id the marker syntax can carry: not empty, no closing bracket. *)
Definition validId (i : string) : Prop :=
  truthy i = true /\ lacks "]"%char i = true.

(** The token a stretch of plain text becomes: none when it is empty. *)
Definition textToken (s : string) : list LayoutToken :=
  if truthy s then [TokText s] else [].

(** [a] is the asset the map of [assets] holds under its id: the last
    one of the list with that id. *)
Definition lastWithId (assets : list InlineAsset) (a : InlineAsset) : Prop :=
  exists pre post,
    assets = pre ++ a :: post
    /\ forall b, In b post -> asset_id b <> asset_id a.

(** A token with content: an asset, or text that is not empty. *)
Definition nonEmptyToken (t : LayoutToken) : Prop :=
  match t with
  | TokText v => truthy v = true
  | TokAsset _ => True
  end.

(** The text before and after the token [insertAssetToken] inserts. *)
Definition aroundSelection (value : string) (selection : option (nat * nat))
    : string * string :=
  match selection with
  | None => (value, "")
  | Some (start, end_) => (slice value 0 start, slice_from value end_)
  end.

(** A line that respects the column width: no run has a negative width,
    an asset run is at most one column wide, the recorded width is the
    sum of the runs, and the line is wider than the column only when it
    holds a single run. *)
Definition fitsColumn (columnWidth : Q) (line : LineBuffer) : Prop :=
  List.Forall
    (fun r => (0 <= run_width r)%Q
              /\ (run_type r = RunAsset -> (run_width r <= columnWidth)%Q))
    (runs line)
  /\ (line_width line == sumWidths (runs line))%Q
  /\ ((line_width line <= columnWidth)%Q \/ (length (runs line) <= 1)%nat).

(** A line with sound metrics: nothing negative, ascent plus descent
    within the height once it holds a run, no asset higher than the
    line. *)
Definition soundLine (line : LineBuffer) : Prop :=
  (0 <= line_height line)%Q
  /\ (0 <= line_ascent line)%Q
  /\ (0 <= line_descent line)%Q
  /\ (runs line <> [] -> (line_ascent line + line_descent line <= line_height line)%Q)
  /\ List.Forall
       (fun r => run_type r = RunAsset -> (run_height r <= line_height line)%Q)
       (runs line).

(** A placement inside the column it belongs to: it starts at or right
    of the column's left edge, and it ends at or left of the column's
    right edge unless it is a single character wider than the column,
    which then starts on the left edge. *)
Definition inColumn (safeRect : Rect) (columnWidth columnGap : Q)
    (p : Placement) : Prop :=
  let left := columnLeft safeRect columnWidth columnGap (p_column p) in
  (left <= p_x p)%Q
  /\ (0 <= p_width p)%Q
  /\ ((p_x p + p_width p <= left + columnWidth)%Q
      \/ ((p_x p == left)%Q /\ p_type p = RunText
          /\ (columnWidth < p_width p)%Q)).

(** A placement inside the height of the safe rectangle: its line starts
    at or below the top, and ends at most half a pixel below the bottom
    unless it is the first line of its column; the baseline lies inside
    the line, and the placement is not higher than its line. *)
Definition inHeight (safeRect : Rect) (p : Placement) : Prop :=
  (rect_y safeRect <= p_y p)%Q
  /\ ((p_y p + p_lineHeight p <= rect_y safeRect + rect_height safeRect + 0.5)%Q
      \/ (p_y p == rect_y safeRect)%Q)
  /\ (p_y p <= p_baseline p)%Q
  /\ (p_baseline p <= p_y p + p_lineHeight p)%Q
  /\ (p_height p <= p_lineHeight p)%Q.

(** Assets whose natural size is not negative. *)
Definition sizedAsset (asset : InlineAsset) : Prop :=
  (0 <= naturalWidth asset)%Q /\ (0 <= naturalHeight asset)%Q.

Definition sizedAssets (tokens : list LayoutToken) : Prop :=
  forall asset, In (TokAsset asset) tokens -> sizedAsset asset.

(** A provider that reports no negative width. *)
Definition positiveWidths (measureText : Font -> string -> TextMetrics) : Prop :=
  forall font char, (0 <= tm_width (measureText font char))%Q.

(** * Properties *)

(** ** The tokenizer *)

Lemma append_nil_r (s : string) : s +:+ "" = s.
Proof. induction s; rewrite ?append_nil_l, ?append_cons; congruence. Qed.

Lemma rendered_snoc l t : rendered (l ++ [t]) = rendered l +:+ render t.
Proof.
  unfold rendered. induction l as [|x l IH]; simpl.
  - rewrite append_nil_l, append_nil_r. reflexivity.
  - rewrite map_app in IH. simpl in IH. rewrite map_app. simpl.
    rewrite IH, append_assoc. reflexivity.
Qed.

Lemma substring_skip (a s : string) n :
  String.substring (String.length a) n (a +:+ s) = String.substring 0 n s.
Proof. induction a; rewrite ?append_nil_l, ?append_cons; simpl; auto. Qed.

Lemma substring_take (b c : string) :
  String.substring 0 (String.length b) (b +:+ c) = b.
Proof.
  induction b as [|x b IH]; rewrite ?append_nil_l, ?append_cons; simpl.
  - destruct c; reflexivity.
  - rewrite IH. reflexivity.
Qed.

Lemma slice_middle (a b c : string) :
  slice (a +:+ b +:+ c) (String.length a) (String.length a + String.length b) = b.
Proof.
  unfold slice.
  replace (String.length a + String.length b - String.length a)%nat
    with (String.length b) by lia.
  rewrite substring_skip. apply substring_take.
Qed.

Lemma slice_from_tail (a b : string) :
  slice_from (a +:+ b) (String.length a) = b.
Proof.
  unfold slice_from. rewrite length_append.
  replace (String.length a + String.length b - String.length a)%nat
    with (String.length b) by lia.
  rewrite substring_skip.
  rewrite <- (append_nil_r b) at 2. apply substring_take.
Qed.

Lemma truthy_length s : truthy s = Nat.ltb 0 (String.length s).
Proof. destruct s; reflexivity. Qed.

Lemma truthy_false s : truthy s = false -> s = "".
Proof. destruct s; [reflexivity|discriminate]. Qed.

(** Every asset stored in the map sits under its own id. *)
Lemma buildAssetMap_from assets (m0 : gmap string InlineAsset) i a :
  (forall j b, m0 !! j = Some b -> asset_id b = j /\ (In b assets \/ m0 !! j = Some b)) ->
  fold_left (fun m asset => <[asset_id asset := asset]> m) assets m0 !! i = Some a ->
  asset_id a = i.
Proof.
  revert m0. induction assets as [|x assets IH]; simpl; intros m0 Hm0 H.
  - apply Hm0 in H. tauto.
  - eapply (IH (<[asset_id x := x]> m0)); [|exact H].
    intros j b Hj. split; [|right; exact Hj].
    rewrite lookup_insert in Hj. destruct (decide (asset_id x = j)) as [E|E].
    + simpl in Hj. congruence.
    + simpl in Hj. apply Hm0 in Hj. tauto.
Qed.

Lemma buildAssetMap_id assets i a :
  buildAssetMap assets !! i = Some a -> asset_id a = i.
Proof.
  apply buildAssetMap_from. intros j b Hj. rewrite lookup_empty in Hj. discriminate.
Qed.

Lemma buildAssetMap_known_from assets (m0 : gmap string InlineAsset) i :
  (is_Some (m0 !! i) \/ exists a, In a assets /\ asset_id a = i) ->
  is_Some (fold_left (fun m asset => <[asset_id asset := asset]> m) assets m0 !! i).
Proof.
  revert m0. induction assets as [|x assets IH]; simpl; intros m0 H.
  - destruct H as [H|[a [[] _]]]. exact H.
  - apply IH. destruct (decide (asset_id x = i)) as [E|E].
    + left. rewrite <- E, lookup_insert_eq. eauto.
    + destruct H as [H|[a [[->|Ha] Hi]]].
      * left. rewrite lookup_insert_ne by exact E. exact H.
      * contradiction.
      * right. eauto.
Qed.

(** An id is absent from the map exactly when no asset carries it. *)
Lemma buildAssetMap_unknown assets i :
  (forall a, In a assets -> asset_id a <> i) <-> buildAssetMap assets !! i = None.
Proof.
  split.
  - intros H. destruct (buildAssetMap assets !! i) as [a|] eqn:E; [|reflexivity].
    exfalso. revert E. unfold buildAssetMap.
    assert (G : forall (m0 : gmap string InlineAsset),
               m0 !! i = None ->
               fold_left (fun m asset => <[asset_id asset := asset]> m) assets m0 !! i = None).
    { clear a. induction assets as [|x assets IH]; simpl; intros m0 H0; [exact H0|].
      apply IH.
      - intros a Ha. apply H. right. exact Ha.
      - rewrite lookup_insert_ne; [exact H0|]. apply H. left. reflexivity. }
    rewrite G; [discriminate|]. apply lookup_empty.
  - intros H a Ha Hi.
    destruct (buildAssetMap_known_from assets ∅ i) as [b Hb].
    + right. eauto.
    + unfold buildAssetMap in H. congruence.
Qed.

(** What one call of the callback does to the rendered text: the gap
    before the match and the match itself are appended unchanged. *)
Lemma on_match_rendered input assets results (pending i rest : string) offset :
  input = rendered results +:+ pending +:+ marker i +:+ rest ->
  offset = (String.length (rendered results) + String.length pending)%nat ->
  exists results',
    on_match input (buildAssetMap assets)
      (results, String.length (rendered results))
      {| m_match := marker i; m_assetId := i; m_offset := offset |}
    = (results', String.length (rendered results'))
    /\ rendered results' = rendered results +:+ pending +:+ marker i.
Proof.
  intros Hin Hoff. unfold on_match. cbn [m_offset m_assetId m_match].
  set (results1 :=
         if Nat.ltb (String.length (rendered results)) offset then
           let sl := slice input (String.length (rendered results)) offset in
           if truthy sl then results ++ [TokText sl] else results
         else results).
  assert (H1 : rendered results1 = rendered results +:+ pending).
  { unfold results1. rewrite Hoff, Hin, slice_middle.
    destruct pending as [|c p].
    - simpl String.length. rewrite Nat.add_0_r, Nat.ltb_irrefl, append_nil_r. reflexivity.
    - cbn [truthy].
      replace (Nat.ltb _ _) with true
        by (symmetry; apply Nat.ltb_lt; simpl String.length; lia).
      rewrite rendered_snoc. reflexivity. }
  destruct (buildAssetMap assets !! i) as [a|] eqn:E.
  - exists (results1 ++ [TokAsset a]).
    rewrite rendered_snoc, H1. cbn [render].
    rewrite (buildAssetMap_id _ _ _ E).
    rewrite append_assoc. split; [|reflexivity].
    f_equal. rewrite Hoff, !length_append. lia.
  - exists (results1 ++ [TokText (marker i)]).
    rewrite rendered_snoc, H1. cbn [render].
    rewrite append_assoc. split; [|reflexivity].
    f_equal. rewrite Hoff, !length_append. lia.
Qed.

Example tokenize_known :
  tokenizeText "abc[[asset:x1]]def" [asset_x1]
  = [TokText "abc"; TokAsset asset_x1; TokText "def"].
Proof. vm_compute. reflexivity. Qed.

Example tokenize_missing :
  tokenizeText "abc[[asset:missing]]def" [asset_x1]
  = [TokText "abc"; TokText "[[asset:missing]]"; TokText "def"].
Proof. vm_compute. reflexivity. Qed.

(** The state of the callback after all matches of [s], when the input
    is what was rendered so far, a gap not yet pushed, and [s]. *)
Lemma scan_rendered input assets s offset :
  forall results pending,
  input = rendered results +:+ pending +:+ s ->
  offset = (String.length (rendered results) + String.length pending)%nat ->
  exists results' pending',
    fold_left (on_match input (buildAssetMap assets)) (regex_matches s offset)
      (results, String.length (rendered results))
    = (results', String.length (rendered results'))
    /\ input = rendered results' +:+ pending'.
Proof.
  funelim (regex_matches s offset); intros results pending Hin Hoff.
  - clear H0 Heqcall. apply match_here_app in e. subst s.
    destruct (on_match_rendered input assets results pending i r offset Hin Hoff)
      as [results1 [Hstep Hr1]].
    cbn [fold_left]. rewrite Hstep.
    apply (H input assets results1 "").
    + rewrite Hr1, append_nil_l, !append_assoc. exact Hin.
    + rewrite Hr1, Hoff, !length_append. simpl String.length. lia.
  - exists results, pending. split; [reflexivity|].
    rewrite append_nil_r in Hin. exact Hin.
  - apply (H input assets results (pending +:+ String a "")).
    + rewrite append_assoc, append_cons, append_nil_l. exact Hin.
    + rewrite length_append. simpl String.length. lia.
Qed.

Lemma on_match_keeps input assetMap results lastIndex m t :
  In t results -> In t (fst (on_match input assetMap (results, lastIndex) m)).
Proof.
  intros Ht. unfold on_match.
  set (results1 := if Nat.ltb lastIndex (m_offset m) then _ else results).
  assert (H1 : In t results1).
  { unfold results1. destruct (Nat.ltb _ _); [|exact Ht].
    cbv zeta. destruct (truthy _); [|exact Ht]. apply in_or_app. left. exact Ht. }
  destruct (assetMap !! m_assetId m); cbn [fst]; apply in_or_app; left; exact H1.
Qed.

Lemma fold_on_match_keeps input assetMap ms st t :
  In t (fst st) -> In t (fst (fold_left (on_match input assetMap) ms st)).
Proof.
  revert st. induction ms as [|m ms IH]; intros [results lastIndex] Ht; [exact Ht|].
  cbn [fold_left]. apply IH.
  apply on_match_keeps. exact Ht.
Qed.

Lemma on_match_pushes input assetMap st m :
  In (marker_token assetMap m) (fst (on_match input assetMap st m)).
Proof.
  destruct st as [results lastIndex]. unfold on_match, marker_token.
  destruct (assetMap !! m_assetId m); cbn [fst]; apply in_or_app; right; left;
    reflexivity.
Qed.

Lemma fold_on_match_pushes input assetMap ms st m :
  In m ms ->
  In (marker_token assetMap m) (fst (fold_left (on_match input assetMap) ms st)).
Proof.
  revert st. induction ms as [|m' ms IH]; intros st []; cbn [fold_left].
  - subst m'. apply fold_on_match_keeps.
    destruct st. apply on_match_pushes.
  - apply IH. assumption.
Qed.

Lemma tokenizeText_keeps input assets t :
  In t (fst (fold_left (on_match input (buildAssetMap assets))
               (regex_matches input 0) ([], 0%nat))) ->
  In t (tokenizeText input assets).
Proof.
  unfold tokenizeText.
  destruct (fold_left _ _ _) as [results lastIndex]. cbn [fst]. intros Ht.
  destruct (truthy (slice_from input lastIndex)).
  - destruct (results ++ _) eqn:E.
    + destruct results; discriminate.
    + rewrite <- E. apply in_or_app. left. exact Ht.
  - destruct results; [destruct Ht | exact Ht].
Qed.

Lemma substring_all s : String.substring 0 (String.length s) s = s.
Proof.
  rewrite <- (append_nil_r s) at 2. apply substring_take.
Qed.

(** C3. Writing every token of [tokenizeText input assets] back ([Text]
    tokens as their content, [AssetRef] tokens as the marker of their
    asset) and concatenating gives [input] again; a marker found in the
    input whose id no asset carries appears as a literal [Text] token, a
    marker whose id is registered as an [AssetRef] token of an asset with
    that id; and an input without any marker (the empty one included)
    gives exactly the one token [Text input]. *)
Theorem tokenizeText_reconstructs (input : string) (assets : list InlineAsset) :
  rendered (tokenizeText input assets) = input
  /\ (forall m, In m (regex_matches input 0) ->
        (forall a, In a assets -> asset_id a <> m_assetId m) ->
        In (TokText (m_match m)) (tokenizeText input assets))
  /\ (forall m a, In m (regex_matches input 0) ->
        In a assets -> asset_id a = m_assetId m ->
        exists b, asset_id b = m_assetId m
                  /\ In (TokAsset b) (tokenizeText input assets))
  /\ (regex_matches input 0 = [] ->
        tokenizeText input assets = [TokText input])
  /\ tokenizeText "" assets = [TokText ""].
Proof.
  split; [|split; [|split; [|split]]].
  - destruct (scan_rendered input assets input 0 [] "") as [results [pending [Hf Hin]]];
      [reflexivity | reflexivity |].
    unfold tokenizeText. change (String.length (rendered [])) with 0%nat in Hf.
    rewrite Hf.
    assert (Htail : slice_from input (String.length (rendered results)) = pending)
      by (rewrite Hin; apply slice_from_tail).
    rewrite Htail. clear Htail.
    destruct (truthy pending) eqn:Ht.
    + destruct (results ++ [TokText pending]) eqn:E.
      * destruct results; discriminate.
      * rewrite <- E, rendered_snoc. symmetry. exact Hin.
    + apply truthy_false in Ht. subst pending. rewrite append_nil_r in Hin.
      destruct results; [|symmetry; exact Hin].
      rewrite Hin. reflexivity.
  - intros m Hm Hunknown. apply tokenizeText_keeps.
    apply buildAssetMap_unknown in Hunknown.
    pose proof (fold_on_match_pushes input (buildAssetMap assets) _ ([], 0%nat) m Hm) as H.
    unfold marker_token in H. rewrite Hunknown in H. exact H.
  - intros m a Hm Ha Hid.
    destruct (buildAssetMap_known_from assets ∅ (m_assetId m)) as [b Hb];
      [right; eauto|].
    exists b. split; [eapply buildAssetMap_id; exact Hb|].
    apply tokenizeText_keeps.
    pose proof (fold_on_match_pushes input (buildAssetMap assets) _ ([], 0%nat) m Hm) as H.
    unfold marker_token, buildAssetMap in H. rewrite Hb in H. exact H.
  - intros Hnone. unfold tokenizeText. rewrite Hnone. cbn [fold_left].
    unfold slice_from. rewrite Nat.sub_0_r, substring_all.
    destruct input; reflexivity.
  - reflexivity.
Qed.

Lemma tokenizeText_reconstructs_witness :
  rendered (tokenizeText "abc[[asset:missing]]def" [asset_x1])
    = "abc[[asset:missing]]def"
  /\ In (TokText "[[asset:missing]]")
        (tokenizeText "abc[[asset:missing]]def" [asset_x1])
  /\ tokenizeText "plain" [asset_x1] = [TokText "plain"].
Proof.
  pose proof (tokenizeText_reconstructs "abc[[asset:missing]]def" [asset_x1])
    as (H1 & H2 & _).
  pose proof (tokenizeText_reconstructs "plain" [asset_x1])
    as (_ & _ & _ & H4 & _).
  split; [exact H1|]. split.
  - apply (H2 {| m_match := "[[asset:missing]]"; m_assetId := "missing";
                 m_offset := 3 |}).
    + vm_compute. left. reflexivity.
    + intros a [<-|[]]. vm_compute. discriminate.
  - apply H4. vm_compute. reflexivity.
Defined.

(** ** The line packer *)

Lemma attempts_app e1 e2 : attempts (e1 ++ e2) = attempts e1 ++ attempts e2.
Proof.
  induction e1 as [|[c f|font ch] e1 IH]; simpl; [reflexivity| |exact IH].
  rewrite IH. reflexivity.
Qed.

Lemma measurements_app e1 e2 :
  measurements (e1 ++ e2) = (measurements e1 + measurements e2)%nat.
Proof.
  induction e1 as [|[c f|font ch] e1 IH]; simpl; [reflexivity|exact IH|].
  rewrite IH. reflexivity.
Qed.

Section PackerEvents.

Variable measureText : Font -> string -> TextMetrics.

(** The line packer only ever records provider calls. *)
Lemma pushTextSegment_attempts segment :
  forall line columnWidth ctx fontSize ratio lines,
    attempts (snd (pushTextSegment measureText segment line columnWidth ctx
                     fontSize ratio lines)) = [].
Proof.
  unfold pushTextSegment. generalize (Array_from segment) as chars.
  induction chars as [|char rest IH]; intros line columnWidth ctx fs ratio lines; cbn [pushChars]; [reflexivity|].
  destruct (wrapIfNeeded _ _ _ _ _ _) as [currentLine lines1].
  match goal with
  | |- context [pushChars measureText rest ?l ?w ?c ?f ?r ?ls] =>
      specialize (IH l w c f r ls);
      destruct (pushChars measureText rest l w c f r ls) as [[last lines2] events]
  end.
  exact IH.
Qed.

Lemma pushSegments_attempts segments :
  forall line columnWidth ctx fontSize ratio lines,
    attempts (snd (pushSegments measureText segments line columnWidth ctx
                     fontSize ratio lines)) = [].
Proof.
  induction segments as [|segment rest IH]; intros line columnWidth ctx fs ratio lines; cbn [pushSegments]; [reflexivity|].
  pose proof (pushTextSegment_attempts segment line columnWidth ctx fs ratio lines) as H1.
  destruct (truthy segment).
  - destruct (pushTextSegment _ _ _ _ _ _ _ _) as [[line1 lines1] ev1].
    destruct rest as [|s rest].
    + cbn [pushSegments snd]. rewrite app_nil_r. exact H1.
    + match goal with
      | |- context [pushSegments measureText ?ss ?l ?w ?c ?f ?r ?ls] =>
          specialize (IH l w c f r ls);
          destruct (pushSegments measureText ss l w c f r ls) as [[line3 lines3] ev3]
      end.
      cbn [snd] in *. rewrite attempts_app, H1, IH. reflexivity.
  - destruct rest as [|s rest].
    + reflexivity.
    + match goal with
      | |- context [pushSegments measureText ?ss ?l ?w ?c ?f ?r ?ls] =>
          specialize (IH l w c f r ls);
          destruct (pushSegments measureText ss l w c f r ls) as [[line3 lines3] ev3]
      end.
      cbn [snd] in *. exact IH.
Qed.

Lemma pushTokens_attempts tokens :
  forall line columnWidth ctx fontSize ratio lines,
    attempts (snd (pushTokens measureText tokens line columnWidth ctx
                     fontSize ratio lines)) = [].
Proof.
  induction tokens as [|token rest IH]; intros line columnWidth ctx fs ratio lines; cbn [pushTokens]; [reflexivity|].
  destruct token as [value|asset].
  - pose proof (pushSegments_attempts (split_newline value) line columnWidth
                  ctx fs ratio lines) as H1.
    destruct (pushSegments _ _ _ _ _ _ _ _) as [[line1 lines1] ev1].
    specialize (IH line1 columnWidth ctx fs ratio lines1).
    destruct (pushTokens _ _ _ _ _ _ _ _) as [[line2 lines2] ev2].
    cbn [snd] in *. rewrite attempts_app, H1, IH. reflexivity.
  - destruct (pushAssetToken _ _ _ _ _ _) as [l ls].
    specialize (IH l columnWidth ctx fs ratio ls).
    destruct (pushTokens _ _ _ _ _ _ _ _) as [[line2 lines2] ev2].
    cbn [snd] in *. exact IH.
Qed.

Lemma layoutWithConfig_attempts tokens safeRect params :
  attempts (snd (layoutWithConfig measureText tokens safeRect params)) = [].
Proof.
  unfold layoutWithConfig.
  destruct (Qleb _ 20); [reflexivity|].
  match goal with
  | |- context [pushTokens measureText ?t ?l ?w ?c ?f ?r ?ls] =>
      pose proof (pushTokens_attempts t l w c f r ls) as H;
      destruct (pushTokens measureText t l w c f r ls) as [[line lines] events]
  end.
  exact H.
Qed.

End PackerEvents.

(** A failed run of the column packer reports the overflow, a successful
    one reports nothing. *)
Lemma placeLines_warnings lines :
  forall safeRect cols columnWidth columnGap placed heights columnIndex cursorY,
    att_warnings (placeLines lines safeRect cols columnWidth columnGap placed
                    heights columnIndex cursorY)
    = if att_success (placeLines lines safeRect cols columnWidth columnGap placed
                        heights columnIndex cursorY)
      then [] else [WARN_OVERFLOW].
Proof.
  induction lines as [|line rest IH];
    intros safeRect cols columnWidth columnGap placed heights columnIndex cursorY;
    cbn [placeLines]; [reflexivity|].
  destruct (Qgtb _ _).
  - destruct (Nat.leb cols (S columnIndex)); [reflexivity|]. apply IH.
  - apply IH.
Qed.

Section PackerWarnings.

Variable measureText : Font -> string -> TextMetrics.

(** Every failed attempt carries exactly one warning, which tells a
    column that is too narrow from an overflow. *)
Lemma layoutWithConfig_warnings tokens safeRect f c config ctx :
  let attempt :=
    fst (layoutWithConfig measureText tokens safeRect
           {| par_fontSize := f; par_columns := c; par_config := config;
              par_measureContext := ctx |}) in
  att_warnings attempt
  = if att_success attempt then []
    else [if Qleb (columnWidthOf safeRect config c) 20
          then WARN_TOO_NARROW else WARN_OVERFLOW].
Proof.
  unfold layoutWithConfig, columnWidthOf.
  cbn [par_fontSize par_columns par_config par_measureContext].
  destruct (Qleb _ 20); [reflexivity|].
  destruct (pushTokens _ _ _ _ _ _ _ _) as [[line lines] events].
  cbn [fst]. apply placeLines_warnings.
Qed.

(** A column of at most 20 px fails at once: no line is packed and the
    provider is not called. *)
Lemma layoutWithConfig_narrow tokens safeRect f c config ctx :
  (columnWidthOf safeRect config c <= 20)%Q ->
  layoutWithConfig measureText tokens safeRect
    {| par_fontSize := f; par_columns := c; par_config := config;
       par_measureContext := ctx |}
  = ({| att_success := false;
        att_placements := [];
        att_overflow := true;
        att_warnings := [WARN_TOO_NARROW];
        att_columnHeights := replicate c 0%Q |}, []).
Proof.
  intros H. apply Qleb_le in H. unfold layoutWithConfig, columnWidthOf in *.
  cbn [par_fontSize par_columns par_config par_measureContext].
  rewrite H. reflexivity.
Qed.

End PackerWarnings.

(** ** Column heights *)

Lemma array_set_Forall (P : Q -> Prop) i v a :
  P 0%Q -> P v -> Forall P a -> Forall P (array_set i v a).
Proof.
  intros H0 Hv Ha. unfold array_set. destruct (Nat.ltb i (length a)).
  - apply Forall_insert; assumption.
  - apply Forall_app. split; [exact Ha|]. apply Forall_app. split.
    + apply Forall_replicate. exact H0.
    + constructor; [exact Hv|constructor].
Qed.

(** What the column packer guarantees of the heights it reports: the
    overflow test keeps every column within the limit, except that the
    line which opens a fresh column is placed without a second test. *)
Lemma placeLines_heights safeRect all lines :
  forall cols columnWidth columnGap placed heights columnIndex cursorY,
    incl lines all ->
    (0 <= rect_height safeRect + 0.5)%Q ->
    Forall (heightAllowed safeRect all) heights ->
    heightAllowed safeRect all cursorY ->
    Forall (heightAllowed safeRect all)
      (att_columnHeights
         (placeLines lines safeRect cols columnWidth columnGap placed heights
            columnIndex cursorY)).
Proof.
  induction lines as [|line rest IH];
    intros cols columnWidth columnGap placed heights columnIndex cursorY
      Hincl H0 Hheights Hcursor; cbn [placeLines].
  - cbn [att_columnHeights]. apply array_set_Forall; [left; exact H0| |]; assumption.
  - assert (Hrest : incl rest all) by (intros x Hx; apply Hincl; right; exact Hx).
    assert (Hline : In line all) by (apply Hincl; left; reflexivity).
    destruct (Qgtb _ _) eqn:E.
    + assert (Hset : Forall (heightAllowed safeRect all)
                       (array_set columnIndex cursorY heights))
        by (apply array_set_Forall; [left; exact H0| |]; assumption).
      destruct (Nat.leb cols (S columnIndex)); [exact Hset|].
      apply IH; try assumption.
      destruct (Qlt_le_dec (rect_height safeRect + 0.5) (line_height line)) as [Hbig|Hok].
      * right. exists line. repeat split; assumption.
      * left. lra.
    + apply IH; try assumption. left.
      unfold Qgtb in E. apply Qltb_ge in E. exact E.
Qed.

(** With a single column nothing is ever placed past an overflow, so a
    successful attempt keeps its one column within the limit. *)
Lemma placeLines_single_column safeRect lines :
  forall columnWidth columnGap placed heights cursorY,
    (cursorY <= rect_height safeRect + 0.5)%Q ->
    att_success (placeLines lines safeRect 1 columnWidth columnGap placed heights
                   0 cursorY) = true ->
    att_columnHeights (placeLines lines safeRect 1 columnWidth columnGap placed
                         heights 0 cursorY)
    = array_set 0 (fold_left (fun y line => y + line_height line)%Q lines cursorY)
        heights
    /\ (fold_left (fun y line => y + line_height line)%Q lines cursorY
        <= rect_height safeRect + 0.5)%Q.
Proof.
  induction lines as [|line rest IH];
    intros columnWidth columnGap placed heights cursorY Hc; cbn [placeLines fold_left].
  - intros _. split; [reflexivity|exact Hc].
  - destruct (Qgtb _ _) eqn:E.
    + cbn [Nat.leb]. discriminate.
    + apply IH. unfold Qgtb in E. apply Qltb_ge in E. exact E.
Qed.

Section SingleColumn.

Variable measureText : Font -> string -> TextMetrics.

Lemma layoutWithConfig_single_column tokens safeRect f config ctx :
  (0 <= rect_height safeRect + 0.5)%Q ->
  att_success
    (fst (layoutWithConfig measureText tokens safeRect
            {| par_fontSize := f; par_columns := 1; par_config := config;
               par_measureContext := ctx |})) = true ->
  Forall (fun h => (h <= rect_height safeRect + 0.5)%Q)
    (att_columnHeights
       (fst (layoutWithConfig measureText tokens safeRect
               {| par_fontSize := f; par_columns := 1; par_config := config;
                  par_measureContext := ctx |}))).
Proof.
  intros H0. unfold layoutWithConfig.
  cbn [par_fontSize par_columns par_config par_measureContext].
  destruct (Qleb _ 20); [discriminate|].
  destruct (pushTokens _ _ _ _ _ _ _ _) as [[line lines] events]. cbn [fst].
  intros Hs.
  destruct (placeLines_single_column safeRect _ _ _ _ _ _ H0 Hs) as [-> Hle].
  constructor; [exact Hle|constructor].
Qed.

End SingleColumn.

(** ** Line metrics *)

(** Replace every [Qmax a b] by a fresh number together with what
    [Q.max_spec] says of it; linear arithmetic finishes. *)
Ltac qmax_name a b :=
  let m := fresh "m" in
  pose proof (Q.max_spec a b);
  set (m := Qmax a b) in *;
  clearbody m.

Ltac qmax_cases :=
  repeat match goal with
    | |- context [Qmax ?a ?b] => qmax_name a b
    | H : context [Qmax ?a ?b] |- _ => qmax_name a b
    end.

Ltac qmin_name a b :=
  let m := fresh "m" in
  pose proof (Q.min_spec a b);
  set (m := Qmin a b) in *;
  clearbody m.

(** Name every [Qmax] and [Qmin] with its specification. *)
Ltac qminmax :=
  repeat match goal with
    | |- context [Qmax ?a ?b] => qmax_name a b
    | H : context [Qmax ?a ?b] |- _ => qmax_name a b
    | |- context [Qmin ?a ?b] => qmin_name a b
    | H : context [Qmin ?a ?b] |- _ => qmin_name a b
    end.

Lemma maxFrom_snoc init l x : maxFrom init (l ++ [x]) = Qmax (maxFrom init l) x.
Proof. unfold maxFrom. rewrite fold_left_app. reflexivity. Qed.

Lemma num_or_missing a b : missing a -> num_or a b = b.
Proof.
  destruct a as [v|]; cbn; [|reflexivity].
  intros H. apply Qeq_bool_iff in H. rewrite H. reflexivity.
Qed.

Lemma textAscent_default metrics fontSize :
  missing (actualBoundingBoxAscent metrics) ->
  missing (fontBoundingBoxAscent metrics) ->
  textAscent metrics fontSize = (fontSize * 0.82)%Q.
Proof.
  intros H1 H2. unfold textAscent. rewrite (num_or_missing _ _ H1).
  apply num_or_missing. exact H2.
Qed.

Lemma textDescent_default metrics fontSize :
  missing (actualBoundingBoxDescent metrics) ->
  missing (fontBoundingBoxDescent metrics) ->
  textDescent metrics fontSize = (fontSize * 0.18)%Q.
Proof.
  intros H1 H2. unfold textDescent. rewrite (num_or_missing _ _ H1).
  apply num_or_missing. exact H2.
Qed.

(** Adding a run never lowers a metric of the line. *)
Lemma appendTextRun_monotone line run :
  (line_ascent line <= line_ascent (appendTextRun line run))%Q
  /\ (line_descent line <= line_descent (appendTextRun line run))%Q
  /\ (line_height line <= line_height (appendTextRun line run))%Q.
Proof. cbn. repeat split; apply Q.le_max_l. Qed.

Lemma appendAssetRun_monotone line run :
  (line_ascent line <= line_ascent (appendAssetRun line run))%Q
  /\ (line_descent line <= line_descent (appendAssetRun line run))%Q
  /\ (line_height line <= line_height (appendAssetRun line run))%Q.
Proof.
  cbn. repeat split; try apply Q.le_max_l.
  eapply Qle_trans; [|apply Q.le_max_l]. apply Q.le_max_l.
Qed.

Section BuiltLines.

Variables fontSize lineHeightRatio : Q.

Local Abbreviation built := (builtLine fontSize lineHeightRatio).

Lemma built_ascent line :
  built line ->
  line_ascent line = maxFrom (fontSize * 0.8)%Q (map run_ascent (runs line)).
Proof.
  induction 1 as [|line char metrics Hb IH|line run Hb IH Ha Hd]; [reflexivity| |].
  - cbn [appendTextRun runs line_ascent]. rewrite map_app. cbn [map].
    rewrite maxFrom_snoc, <- IH. reflexivity.
  - cbn [appendAssetRun runs line_ascent]. rewrite map_app. cbn [map].
    rewrite maxFrom_snoc, <- IH, Ha. reflexivity.
Qed.

Lemma built_descent line :
  built line ->
  line_descent line = maxFrom (fontSize * 0.2)%Q (map run_descent (runs line)).
Proof.
  induction 1 as [|line char metrics Hb IH|line run Hb IH Ha Hd]; [reflexivity| |].
  - cbn [appendTextRun runs line_descent]. rewrite map_app. cbn [map].
    rewrite maxFrom_snoc, <- IH. reflexivity.
  - cbn [appendAssetRun runs line_descent]. rewrite map_app. cbn [map].
    rewrite maxFrom_snoc, <- IH, Hd. reflexivity.
Qed.

Lemma built_empty line :
  built line -> runs line = [] -> line = createLineBuffer fontSize lineHeightRatio.
Proof.
  destruct 1 as [|line char metrics Hb|line run Hb Ha Hd]; [reflexivity| |];
    cbn [appendTextRun appendAssetRun runs]; intros H;
    destruct (runs line); discriminate.
Qed.

(** The height of a built line: the base height while it is empty, and
    the larger of the base height and ascent plus descent once it holds
    a run. *)
Lemma built_height line :
  built line ->
  (runs line = [] /\ line_height line = (fontSize * lineHeightRatio)%Q)
  \/ (runs line <> []
      /\ (line_height line
          == Qmax (fontSize * lineHeightRatio)
               (line_ascent line + line_descent line))%Q).
Proof.
  induction 1 as [|line char metrics Hb IH|line run Hb IH Ha Hd].
  - left. split; reflexivity.
  - right. split; [cbn; destruct (runs line); discriminate|].
    cbn [appendTextRun line_height line_ascent line_descent].
    destruct IH as [[_ IH]|[_ IH]].
    + rewrite IH. reflexivity.
    + rewrite IH. clear IH. qmax_cases; lra.
  - right. split; [cbn; destruct (runs line); discriminate|].
    cbn [appendAssetRun line_height line_ascent line_descent].
    destruct IH as [[_ IH]|[_ IH]].
    + rewrite IH. clear IH. qmax_cases; lra.
    + rewrite IH. clear IH. qmax_cases; lra.
Qed.

End BuiltLines.

Section PackerBuildsLines.

Variable measureText : Font -> string -> TextMetrics.
Variables fontSize lineHeightRatio : Q.

Local Abbreviation built := (builtLine fontSize lineHeightRatio).

Lemma wrapIfNeeded_built line width columnWidth lines :
  built line -> Forall built lines ->
  built (fst (wrapIfNeeded line width columnWidth fontSize lineHeightRatio lines))
  /\ Forall built
       (snd (wrapIfNeeded line width columnWidth fontSize lineHeightRatio lines)).
Proof.
  intros Hl Hls. unfold wrapIfNeeded. destruct (_ && _); cbn [fst snd].
  - split; [constructor|]. apply Forall_app. split; [exact Hls|].
    constructor; [exact Hl|constructor].
  - split; assumption.
Qed.

Lemma pushTextSegment_built segment :
  forall line columnWidth ctx lines,
    built line -> Forall built lines ->
    built (fst (fst (pushTextSegment measureText segment line columnWidth ctx
                       fontSize lineHeightRatio lines)))
    /\ Forall built
         (snd (fst (pushTextSegment measureText segment line columnWidth ctx
                      fontSize lineHeightRatio lines))).
Proof.
  unfold pushTextSegment. generalize (Array_from segment) as chars.
  induction chars as [|char rest IH]; intros line columnWidth ctx lines Hl Hls;
    cbn [pushChars]; [split; assumption|].
  destruct (wrapIfNeeded_built line (tm_width (measureText (ctx_font ctx) char))
              columnWidth lines Hl Hls) as [Hl1 Hls1].
  destruct (wrapIfNeeded _ _ _ _ _ _) as [currentLine lines1]. cbn [fst snd] in *.
  match goal with
  | |- context [pushChars measureText rest ?l ?w ?c ?f ?r ?ls] =>
      specialize (IH l w c ls);
      destruct (pushChars measureText rest l w c f r ls) as [[last lines2] events]
  end.
  cbn [fst snd] in *. apply IH; [|exact Hls1].
  apply built_text. exact Hl1.
Qed.

Lemma pushAssetToken_built asset line columnWidth lines :
  built line -> Forall built lines ->
  built (fst (pushAssetToken asset line columnWidth fontSize lineHeightRatio lines))
  /\ Forall built
       (snd (pushAssetToken asset line columnWidth fontSize lineHeightRatio lines)).
Proof.
  intros Hl Hls. unfold pushAssetToken.
  destruct (assetSize asset columnWidth fontSize) as [width height].
  destruct (wrapIfNeeded_built line width columnWidth lines Hl Hls) as [Hl1 Hls1].
  destruct (wrapIfNeeded _ _ _ _ _ _) as [currentLine lines1]. cbn [fst snd] in *.
  split; [|exact Hls1].
  apply built_asset; [exact Hl1|reflexivity|reflexivity].
Qed.

Lemma pushSegments_built segments :
  forall line columnWidth ctx lines,
    built line -> Forall built lines ->
    built (fst (fst (pushSegments measureText segments line columnWidth ctx
                       fontSize lineHeightRatio lines)))
    /\ Forall built
         (snd (fst (pushSegments measureText segments line columnWidth ctx
                      fontSize lineHeightRatio lines))).
Proof.
  induction segments as [|segment rest IH]; intros line columnWidth ctx lines Hl Hls;
    cbn [pushSegments]; [split; assumption|].
  assert (H1 : built (fst (fst (if truthy segment
                then pushTextSegment measureText segment line columnWidth ctx
                       fontSize lineHeightRatio lines
                else (line, lines, []))))
               /\ Forall built (snd (fst (if truthy segment
                then pushTextSegment measureText segment line columnWidth ctx
                       fontSize lineHeightRatio lines
                else (line, lines, []))))).
  { destruct (truthy segment); [|split; assumption].
    apply pushTextSegment_built; assumption. }
  destruct (if truthy segment then _ else _) as [[line1 lines1] ev1].
  cbn [fst snd] in H1. destruct H1 as [Hl1 Hls1].
  destruct rest as [|s rest].
  - cbn [pushSegments fst snd]. split; assumption.
  - match goal with
    | |- context [pushSegments measureText ?ss ?l ?w ?c ?f ?r ?ls] =>
        specialize (IH l w c ls);
        destruct (pushSegments measureText ss l w c f r ls) as [[line3 lines3] ev3]
    end.
    cbn [fst snd] in *. apply IH; [constructor|].
    apply Forall_app. split; [exact Hls1|]. constructor; [exact Hl1|constructor].
Qed.

Lemma pushTokens_built tokens :
  forall line columnWidth ctx lines,
    built line -> Forall built lines ->
    built (fst (fst (pushTokens measureText tokens line columnWidth ctx
                       fontSize lineHeightRatio lines)))
    /\ Forall built
         (snd (fst (pushTokens measureText tokens line columnWidth ctx
                      fontSize lineHeightRatio lines))).
Proof.
  induction tokens as [|token rest IH]; intros line columnWidth ctx lines Hl Hls;
    cbn [pushTokens]; [split; assumption|].
  destruct token as [value|asset].
  - destruct (pushSegments_built (split_newline value) line columnWidth ctx lines
                Hl Hls) as [Hl1 Hls1].
    destruct (pushSegments _ _ _ _ _ _ _ _) as [[line1 lines1] ev1].
    cbn [fst snd] in *.
    specialize (IH line1 columnWidth ctx lines1 Hl1 Hls1).
    destruct (pushTokens _ _ _ _ _ _ _ _) as [[line2 lines2] ev2].
    exact IH.
  - destruct (pushAssetToken_built asset line columnWidth lines Hl Hls)
      as [Hl1 Hls1].
    destruct (pushAssetToken _ _ _ _ _ _) as [l ls]. cbn [fst snd] in *.
    specialize (IH l columnWidth ctx ls Hl1 Hls1).
    destruct (pushTokens _ _ _ _ _ _ _ _) as [[line2 lines2] ev2].
    exact IH.
Qed.

End PackerBuildsLines.

(** C6, as the code has it. A text run whose measurement supplies no
    ascent or descent gets the ascent fontSize x 0.82 and the descent
    fontSize x 0.18; a fresh line buffer starts at the ascent
    fontSize x 0.8, the descent fontSize x 0.2 and the height
    fontSize x lineHeightRatio.  Every line the packer builds has as
    ascent (descent) the largest of that start value and the ascents
    (descents) of its runs; once it holds a run its height is
    max(fontSize x lineHeightRatio, ascent + descent), while empty it is
    fontSize x lineHeightRatio; and adding a run lowers none of the
    three. *)
Theorem line_metrics (measureText : Font -> string -> TextMetrics)
    (fontSize lineHeightRatio : Q) :
  (forall metrics char line,
     missing (actualBoundingBoxAscent metrics) ->
     missing (fontBoundingBoxAscent metrics) ->
     missing (actualBoundingBoxDescent metrics) ->
     missing (fontBoundingBoxDescent metrics) ->
     run_ascent (textRun char metrics fontSize line) = (fontSize * 0.82)%Q
     /\ run_descent (textRun char metrics fontSize line) = (fontSize * 0.18)%Q)
  /\ createLineBuffer fontSize lineHeightRatio
     = {| runs := [];
          line_width := 0;
          line_ascent := (fontSize * 0.8)%Q;
          line_descent := (fontSize * 0.2)%Q;
          line_height := (fontSize * lineHeightRatio)%Q |}
  /\ (forall tokens columnWidth ctx,
        let packed :=
          pushTokens measureText tokens
            (createLineBuffer fontSize lineHeightRatio) columnWidth ctx
            fontSize lineHeightRatio [] in
        Forall (builtLine fontSize lineHeightRatio)
          (snd (fst packed) ++ [fst (fst packed)]))
  /\ (forall line,
        builtLine fontSize lineHeightRatio line ->
        line_ascent line = maxFrom (fontSize * 0.8)%Q (map run_ascent (runs line))
        /\ line_descent line
           = maxFrom (fontSize * 0.2)%Q (map run_descent (runs line))
        /\ (runs line = [] ->
              line_height line = (fontSize * lineHeightRatio)%Q)
        /\ (runs line <> [] ->
              (line_height line
               == Qmax (fontSize * lineHeightRatio)
                    (line_ascent line + line_descent line))%Q))
  /\ (forall line run,
        (line_ascent line <= line_ascent (appendTextRun line run))%Q
        /\ (line_descent line <= line_descent (appendTextRun line run))%Q
        /\ (line_height line <= line_height (appendTextRun line run))%Q
        /\ (line_ascent line <= line_ascent (appendAssetRun line run))%Q
        /\ (line_descent line <= line_descent (appendAssetRun line run))%Q
        /\ (line_height line <= line_height (appendAssetRun line run))%Q).
Proof.
  split.
  { intros metrics char line Ha1 Ha2 Hd1 Hd2. cbn [textRun run_ascent run_descent].
    split; [apply textAscent_default|apply textDescent_default]; assumption. }
  split; [reflexivity|].
  split.
  { intros tokens columnWidth ctx packed.
    destruct (pushTokens_built measureText fontSize lineHeightRatio tokens
                (createLineBuffer fontSize lineHeightRatio) columnWidth ctx [])
      as [Hl Hls]; [constructor|constructor|].
    apply Forall_app. split; [exact Hls|]. constructor; [exact Hl|constructor]. }
  split.
  { intros line Hb.
    split; [apply (built_ascent _ _ _ Hb)|].
    split; [apply (built_descent _ _ _ Hb)|].
    destruct (built_height _ _ _ Hb) as [[He Hh]|[Hne Hh]].
    - split; [intros _; exact Hh|]. intros H. contradiction.
    - split; [|intros _; exact Hh]. intros H. contradiction. }
  intros line run.
  destruct (appendTextRun_monotone line run) as (H1 & H2 & H3).
  destruct (appendAssetRun_monotone line run) as (H4 & H5 & H6).
  repeat split; assumption.
Qed.

(** C6, as stated, fails in three places.  At font size 100 a glyph
    without metrics gets the ascent 82 and the descent 18, not 80 and 20;
    a glyph of ascent 5 and descent 1 leaves the ascent of its line at
    80, which is not the largest ascent of its runs; and at a line height
    ratio of 0.5 the empty line is 50 px high, not max(50, 80 + 20). *)
Lemma line_metrics_defaults_differ :
  (exists run,
     runs (oneCharLine (plainMetrics 10) 100 1.2) = [run]
     /\ (run_ascent run == 82)%Q /\ ~ (run_ascent run == 100 * 0.8)%Q
     /\ (run_descent run == 18)%Q /\ ~ (run_descent run == 100 * 0.2)%Q)
  /\ (exists run,
        runs (oneCharLine (glyphMetrics 10 5 1) 100 1.2) = [run]
        /\ (run_ascent run == 5)%Q
        /\ (line_ascent (oneCharLine (glyphMetrics 10 5 1) 100 1.2) == 80)%Q)
  /\ (line_height (createLineBuffer 100 0.5) == 50)%Q
  /\ ~ (line_height (createLineBuffer 100 0.5)
        == Qmax (100 * 0.5)
             (line_ascent (createLineBuffer 100 0.5)
              + line_descent (createLineBuffer 100 0.5)))%Q.
Proof.
  split.
  { eexists. split; [vm_compute; reflexivity|]. cbn.
    repeat split; try reflexivity; intros H; discriminate H. }
  split.
  { eexists. split; [vm_compute; reflexivity|]. split; reflexivity. }
  split; [reflexivity|]. intros H. vm_compute in H. discriminate H.
Qed.

Lemma line_metrics_witness :
  run_ascent (textRun "a" (plainMetrics 10 {| font_px := 100; font_family := "serif" |} "a")
                100 (createLineBuffer 100 1.2))
  = (100 * 0.82)%Q
  /\ (line_height (oneCharLine (plainMetrics 10) 100 1.2)
      == Qmax (100 * 1.2)
           (line_ascent (oneCharLine (plainMetrics 10) 100 1.2)
            + line_descent (oneCharLine (plainMetrics 10) 100 1.2)))%Q.
Proof.
  destruct (line_metrics (plainMetrics 10) 100 1.2) as (Hrun & _ & _ & Hline & _).
  split.
  - apply Hrun; exact I.
  - apply Hline.
    + unfold oneCharLine. cbn [pushTextSegment]. unfold wrapIfNeeded. cbn.
      apply built_text. constructor.
    + vm_compute. discriminate.
Defined.

(** ** The layout search *)

Lemma fontSizes_step minFontSize fontSize :
  fontSizes minFontSize fontSize =
  if Qgeb fontSize minFontSize
  then fontSize :: fontSizes minFontSize (fontSize - 2)%Q
  else [].
Proof.
  funelim (fontSizes minFontSize fontSize); clear Heqcall;
    match goal with H : Qgeb _ _ = _ |- _ => rewrite H end; reflexivity.
Qed.

(** Induction along the font size loop: a property holds of every start
    value if it holds below the minimum and is passed up by one step. *)
Lemma font_loop_ind (minFontSize : Q) (P : Q -> Prop) :
  (forall f, Qgeb f minFontSize = false -> P f) ->
  (forall f, Qgeb f minFontSize = true -> P (f - 2)%Q -> P f) ->
  forall f, P f.
Proof.
  intros Hstop Hstep f.
  remember (font_measure minFontSize f) as n eqn:Hn.
  revert f Hn. induction n as [n IH] using lt_wf_ind. intros f Hn.
  destruct (Qgeb f minFontSize) eqn:E.
  - apply Hstep; [exact E|].
    apply (IH (font_measure minFontSize (f - 2))); [|reflexivity].
    subst n. apply font_measure_decr. exact E.
  - apply Hstop. exact E.
Qed.

Lemma fontSizes_bounds minFontSize fontSize f :
  In f (fontSizes minFontSize fontSize) ->
  (minFontSize <= f)%Q /\ (f <= fontSize)%Q
  /\ exists k : nat, (f == fontSize - 2 * Qnat k)%Q.
Proof.
  revert f. pattern fontSize. apply (font_loop_ind minFontSize); clear fontSize.
  - intros fs E f. rewrite fontSizes_step, E. intros [].
  - intros fs E IH f. rewrite fontSizes_step, E. intros [<-|Hin].
    + split; [apply Qleb_le; exact E|]. split; [apply Qle_refl|].
      exists 0%nat. unfold Qnat. simpl. ring.
    + destruct (IH f Hin) as (Hmin & Hle & k & Hk).
      split; [exact Hmin|]. split.
      * apply Qle_trans with (fs - 2)%Q; [exact Hle|].
        apply Qle_minus_iff. ring_simplify. discriminate.
      * exists (S k). rewrite Hk. unfold Qnat.
        rewrite Nat2Z.inj_succ, <- Z.add_1_r, inject_Z_plus. ring.
Qed.

(** The loop values strictly decrease. *)
Lemma fontSizes_decreasing minFontSize fontSize l1 x l2 :
  fontSizes minFontSize fontSize = l1 ++ x :: l2 ->
  forall y, In y l2 -> (y < x)%Q.
Proof.
  revert fontSize. induction l1 as [|a l1 IH]; intros fs; rewrite fontSizes_step;
    destruct (Qgeb fs minFontSize); try discriminate.
  - intros [= <- <-] y Hy. apply fontSizes_bounds in Hy.
    destruct Hy as (_ & Hle & _).
    apply Qle_lt_trans with (fs - 2)%Q; [exact Hle|].
    apply Qlt_minus_iff. ring_simplify. reflexivity.
  - intros [= _ H]. exact (IH _ H).
Qed.


Section SearchProofs.

Variable measureText : Font -> string -> TextMetrics.
Variable tokens : list LayoutToken.
Variable safeRect : Rect.
Variable config : LayoutConfig.

Local Abbreviation tryAt := (attemptAt measureText tokens safeRect config).
Local Abbreviation feas := (feasible measureText tokens safeRect config).
Local Abbreviation evOf := (eventsOf measureText tokens safeRect config).
Local Abbreviation warnOf := (warningsOf measureText tokens safeRect config).
Local Abbreviation sizesFrom := (fontSizes (cfg_minFontSize config)).
Local Abbreviation fontLoop :=
  (fontSizeLoop measureText tokens safeRect config).

Lemma eventsOf_app t1 t2 : evOf (t1 ++ t2) = evOf t1 ++ evOf t2.
Proof. apply flat_map_app. Qed.

Lemma warningsOf_app t1 t2 : warnOf (t1 ++ t2) = warnOf t1 ++ warnOf t2.
Proof. apply flat_map_app. Qed.

Lemma eventsOf_cons c f tried :
  evOf ((c, f) :: tried) = EvAttempt c f :: snd (tryAt c f) ++ evOf tried.
Proof. reflexivity. Qed.

Lemma warningsOf_cons c f tried :
  warnOf ((c, f) :: tried) = att_warnings (fst (tryAt c f)) ++ warnOf tried.
Proof. reflexivity. Qed.

Lemma attempts_eventsOf tried : attempts (evOf tried) = tried.
Proof.
  induction tried as [|[c f] tried IH]; [reflexivity|].
  rewrite eventsOf_cons. cbn [attempts]. rewrite attempts_app, IH.
  unfold attemptAt. rewrite layoutWithConfig_attempts. reflexivity.
Qed.

(** One turn of the font size loop, as the source writes it. *)
Lemma fontSizeLoop_body c ctx f w :
  fontLoop c ctx f w =
  if Qgeb f (cfg_minFontSize config) then
    let '(attempt, events) :=
      layoutWithConfig measureText tokens safeRect
        {| par_fontSize := f; par_columns := c; par_config := config;
           par_measureContext := set_font ctx f (cfg_fontFamily config) |} in
    if att_success attempt then
      ({| fs_success := true;
          fs_placements := att_placements attempt;
          fs_fontSize := f;
          fs_warnings := w ++ att_warnings attempt;
          fs_columnHeights := att_columnHeights attempt |},
       EvAttempt c f :: events)
    else
      let '(result, events1) :=
        fontLoop c (set_font ctx f (cfg_fontFamily config))
          (f - 2)%Q (w ++ att_warnings attempt) in
      (result, EvAttempt c f :: events ++ events1)
  else
    ({| fs_success := false;
        fs_placements := [];
        fs_fontSize := cfg_minFontSize config;
        fs_warnings := w;
        fs_columnHeights := [] |}, []).
Proof.
  funelim (fontSizeLoop measureText tokens safeRect config c ctx f w);
    clear Heqcall;
    repeat match goal with
      | H : Qgeb _ _ = _ |- _ => rewrite H
      | H : layoutWithConfig _ _ _ _ = _ |- _ => rewrite H
      | H : att_success _ = _ |- _ => rewrite H
      | H : fontSizeLoop _ _ _ _ _ _ _ _ = (_, _) |- _ => rewrite H
      end; reflexivity.
Qed.

(** The same turn in terms of [attemptAt]; the font assigned to the
    context is the only thing the attempt reads of it. *)
Lemma fontSizeLoop_step c ctx f w :
  fontLoop c ctx f w =
  if Qgeb f (cfg_minFontSize config) then
    if feas c f then
      ({| fs_success := true;
          fs_placements := att_placements (fst (tryAt c f));
          fs_fontSize := f;
          fs_warnings := w ++ att_warnings (fst (tryAt c f));
          fs_columnHeights := att_columnHeights (fst (tryAt c f)) |},
       EvAttempt c f :: snd (tryAt c f))
    else
      (fst (fontLoop c (createMeasureContext (cfg_fontFamily config) f)
              (f - 2)%Q (w ++ att_warnings (fst (tryAt c f)))),
       EvAttempt c f :: snd (tryAt c f)
         ++ snd (fontLoop c (createMeasureContext (cfg_fontFamily config) f)
                   (f - 2)%Q (w ++ att_warnings (fst (tryAt c f)))))
  else
    ({| fs_success := false;
        fs_placements := [];
        fs_fontSize := cfg_minFontSize config;
        fs_warnings := w;
        fs_columnHeights := [] |}, []).
Proof.
  rewrite fontSizeLoop_body. unfold feasible, attemptAt.
  change (set_font ctx f (cfg_fontFamily config))
    with (createMeasureContext (cfg_fontFamily config) f).
  destruct (Qgeb f (cfg_minFontSize config)); [|reflexivity].
  destruct (layoutWithConfig _ _ _ _) as [attempt events]. cbn [fst snd].
  destruct (att_success attempt); [reflexivity|].
  destruct (fontSizeLoop _ _ _ _ _ _ _ _) as [result events1]. reflexivity.
Qed.

(** What the font size loop for [c] columns computes: it runs through a
    front part [tried] of the loop values, stops at the first value at
    which the packer succeeds, and otherwise exhausts them. *)
Lemma fontSizeLoop_spec c f :
  forall ctx w,
  exists tried rest,
    sizesFrom f = tried ++ rest
    /\ snd (fontLoop c ctx f w) = evOf (map (pair c) tried)
    /\ fs_warnings (fst (fontLoop c ctx f w)) = w ++ warnOf (map (pair c) tried)
    /\ if fs_success (fst (fontLoop c ctx f w)) then
         exists before,
           tried = before ++ [fs_fontSize (fst (fontLoop c ctx f w))]
           /\ feas c (fs_fontSize (fst (fontLoop c ctx f w))) = true
           /\ (forall g, In g before -> feas c g = false)
           /\ fs_placements (fst (fontLoop c ctx f w))
              = att_placements (fst (tryAt c (fs_fontSize (fst (fontLoop c ctx f w)))))
           /\ fs_columnHeights (fst (fontLoop c ctx f w))
              = att_columnHeights (fst (tryAt c (fs_fontSize (fst (fontLoop c ctx f w)))))
       else
         rest = []
         /\ (forall g, In g tried -> feas c g = false)
         /\ fs_fontSize (fst (fontLoop c ctx f w)) = cfg_minFontSize config
         /\ fs_placements (fst (fontLoop c ctx f w)) = []
         /\ fs_columnHeights (fst (fontLoop c ctx f w)) = [].
Proof.
  pattern f. apply (font_loop_ind (cfg_minFontSize config)); clear f.
  - intros f E ctx w. exists [], [].
    rewrite fontSizeLoop_step, fontSizes_step, E. cbn.
    rewrite app_nil_r. repeat split; auto. intros g [].
  - intros f E IH ctx w.
    rewrite fontSizeLoop_step, fontSizes_step, E.
    destruct (feas c f) eqn:Hf.
    + exists [f], (sizesFrom (f - 2)%Q). cbn [fst snd fs_success fs_warnings
        fs_fontSize fs_placements fs_columnHeights map].
      rewrite eventsOf_cons, warningsOf_cons. cbn [eventsOf warningsOf flat_map].
      rewrite !app_nil_r.
      split; [reflexivity|]. split; [reflexivity|]. split; [reflexivity|].
      exists []. repeat split; auto. intros g [].
    + destruct (IH (createMeasureContext (cfg_fontFamily config) f)
                  (w ++ att_warnings (fst (tryAt c f))))
        as (tried & rest & Hsizes & Hev & Hw & Hres).
      exists (f :: tried), rest. cbn [fst snd map].
      split; [rewrite Hsizes; reflexivity|].
      split; [rewrite eventsOf_cons, Hev; reflexivity|].
      split; [rewrite warningsOf_cons, Hw, app_assoc; reflexivity|].
      destruct (fs_success _).
      * destruct Hres as (before & Htried & Hfeas & Hbefore & Hpl & Hch).
        exists (f :: before). rewrite Htried at 1.
        split; [reflexivity|]. split; [exact Hfeas|].
        split; [|split; assumption].
        intros g [<-|Hg]; [exact Hf | apply Hbefore; exact Hg].
      * destruct Hres as (Hrest & Htried & Hrest').
        split; [exact Hrest|]. split; [|exact Hrest'].
        intros g [<-|Hg]; [exact Hf | apply Htried; exact Hg].
Qed.

Local Abbreviation sizes := (fontSizes (cfg_minFontSize config) (cfg_fontSize config)).
Local Abbreviation colLoop := (columnLoop measureText tokens config safeRect).

Lemma in_map_pair (c c' : nat) (g : Q) l :
  In (c', g) (map (pair c) l) -> c' = c /\ In g l.
Proof.
  rewrite in_map_iff. intros (x & [= <- <-] & Hx). split; [reflexivity|exact Hx].
Qed.

(** What the column loop computes from the candidates [cands] and the
    warnings [w] gathered so far. *)
Lemma columnLoop_spec ctx cands :
  forall w,
  exists tried rest,
    searchOrder config cands = tried ++ rest
    /\ snd (colLoop ctx cands w) = evOf tried
    /\ if success (fst (colLoop ctx cands w)) then
         warnings (fst (colLoop ctx cands w)) = w ++ warnOf tried
         /\ exists before pre post,
              tried = before ++ [(columns (fst (colLoop ctx cands w)),
                                  fontSize (fst (colLoop ctx cands w)))]
              /\ feas (columns (fst (colLoop ctx cands w)))
                      (fontSize (fst (colLoop ctx cands w))) = true
              /\ (forall c g, In (c, g) before -> feas c g = false)
              /\ cands = pre ++ columns (fst (colLoop ctx cands w)) :: post
              /\ (forall c g, In c pre -> In g sizes -> feas c g = false)
              /\ In (fontSize (fst (colLoop ctx cands w))) sizes
              /\ (forall g, In g sizes ->
                            (fontSize (fst (colLoop ctx cands w)) < g)%Q ->
                            feas (columns (fst (colLoop ctx cands w))) g = false)
              /\ placements (fst (colLoop ctx cands w))
                 = att_placements
                     (fst (tryAt (columns (fst (colLoop ctx cands w)))
                                 (fontSize (fst (colLoop ctx cands w)))))
              /\ columnHeights (fst (colLoop ctx cands w))
                 = att_columnHeights
                     (fst (tryAt (columns (fst (colLoop ctx cands w)))
                                 (fontSize (fst (colLoop ctx cands w)))))
       else
         rest = []
         /\ (forall c g, In (c, g) tried -> feas c g = false)
         /\ warnings (fst (colLoop ctx cands w))
            = (if Nat.ltb 0 (length (w ++ warnOf tried))
               then w ++ warnOf tried else [WARN_DOES_NOT_FIT])
         /\ placements (fst (colLoop ctx cands w)) = []
         /\ columnHeights (fst (colLoop ctx cands w)) = []
         /\ fontSize (fst (colLoop ctx cands w)) = cfg_minFontSize config
         /\ columns (fst (colLoop ctx cands w)) = 1%nat.
Proof.
  induction cands as [|c cands IH]; intros w.
  - exists [], []. cbn. rewrite app_nil_r. repeat split; auto.
    intros c g [].
  - cbn [columnLoop]. unfold findFontSizeForColumns.
    destruct (fontSizeLoop_spec c (cfg_fontSize config) ctx [])
      as (tried_c & rest_c & Hsizes & Hev & Hw & Hres).
    destruct (fontSizeLoop _ _ _ _ _ _ _ _) as [attempt events].
    cbn [fst snd] in Hev, Hw, Hres. cbn [app] in Hw.
    destruct (fs_success attempt).
    + destruct Hres as (before & Htried & Hfeas & Hbefore & Hpl & Hch).
      exists (map (pair c) tried_c), (map (pair c) rest_c ++ searchOrder config cands).
      cbn [fst snd success warnings columns fontSize placements columnHeights].
      split.
      { unfold searchOrder. cbn [flat_map]. rewrite Hsizes, map_app, app_assoc.
        reflexivity. }
      split; [exact Hev|].
      split; [rewrite Hw; reflexivity|].
      exists (map (pair c) before), [], cands.
      split; [rewrite Htried, map_app; reflexivity|].
      split; [exact Hfeas|].
      split.
      { intros c' g Hin. apply in_map_pair in Hin. destruct Hin as [-> Hg].
        apply Hbefore. exact Hg. }
      split; [reflexivity|].
      split; [intros c' g []|].
      split.
      { rewrite Hsizes, Htried. apply in_or_app. left. apply in_or_app.
        right. left. reflexivity. }
      split; [|split; assumption].
      intros g Hg Hlt. rewrite Hsizes, Htried in Hg.
      apply in_app_or in Hg. destruct Hg as [Hg|Hg].
      * apply in_app_or in Hg. destruct Hg as [Hg|[<-|[]]].
        -- apply Hbefore. exact Hg.
        -- exfalso. exact (Qlt_irrefl _ Hlt).
      * exfalso. rewrite Htried, <- app_assoc in Hsizes. cbn [app] in Hsizes.
        pose proof (fontSizes_decreasing _ _ _ _ _ Hsizes g Hg) as Hgt.
        exact (Qlt_irrefl _ (Qlt_trans _ _ _ Hlt Hgt)).
    + destruct Hres as (Hrest & Htried & _). subst rest_c.
      rewrite app_nil_r in Hsizes.
      destruct (IH (w ++ fs_warnings attempt)) as (tried' & rest' & Horder & Hev' & Hres').
      destruct (columnLoop _ _ _ _ _ _ _) as [result events1].
      cbn [fst snd] in *.
      exists (map (pair c) tried_c ++ tried'), rest'.
      split.
      { unfold searchOrder in *. cbn [flat_map]. rewrite Horder, Hsizes, app_assoc.
        reflexivity. }
      split; [rewrite eventsOf_app, Hev, Hev'; reflexivity|].
      rewrite warningsOf_app, app_assoc, <- Hw.
      destruct (success result).
      * destruct Hres' as (Hw' & before & pre & post & Ht' & Hfeas & Hbefore
                           & Hcands & Hpre & Hin & Hlarger & Hrest).
        split; [exact Hw'|].
        exists (map (pair c) tried_c ++ before), (c :: pre), post.
        split; [rewrite Ht', app_assoc; reflexivity|].
        split; [exact Hfeas|].
        split.
        { intros c' g Hcg. apply in_app_or in Hcg. destruct Hcg as [Hcg|Hcg].
          - apply in_map_pair in Hcg. destruct Hcg as [-> Hg]. apply Htried. exact Hg.
          - apply Hbefore. exact Hcg. }
        split; [rewrite Hcands; reflexivity|].
        split.
        { intros c' g [<-|Hc'] Hg.
          - apply Htried. rewrite <- Hsizes. exact Hg.
          - apply Hpre; assumption. }
        split; [exact Hin|]. split; [exact Hlarger|exact Hrest].
      * destruct Hres' as (Hrest' & Htried' & Hw' & Hrest'').
        split; [exact Hrest'|].
        split.
        { intros c' g Hcg. apply in_app_or in Hcg. destruct Hcg as [Hcg|Hcg].
          - apply in_map_pair in Hcg. destruct Hcg as [-> Hg]. apply Htried. exact Hg.
          - apply Htried'. exact Hcg. }
        split; [exact Hw'|exact Hrest''].
Qed.

End SearchProofs.

(** Every value the loop can reach is one of its values. *)
Lemma fontSizes_complete minFontSize (k : nat) :
  forall fontSize,
    (minFontSize <= fontSize - 2 * Qnat k)%Q ->
    exists g, In g (fontSizes minFontSize fontSize)
              /\ (g == fontSize - 2 * Qnat k)%Q.
Proof.
  induction k as [|k IH]; intros fs Hmin.
  - exists fs. rewrite fontSizes_step.
    assert (E : Qgeb fs minFontSize = true).
    { apply Qleb_le. unfold Qnat in Hmin. simpl in Hmin.
      apply Qle_trans with (1 := Hmin). apply Qle_minus_iff. ring_simplify.
      discriminate. }
    rewrite E. split; [left; reflexivity|]. unfold Qnat. simpl. ring.
  - assert (Hk : (0 <= Qnat k)%Q).
    { unfold Qnat. change 0%Q with (inject_Z 0). rewrite <- Zle_Qle. lia. }
    assert (Es : (Qnat (S k) == Qnat k + 1)%Q).
    { unfold Qnat. rewrite Nat2Z.inj_succ, <- Z.add_1_r, inject_Z_plus. reflexivity. }
    assert (E : Qgeb fs minFontSize = true).
    { apply Qleb_le. apply Qle_trans with (1 := Hmin). rewrite Es.
      apply Qle_minus_iff. ring_simplify.
      apply (Qle_trans _ (2 * Qnat k)); [|apply Qle_minus_iff; ring_simplify; discriminate].
      apply Qmult_le_0_compat; [discriminate|exact Hk]. }
    destruct (IH (fs - 2)%Q) as (g & Hg & Hgk).
    { apply Qle_trans with (1 := Hmin). rewrite Es. apply Qle_minus_iff.
      ring_simplify. discriminate. }
    exists g. rewrite fontSizes_step, E. split; [right; exact Hg|].
    rewrite Hgk, Es. ring.
Qed.

Lemma seq_split_before a n pre x post :
  seq a n = pre ++ x :: post ->
  forall c, (a <= c < x)%nat -> In c pre.
Proof.
  revert a n. induction pre as [|p pre IH]; intros a n H c Hc.
  - destruct n; [discriminate|]. cbn in H. injection H as <- _. lia.
  - destruct n; [discriminate|]. cbn in H. injection H as <- H.
    destruct (Nat.eq_dec c a) as [->|Hne]; [left; reflexivity|].
    right. apply (IH _ _ H). lia.
Qed.

Lemma seq_split_bounds a n pre x post :
  seq a n = pre ++ x :: post -> (a <= x < a + n)%nat.
Proof.
  intros H. apply in_seq. rewrite H. apply in_or_app. right. left. reflexivity.
Qed.

Lemma columnCandidates_seq config autoColumns :
  columnCandidates config autoColumns = seq 1 (columnLimit config autoColumns).
Proof.
  unfold columnCandidates, columnLimit. destruct autoColumns; [|reflexivity].
  apply seq_shift.
Qed.

Lemma columnLimit_positive config autoColumns :
  (1 <= columnLimit config autoColumns)%nat.
Proof.
  unfold columnLimit. destruct autoColumns; [|lia].
  assert (H : (1 <= Qfloor (Qmax 1 (cfg_maxColumns config)))%Z).
  { change 1%Z with (Qfloor 1). apply Qfloor_resp_le. apply Q.le_max_l. }
  lia.
Qed.

Lemma degenerate_test safeRect :
  Qleb (rect_width safeRect) 0 || Qleb (rect_height safeRect) 0 = true
  <-> degenerate safeRect.
Proof.
  unfold degenerate. rewrite orb_true_iff, !Qleb_le. reflexivity.
Qed.

(** ** Claims about the search *)

Section SearchClaims.

Variable measureText : Font -> string -> TextMetrics.
Variable tokens : list LayoutToken.
Variable config : LayoutConfig.
Variable safeRect : Rect.
Variable autoColumns : bool.

Local Abbreviation feas := (feasible measureText tokens safeRect config).
Local Abbreviation sizes :=
  (fontSizes (cfg_minFontSize config) (cfg_fontSize config)).
Local Abbreviation run :=
  (autoLayout measureText tokens config safeRect autoColumns).

Lemma autoLayout_regular :
  ~ degenerate safeRect ->
  run = columnLoop measureText tokens config safeRect
          (createMeasureContext (cfg_fontFamily config) (cfg_fontSize config))
          (columnCandidates config autoColumns) [].
Proof.
  intros H. unfold autoLayout.
  destruct (Qleb (rect_width safeRect) 0 || Qleb (rect_height safeRect) 0) eqn:E;
    [|reflexivity].
  apply degenerate_test in E. contradiction.
Qed.

Lemma autoLayout_short_circuit :
  degenerate safeRect ->
  run = ({| success := false;
            placements := [];
            fontSize := cfg_minFontSize config;
            columns := 1;
            columnHeights := [];
            warnings := [WARN_INVALID_SAFE_RECT] |}, []).
Proof.
  intros H. apply degenerate_test in H. unfold autoLayout. rewrite H.
  reflexivity.
Qed.

(** A failed search has found every pair it tried infeasible. *)
Lemma autoLayout_failed_attempts :
  ~ degenerate safeRect ->
  exists tried,
    attempts (snd run) = tried
    /\ (success (fst run) = false ->
          forall c g, In (c, g) tried -> feas c g = false).
Proof.
  intros Hrect. rewrite (autoLayout_regular Hrect).
  destruct (columnLoop_spec measureText tokens safeRect config
              (createMeasureContext (cfg_fontFamily config) (cfg_fontSize config))
              (columnCandidates config autoColumns) [])
    as (tried & rest & _ & Hev & Hres).
  exists tried. split; [rewrite Hev; apply attempts_eventsOf|].
  intros Hfail. rewrite Hfail in Hres. destruct Hres as (_ & H & _). exact H.
Qed.

Local Abbreviation warnOf := (warningsOf measureText tokens safeRect config).

(** The message of a failed attempt at [c] columns. *)
Lemma warningsOf_failed tried :
  warnOf tried
  = map (fun cf => if Qleb (columnWidthOf safeRect config (fst cf)) 20
                   then WARN_TOO_NARROW else WARN_OVERFLOW)
      (List.filter (fun cf => negb (feas (fst cf) (snd cf))) tried).
Proof.
  induction tried as [|[c f] tried IH]; [reflexivity|].
  unfold warningsOf in *. cbn [flat_map List.filter fst snd]. rewrite IH.
  unfold feasible, attemptAt. rewrite layoutWithConfig_warnings.
  destruct (att_success _); reflexivity.
Qed.

Lemma eventsOf_narrow c l :
  (columnWidthOf safeRect config c <= 20)%Q ->
  eventsOf measureText tokens safeRect config (map (pair c) l)
  = map (EvAttempt c) l.
Proof.
  intros H. induction l as [|f l IH]; [reflexivity|].
  cbn [map]. unfold eventsOf in *. cbn [flat_map fst snd]. rewrite IH.
  unfold attemptAt. rewrite (layoutWithConfig_narrow _ _ _ _ _ _ _ H).
  reflexivity.
Qed.

Lemma warningsOf_narrow c l :
  (columnWidthOf safeRect config c <= 20)%Q ->
  warnOf (map (pair c) l) = repeat WARN_TOO_NARROW (length l).
Proof.
  intros H. induction l as [|f l IH]; [reflexivity|].
  cbn [map]. unfold warningsOf in *. cbn [flat_map fst snd]. rewrite IH.
  unfold attemptAt. rewrite (layoutWithConfig_narrow _ _ _ _ _ _ _ H).
  reflexivity.
Qed.

Lemma attempts_map_EvAttempt c l : attempts (map (EvAttempt c) l) = map (pair c) l.
Proof. induction l as [|f l IH]; [reflexivity|]. cbn. rewrite IH. reflexivity. Qed.

Lemma measurements_map_EvAttempt c l : measurements (map (EvAttempt c) l) = 0%nat.
Proof. induction l as [|f l IH]; [reflexivity|exact IH]. Qed.

(** The column heights of a successful single-column result respect
    the limit: exceeding it takes a second column. *)
Lemma autoLayout_single_column_heights :
  ~ degenerate safeRect ->
  success (fst run) = true ->
  columns (fst run) = 1%nat ->
  Forall (fun h => (h <= rect_height safeRect + 0.5)%Q) (columnHeights (fst run)).
Proof.
  intros Hrect. rewrite (autoLayout_regular Hrect).
  destruct (columnLoop_spec measureText tokens safeRect config
              (createMeasureContext (cfg_fontFamily config) (cfg_fontSize config))
              (columnCandidates config autoColumns) [])
    as (tried & rest & _ & _ & Hres).
  intros Hs Hc. rewrite Hs in Hres.
  destruct Hres as (_ & before & pre & post & _ & Hfeas & _ & _ & _ & _ & _ & _ & Hch).
  rewrite Hch, Hc. rewrite Hc in Hfeas.
  apply layoutWithConfig_single_column; [|exact Hfeas].
  assert (H : (0 < rect_height safeRect)%Q).
  { apply Qnot_le_lt. intros H. apply Hrect. right. exact H. }
  lra.
Qed.

End SearchClaims.

(** C1. On a safe rectangle of positive size [autoLayout] walks the
    pairs of [searchOrder] (column counts 1, 2, .. up to the column
    limit, which is 1 without [autoColumns]; for each the font (fontSizes (cfg_minFontSize config) (cfg_fontSize config))
    fontSize, fontSize - 2, .. that are at least minFontSize) from the
    front and stops at the first pair at which the line packer succeeds.
    So a successful result names a feasible pair, every pair tried
    before it failed, its font size is fontSize minus an even
    decrement and at least minFontSize, no smaller column count is
    feasible at any font size of the loop, and no larger font size of
    the loop is feasible at the chosen column count; a failed result
    has tried every pair. *)
Theorem autoLayout_first_success (measureText : Font -> string -> TextMetrics)
  (tokens : list LayoutToken) (config : LayoutConfig) (safeRect : Rect)
  (autoColumns : bool) :
  ~ degenerate safeRect ->
  columnCandidates config autoColumns = seq 1 (columnLimit config autoColumns)
  /\ (autoColumns = false -> columnCandidates config autoColumns = [1%nat])
  /\ (forall g, In g (fontSizes (cfg_minFontSize config) (cfg_fontSize config)) ->
        (exists k : nat, (g == cfg_fontSize config - 2 * Qnat k)%Q)
        /\ (cfg_minFontSize config <= g)%Q)
  /\ (forall k : nat,
        (cfg_minFontSize config <= cfg_fontSize config - 2 * Qnat k)%Q ->
        exists g, In g (fontSizes (cfg_minFontSize config) (cfg_fontSize config)) /\ (g == cfg_fontSize config - 2 * Qnat k)%Q)
  /\ exists tried rest,
       searchOrder config (columnCandidates config autoColumns) = tried ++ rest
       /\ attempts (snd (autoLayout measureText tokens config safeRect autoColumns)) = tried
       /\ (success (fst (autoLayout measureText tokens config safeRect autoColumns)) = true ->
             exists before,
               tried = before ++ [(columns (fst (autoLayout measureText tokens config safeRect autoColumns)), fontSize (fst (autoLayout measureText tokens config safeRect autoColumns)))]
               /\ feasible measureText tokens safeRect config (columns (fst (autoLayout measureText tokens config safeRect autoColumns))) (fontSize (fst (autoLayout measureText tokens config safeRect autoColumns))) = true
               /\ (forall c g, In (c, g) before -> feasible measureText tokens safeRect config c g = false)
               /\ (exists k : nat,
                     (fontSize (fst (autoLayout measureText tokens config safeRect autoColumns)) == cfg_fontSize config - 2 * Qnat k)%Q)
               /\ (cfg_minFontSize config <= fontSize (fst (autoLayout measureText tokens config safeRect autoColumns)))%Q
               /\ (1 <= columns (fst (autoLayout measureText tokens config safeRect autoColumns)) <= columnLimit config autoColumns)%nat
               /\ (forall c g, (1 <= c < columns (fst (autoLayout measureText tokens config safeRect autoColumns)))%nat ->
                               In g (fontSizes (cfg_minFontSize config) (cfg_fontSize config)) -> feasible measureText tokens safeRect config c g = false)
               /\ (forall g, In g (fontSizes (cfg_minFontSize config) (cfg_fontSize config)) -> (fontSize (fst (autoLayout measureText tokens config safeRect autoColumns)) < g)%Q ->
                             feasible measureText tokens safeRect config (columns (fst (autoLayout measureText tokens config safeRect autoColumns))) g = false))
       /\ (success (fst (autoLayout measureText tokens config safeRect autoColumns)) = false ->
             rest = [] /\ forall c g, In (c, g) tried -> feasible measureText tokens safeRect config c g = false).
Proof.
  intros Hrect.
  split; [apply columnCandidates_seq|].
  split; [intros ->; reflexivity|].
  split.
  { intros g Hg. destruct (fontSizes_bounds _ _ _ Hg) as (Hmin & _ & k & Hk).
    split; [exists k; exact Hk|exact Hmin]. }
  split; [intros k; apply fontSizes_complete|].
  rewrite (autoLayout_regular measureText tokens config safeRect autoColumns Hrect).
  destruct (columnLoop_spec measureText tokens safeRect config
              (createMeasureContext (cfg_fontFamily config) (cfg_fontSize config))
              (columnCandidates config autoColumns) [])
    as (tried & rest & Horder & Hev & Hres).
  exists tried, rest. split; [exact Horder|].
  split; [rewrite Hev; apply attempts_eventsOf|].
  destruct (success _).
  - split; [intros _|discriminate].
    destruct Hres as (_ & before & pre & post & Htried & Hfeas & Hbefore
                      & Hcands & Hpre & Hin & Hlarger & _).
    exists before. split; [exact Htried|]. split; [exact Hfeas|].
    split; [exact Hbefore|].
    destruct (fontSizes_bounds _ _ _ Hin) as (Hmin & _ & k & Hk).
    split; [exists k; exact Hk|]. split; [exact Hmin|].
    pose proof (eq_trans (eq_sym (columnCandidates_seq config autoColumns)) Hcands)
      as Hseq.
    split; [pose proof (seq_split_bounds _ _ _ _ _ Hseq); lia|].
    split; [|exact Hlarger].
    intros c g Hc Hg. apply Hpre; [|exact Hg].
    apply (seq_split_before _ _ _ _ _ Hseq). exact Hc.
  - split; [discriminate|intros _].
    destruct Hres as (Hrest & Htried & _). auto.
Qed.

(** C9. On a safe rectangle of width or height at most zero
    [autoLayout] fails at once with the invalid-rectangle warning: no
    column count or font size is attempted and the measurement
    provider is never called. *)
Theorem autoLayout_degenerate (measureText : Font -> string -> TextMetrics)
  (tokens : list LayoutToken) (config : LayoutConfig) (safeRect : Rect)
  (autoColumns : bool) :
  degenerate safeRect ->
  success (fst (autoLayout measureText tokens config safeRect autoColumns)) = false
  /\ warnings (fst (autoLayout measureText tokens config safeRect autoColumns)) = [WARN_INVALID_SAFE_RECT]
  /\ snd (autoLayout measureText tokens config safeRect autoColumns) = []
  /\ attempts (snd (autoLayout measureText tokens config safeRect autoColumns)) = []
  /\ measurements (snd (autoLayout measureText tokens config safeRect autoColumns)) = 0%nat.
Proof.
  intros H. rewrite (autoLayout_short_circuit measureText tokens config safeRect autoColumns H). repeat split.
Qed.

(** C10. A result of [autoLayout] with [success = false] has no
    placements, no column heights, the font size minFontSize and the
    column count 1. *)
Theorem autoLayout_failure_shape (measureText : Font -> string -> TextMetrics)
  (tokens : list LayoutToken) (config : LayoutConfig) (safeRect : Rect)
  (autoColumns : bool) :
  success (fst (autoLayout measureText tokens config safeRect autoColumns)) = false ->
  placements (fst (autoLayout measureText tokens config safeRect autoColumns)) = []
  /\ columnHeights (fst (autoLayout measureText tokens config safeRect autoColumns)) = []
  /\ fontSize (fst (autoLayout measureText tokens config safeRect autoColumns)) = cfg_minFontSize config
  /\ columns (fst (autoLayout measureText tokens config safeRect autoColumns)) = 1%nat.
Proof.
  unfold autoLayout.
  destruct (Qleb (rect_width safeRect) 0 || Qleb (rect_height safeRect) 0).
  - intros _. repeat split.
  - intros Hfail.
    destruct (columnLoop_spec measureText tokens safeRect config
                (createMeasureContext (cfg_fontFamily config) (cfg_fontSize config))
                (columnCandidates config autoColumns) [])
      as (tried & rest & _ & _ & Hres).
    rewrite Hfail in Hres.
    destruct Hres as (_ & _ & _ & Hp & Hc & Hf & Hn). auto.
Qed.

(** C4, as the code has it. The warnings of the result of [autoLayout]
    are not deduplicated: on a safe rectangle of positive size they
    hold one message per failed attempt, in the order of the attempts
    (the too-narrow message for a column of at most 20 px, the overflow
    message otherwise), or the does-not-fit message alone when nothing
    was attempted; on a degenerate rectangle they are the
    invalid-rectangle message alone. *)
Theorem autoLayout_warnings_accumulate (measureText : Font -> string -> TextMetrics)
  (tokens : list LayoutToken) (config : LayoutConfig) (safeRect : Rect)
  (autoColumns : bool) :
  (degenerate safeRect -> warnings (fst (autoLayout measureText tokens config safeRect autoColumns)) = [WARN_INVALID_SAFE_RECT])
  /\ (~ degenerate safeRect ->
        warnings (fst (autoLayout measureText tokens config safeRect autoColumns))
        = (if success (fst (autoLayout measureText tokens config safeRect autoColumns)) || Nat.ltb 0 (length (attempts (snd (autoLayout measureText tokens config safeRect autoColumns))))
           then warningsOf measureText tokens safeRect config (attempts (snd (autoLayout measureText tokens config safeRect autoColumns))) else [WARN_DOES_NOT_FIT])
        /\ warningsOf measureText tokens safeRect config (attempts (snd (autoLayout measureText tokens config safeRect autoColumns)))
           = map (fun cf => if Qleb (columnWidthOf safeRect config (fst cf)) 20
                            then WARN_TOO_NARROW else WARN_OVERFLOW)
               (List.filter (fun cf => negb (feasible measureText tokens safeRect config (fst cf) (snd cf)))
                  (attempts (snd (autoLayout measureText tokens config safeRect autoColumns))))
        /\ (success (fst (autoLayout measureText tokens config safeRect autoColumns)) = false ->
              forall c g, In (c, g) (attempts (snd (autoLayout measureText tokens config safeRect autoColumns))) -> feasible measureText tokens safeRect config c g = false)).
Proof.
  split.
  - intros H. rewrite (autoLayout_short_circuit measureText tokens config safeRect autoColumns H). reflexivity.
  - intros Hrect. split; [|split; [apply (warningsOf_failed measureText tokens config safeRect)|]].
    + rewrite (autoLayout_regular measureText tokens config safeRect autoColumns Hrect).
      destruct (columnLoop_spec measureText tokens safeRect config
                  (createMeasureContext (cfg_fontFamily config) (cfg_fontSize config))
                  (columnCandidates config autoColumns) [])
        as (tried & rest & _ & Hev & Hres).
      rewrite Hev, attempts_eventsOf.
      destruct (success _).
      * destruct Hres as (Hw & _). exact Hw.
      * destruct Hres as (_ & Hfail & Hw & _). rewrite Hw. cbn [app orb].
        rewrite (warningsOf_failed measureText tokens config safeRect).
        rewrite length_map.
        replace (List.filter _ tried) with tried; [reflexivity|].
        clear - Hfail. induction tried as [|[c g] tried IH]; [reflexivity|].
        cbn [List.filter fst snd]. rewrite (Hfail c g) by (left; reflexivity).
        cbn [negb]. f_equal. apply IH. intros c' g' H. apply Hfail. right. exact H.
    + intros Hfail c g Hin.
      destruct (autoLayout_failed_attempts measureText tokens config safeRect autoColumns Hrect) as (tried & Ht & Hall).
      rewrite Ht in Hin. apply Hall; assumption.
Qed.

(** C5, as the code has it. For a column count whose column width is
    at most 20 px (so in particular below 20 px) every attempt fails at
    once, without packing a line or calling the provider, with the
    too-narrow warning, which differs from every other warning; but
    [findFontSizeForColumns] has no early exit: it still makes that
    attempt at every font size of its loop and collects the warning
    once per font size. *)
Theorem narrow_column_fails_each_size (measureText : Font -> string -> TextMetrics)
  (tokens : list LayoutToken) (config : LayoutConfig) (safeRect : Rect)
  (c : nat) (ctx : MeasureContext) :
  (columnWidthOf safeRect config c <= 20)%Q ->
  (forall f,
     attemptAt measureText tokens safeRect config c f
     = ({| att_success := false;
           att_placements := [];
           att_overflow := true;
           att_warnings := [WARN_TOO_NARROW];
           att_columnHeights := replicate c 0%Q |}, []))
  /\ fs_success
       (fst (findFontSizeForColumns measureText tokens safeRect config c ctx))
     = false
  /\ snd (findFontSizeForColumns measureText tokens safeRect config c ctx)
     = map (EvAttempt c) (fontSizes (cfg_minFontSize config) (cfg_fontSize config))
  /\ attempts
       (snd (findFontSizeForColumns measureText tokens safeRect config c ctx))
     = map (pair c) (fontSizes (cfg_minFontSize config) (cfg_fontSize config))
  /\ measurements
       (snd (findFontSizeForColumns measureText tokens safeRect config c ctx))
     = 0%nat
  /\ fs_warnings
       (fst (findFontSizeForColumns measureText tokens safeRect config c ctx))
     = repeat WARN_TOO_NARROW (length (fontSizes (cfg_minFontSize config) (cfg_fontSize config)))
  /\ WARN_TOO_NARROW <> WARN_OVERFLOW
  /\ WARN_TOO_NARROW <> WARN_DOES_NOT_FIT
  /\ WARN_TOO_NARROW <> WARN_INVALID_SAFE_RECT.
Proof.
  intros Hnarrow.
  assert (Hat : forall f,
             attemptAt measureText tokens safeRect config c f
             = ({| att_success := false;
                   att_placements := [];
                   att_overflow := true;
                   att_warnings := [WARN_TOO_NARROW];
                   att_columnHeights := replicate c 0%Q |}, [])).
  { intros f. unfold attemptAt. apply layoutWithConfig_narrow. exact Hnarrow. }
  split; [exact Hat|].
  unfold findFontSizeForColumns.
  destruct (fontSizeLoop_spec measureText tokens safeRect config c
              (cfg_fontSize config) ctx [])
    as (tried & rest & Hsizes & Hev & Hw & Hres).
  destruct (fs_success _).
  - exfalso. destruct Hres as (before & _ & Hfeas & _).
    unfold feasible in Hfeas. rewrite Hat in Hfeas. discriminate.
  - destruct Hres as (-> & _). rewrite app_nil_r in Hsizes. subst tried.
    rewrite (eventsOf_narrow measureText tokens config safeRect _ _ Hnarrow) in Hev.
    rewrite (warningsOf_narrow measureText tokens config safeRect _ _ Hnarrow) in Hw. cbn [app] in Hw.
    split; [reflexivity|]. split; [exact Hev|].
    split; [rewrite Hev; apply attempts_map_EvAttempt|].
    split; [rewrite Hev; apply measurements_map_EvAttempt|].
    split; [exact Hw|].
    repeat split; discriminate.
Qed.


(** ** The search on concrete inputs *)

Lemma sampleRect_regular w h : (0 < w)%Q -> (0 < h)%Q -> ~ degenerate (sampleRect w h).
Proof.
  intros Hw Hh [H|H]; cbn in H.
  - exact (Qlt_not_le _ _ Hw H).
  - exact (Qlt_not_le _ _ Hh H).
Qed.

(** Two characters in a 100 x 20 rectangle: sizes 16 and 14 overflow,
    size 12 fits in one column. *)
Lemma autoLayout_first_success_witness :
  ~ degenerate (sampleRect 100 20)
  /\ success (fst (autoLayout (plainMetrics 10) [TokText "ab"]
                     (sampleConfig 16 12 1.5 2) (sampleRect 100 20) true)) = true
  /\ exists tried rest,
       searchOrder (sampleConfig 16 12 1.5 2)
         (columnCandidates (sampleConfig 16 12 1.5 2) true) = tried ++ rest
       /\ attempts (snd (autoLayout (plainMetrics 10) [TokText "ab"]
                           (sampleConfig 16 12 1.5 2) (sampleRect 100 20) true))
          = tried.
Proof.
  assert (H : ~ degenerate (sampleRect 100 20))
    by (apply sampleRect_regular; reflexivity).
  split; [exact H|]. split; [vm_compute; reflexivity|].
  destruct (autoLayout_first_success (plainMetrics 10) [TokText "ab"]
              (sampleConfig 16 12 1.5 2) (sampleRect 100 20) true H)
    as (_ & _ & _ & _ & tried & rest & Horder & Hatt & _).
  exists tried, rest. split; assumption.
Defined.

Lemma autoLayout_degenerate_witness :
  degenerate (sampleRect 0 100)
  /\ success (fst (autoLayout (plainMetrics 10) [TokText "ab"]
                     (sampleConfig 16 12 1.5 2) (sampleRect 0 100) true)) = false
  /\ measurements (snd (autoLayout (plainMetrics 10) [TokText "ab"]
                          (sampleConfig 16 12 1.5 2) (sampleRect 0 100) true)) = 0%nat.
Proof.
  assert (H : degenerate (sampleRect 0 100)) by (left; cbn; apply Qle_refl).
  split; [exact H|].
  destruct (autoLayout_degenerate (plainMetrics 10) [TokText "ab"]
              (sampleConfig 16 12 1.5 2) (sampleRect 0 100) true H)
    as (Hs & _ & _ & _ & Hm).
  split; assumption.
Defined.

(** An empty line of 21 px, then 18 px, in a rectangle 10 px high. *)
Lemma autoLayout_failure_shape_witness :
  success (fst (autoLayout (plainMetrics 10) [TokText ""]
                  (sampleConfig 14 12 1.5 1) (sampleRect 100 10) false)) = false
  /\ placements (fst (autoLayout (plainMetrics 10) [TokText ""]
                        (sampleConfig 14 12 1.5 1) (sampleRect 100 10) false)) = []
  /\ columns (fst (autoLayout (plainMetrics 10) [TokText ""]
                     (sampleConfig 14 12 1.5 1) (sampleRect 100 10) false)) = 1%nat.
Proof.
  assert (H : success (fst (autoLayout (plainMetrics 10) [TokText ""]
                  (sampleConfig 14 12 1.5 1) (sampleRect 100 10) false)) = false)
    by (vm_compute; reflexivity).
  split; [exact H|].
  destruct (autoLayout_failure_shape (plainMetrics 10) [TokText ""]
              (sampleConfig 14 12 1.5 1) (sampleRect 100 10) false H)
    as (Hp & _ & _ & Hc).
  split; assumption.
Defined.

(** C4, as stated, fails: two font sizes overflow before size 12 fits,
    and the successful result carries the overflow warning twice. *)
Lemma autoLayout_warnings_repeat :
  success (fst (autoLayout (plainMetrics 10) [TokText "ab"]
                  (sampleConfig 16 12 1.5 2) (sampleRect 100 20) true)) = true
  /\ warnings (fst (autoLayout (plainMetrics 10) [TokText "ab"]
                      (sampleConfig 16 12 1.5 2) (sampleRect 100 20) true))
     = [WARN_OVERFLOW; WARN_OVERFLOW]
  /\ ~ List.NoDup (warnings (fst (autoLayout (plainMetrics 10) [TokText "ab"]
                               (sampleConfig 16 12 1.5 2) (sampleRect 100 20) true))).
Proof.
  assert (H : warnings (fst (autoLayout (plainMetrics 10) [TokText "ab"]
                      (sampleConfig 16 12 1.5 2) (sampleRect 100 20) true))
              = [WARN_OVERFLOW; WARN_OVERFLOW]) by (vm_compute; reflexivity).
  split; [vm_compute; reflexivity|]. split; [exact H|].
  rewrite H. intros Hnd. inversion Hnd as [|x l Hnin _]. apply Hnin. left.
  reflexivity.
Qed.

Lemma autoLayout_warnings_accumulate_witness :
  ~ degenerate (sampleRect 100 20)
  /\ warnings (fst (autoLayout (plainMetrics 10) [TokText "ab"]
                      (sampleConfig 16 12 1.5 2) (sampleRect 100 20) true))
     = warningsOf (plainMetrics 10) [TokText "ab"] (sampleRect 100 20)
         (sampleConfig 16 12 1.5 2)
         (attempts (snd (autoLayout (plainMetrics 10) [TokText "ab"]
                           (sampleConfig 16 12 1.5 2) (sampleRect 100 20) true))).
Proof.
  assert (H : ~ degenerate (sampleRect 100 20))
    by (apply sampleRect_regular; reflexivity).
  split; [exact H|].
  destruct (autoLayout_warnings_accumulate (plainMetrics 10) [TokText "ab"]
              (sampleConfig 16 12 1.5 2) (sampleRect 100 20) true)
    as (_ & Hacc).
  destruct (Hacc H) as (Hw & _). rewrite Hw. vm_compute. reflexivity.
Defined.

(** C5, as stated, fails: a single column in a rectangle 15 px wide is
    below 20 px, and it is attempted at font size 14 and again at 12. *)
Lemma narrow_column_retried :
  (columnWidthOf (sampleRect 15 100) (sampleConfig 14 12 1.5 1) 1 < 20)%Q
  /\ attempts (snd (findFontSizeForColumns (plainMetrics 10) [TokText "ab"]
                      (sampleRect 15 100) (sampleConfig 14 12 1.5 1) 1
                      (createMeasureContext "serif" 14)))
     = [(1%nat, 14%Q); (1%nat, 12%Q)]
  /\ fs_warnings (fst (findFontSizeForColumns (plainMetrics 10) [TokText "ab"]
                         (sampleRect 15 100) (sampleConfig 14 12 1.5 1) 1
                         (createMeasureContext "serif" 14)))
     = [WARN_TOO_NARROW; WARN_TOO_NARROW].
Proof.
  split; [reflexivity|]. split; vm_compute; reflexivity.
Qed.

Lemma narrow_column_fails_each_size_witness :
  (columnWidthOf (sampleRect 15 100) (sampleConfig 14 12 1.5 1) 1 <= 20)%Q
  /\ fs_success (fst (findFontSizeForColumns (plainMetrics 10) [TokText "ab"]
                        (sampleRect 15 100) (sampleConfig 14 12 1.5 1) 1
                        (createMeasureContext "serif" 14))) = false
  /\ measurements (snd (findFontSizeForColumns (plainMetrics 10) [TokText "ab"]
                          (sampleRect 15 100) (sampleConfig 14 12 1.5 1) 1
                          (createMeasureContext "serif" 14))) = 0%nat.
Proof.
  assert (H : (columnWidthOf (sampleRect 15 100) (sampleConfig 14 12 1.5 1) 1 <= 20)%Q)
    by (vm_compute; discriminate).
  split; [exact H|].
  destruct (narrow_column_fails_each_size (plainMetrics 10) [TokText "ab"]
              (sampleConfig 14 12 1.5 1) (sampleRect 15 100) 1
              (createMeasureContext "serif" 14) H)
    as (_ & Hs & _ & _ & Hm & _).
  split; assumption.
Defined.

(** C2 on the code: with two columns allowed, a line of 120 px is moved
    to the second column of a rectangle 100 px high and accepted there,
    so a successful result reports a column height above the limit. *)
Lemma columnHeights_overflow_example :
  success (fst (autoLayout (plainMetrics 50) [TokText "a"]
                  (sampleConfig 80 80 1.5 2) (sampleRect 400 100) true)) = true
  /\ columns (fst (autoLayout (plainMetrics 50) [TokText "a"]
                     (sampleConfig 80 80 1.5 2) (sampleRect 400 100) true)) = 2%nat
  /\ exists h,
       nth_error (columnHeights (fst (autoLayout (plainMetrics 50) [TokText "a"]
                    (sampleConfig 80 80 1.5 2) (sampleRect 400 100) true))) 1
       = Some h
       /\ (h == 120)%Q
       /\ ~ (h <= rect_height (sampleRect 400 100) + 0.5)%Q.
Proof.
  split; [vm_compute; reflexivity|]. split; [vm_compute; reflexivity|].
  eexists. split; [vm_compute; reflexivity|].
  split; [reflexivity|]. apply Qlt_not_le. reflexivity.
Qed.

(** ** The safe rectangle *)

(** Sorting by descending area puts the first rectangle of largest area
    in front: what precedes it in the array is strictly smaller. *)
Lemma array_sort_head (l : list Rect) :
  match array_sort byAreaDescending l with
  | [] => l = []
  | best :: _ =>
      exists pre post,
        l = pre ++ best :: post
        /\ (forall s, In s pre -> (area s < area best)%Q)
        /\ (forall s, In s post -> (area s <= area best)%Q)
  end.
Proof.
  induction l as [|x l IH]; [reflexivity|].
  cbn [array_sort fold_right]. fold (array_sort byAreaDescending l).
  destruct (array_sort byAreaDescending l) as [|b rest].
  - subst l. cbn. exists [], []. repeat split; intros s [].
  - destruct IH as (pre & post & Hl & Hpre & Hpost).
    cbn [insert_sorted]. unfold byAreaDescending at 1.
    destruct (Qleb (area b - area x) 0) eqn:E.
    + apply Qleb_le in E.
      assert (Hbx : (area b <= area x)%Q) by lra.
      exists [], l. split; [reflexivity|]. split; [intros s []|].
      intros s Hs. rewrite Hl in Hs. apply in_app_or in Hs.
      destruct Hs as [Hs|[<-|Hs]].
      * apply Qlt_le_weak. apply Qlt_le_trans with (area b); auto.
      * exact Hbx.
      * apply Qle_trans with (area b); auto.
    + apply Qleb_gt in E.
      assert (Hxb : (area x < area b)%Q) by lra.
      exists (x :: pre), post. split; [rewrite Hl; reflexivity|].
      split; [|exact Hpost].
      intros s [<-|Hs]; [exact Hxb|apply Hpre; exact Hs].
Qed.

Lemma bigEnough_spec r :
  bigEnough r = true <-> (20 < rect_width r)%Q /\ (20 < rect_height r)%Q.
Proof.
  unfold bigEnough, Qgtb. rewrite andb_true_iff, !Qltb_lt. reflexivity.
Qed.

Lemma bigEnough_cases r :
  (bigEnough r = true /\ (20 < rect_width r)%Q /\ (20 < rect_height r)%Q)
  \/ (bigEnough r = false /\ ~ ((20 < rect_width r)%Q /\ (20 < rect_height r)%Q)).
Proof.
  destruct (bigEnough r) eqn:E.
  - left. split; [reflexivity|]. apply bigEnough_spec. exact E.
  - right. split; [reflexivity|]. rewrite <- bigEnough_spec, E. discriminate.
Qed.

(** The head of the sorted survivors of three rectangles [a], [b], [c]
    (in this order), or [o] when none survives: the first of the largest
    among those more than 20 px wide and high. *)
Lemma first_largest (a b c o : Rect) :
  let big := fun r : Rect => (20 < rect_width r)%Q /\ (20 < rect_height r)%Q in
  let size := fun r : Rect => (rect_width r * rect_height r)%Q in
  let result :=
    match array_sort byAreaDescending (List.filter bigEnough [a; b; c]) with
    | [] => o
    | best :: _ => best
    end in
  (~ big a -> ~ big b -> ~ big c -> result = o)
  /\ (big a -> (big b -> (size b <= size a)%Q) -> (big c -> (size c <= size a)%Q) ->
      result = a)
  /\ (big b -> (big a -> (size a < size b)%Q) -> (big c -> (size c <= size b)%Q) ->
      result = b)
  /\ (big c -> (big a -> (size a < size c)%Q) -> (big b -> (size b < size c)%Q) ->
      result = c)
  /\ (big a \/ big b \/ big c ->
      In result [a; b; c] /\ big result
      /\ forall r, In r [a; b; c] -> big r -> (size r <= size result)%Q).
Proof.
  intros big size result. subst big size result. cbn beta.
  cbn [List.filter].
  destruct (bigEnough_cases a) as [[Ea Ba]|[Ea Ba]];
  destruct (bigEnough_cases b) as [[Eb Bb]|[Eb Bb]];
  destruct (bigEnough_cases c) as [[Ec Bc]|[Ec Bc]];
    rewrite Ea, Eb, Ec; clear Ea Eb Ec;
    cbn [array_sort fold_right insert_sorted];
    repeat match goal with
      | |- context [Qleb ?x 0] =>
          let E := fresh "E" in
          destruct (Qleb x 0) eqn:E;
          [apply Qleb_le in E|apply Qleb_gt in E];
          cbn [insert_sorted]
      end;
    unfold byAreaDescending in *;
    repeat match goal with
      | |- context [(rect_width ?x * rect_height ?x)%Q] =>
          change (rect_width x * rect_height x)%Q with (area x)
      end.
  all: split; [intros; try reflexivity; exfalso; tauto|].
  all: split; [intros Hbig Himp1 Himp2; try reflexivity; exfalso;
             try (specialize (Himp1 ltac:(assumption)));
             try (specialize (Himp2 ltac:(assumption))); try tauto; lra|].
  all: split; [intros Hbig Himp1 Himp2; try reflexivity; exfalso;
             try (specialize (Himp1 ltac:(assumption)));
             try (specialize (Himp2 ltac:(assumption))); try tauto; lra|].
  all: split; [intros Hbig Himp1 Himp2; try reflexivity; exfalso;
             try (specialize (Himp1 ltac:(assumption)));
             try (specialize (Himp2 ltac:(assumption))); try tauto; lra|].
  all: intros Hsome; split; [cbn [In]; tauto|].
  all: split; [try assumption; exfalso; tauto|].
  all: intros r [<-|[<-|[<-|[]]]] Hr;
    repeat match goal with
      | |- context [(rect_width ?x * rect_height ?x)%Q] =>
          change (rect_width x * rect_height x)%Q with (area x)
      end;
    try lra; exfalso; tauto.
Qed.

(** C7. Without a character rectangle [computeSafeRect] returns the
    outer rectangle: the canvas inset by outerPadding on all sides, at
    least 10 px wide and high.  With one it builds three candidates: the
    strip left of the character (from the outer left edge to safePadding
    before the character), the strip above it (from the outer top edge
    to safePadding above the character) and the strip right of it (from
    safePadding after the character to the outer right edge), a negative
    extent counting as 0.  A candidate survives when it is more than
    20 px wide and more than 20 px high.  The result is the survivor of
    largest area width x height, the earlier one in the order left, top,
    right when areas are equal, and the outer rectangle when no
    candidate survives. *)
Theorem computeSafeRect_spec (canvasWidth canvasHeight : Q)
    (outerPadding safePadding : Q) :
  let width := Qmax (canvasWidth - outerPadding * 2) 10 in
  let height := Qmax (canvasHeight - outerPadding * 2) 10 in
  let outer :=
    {| rect_x := outerPadding; rect_y := outerPadding;
       rect_width := width; rect_height := height |} in
  (10 <= width)%Q /\ (10 <= height)%Q
  /\ computeSafeRect canvasWidth canvasHeight None outerPadding safePadding = outer
  /\ forall characterRect,
       let left :=
         {| rect_x := outerPadding; rect_y := outerPadding;
            rect_width :=
              Qmax (rect_x characterRect - safePadding - outerPadding) 0;
            rect_height := height |} in
       let top :=
         {| rect_x := outerPadding; rect_y := outerPadding;
            rect_width := width;
            rect_height :=
              Qmax (rect_y characterRect - safePadding - outerPadding) 0 |} in
       let rightX :=
         (rect_x characterRect + rect_width characterRect + safePadding)%Q in
       let right :=
         {| rect_x := rightX; rect_y := outerPadding;
            rect_width := Qmax (outerPadding + width - rightX) 0;
            rect_height := height |} in
       let big := fun r : Rect => (20 < rect_width r)%Q /\ (20 < rect_height r)%Q in
       let size := fun r : Rect => (rect_width r * rect_height r)%Q in
       let result :=
         computeSafeRect canvasWidth canvasHeight (Some characterRect)
           outerPadding safePadding in
       (~ big left -> ~ big top -> ~ big right -> result = outer)
       /\ (big left ->
           (big top -> (size top <= size left)%Q) ->
           (big right -> (size right <= size left)%Q) ->
           result = left)
       /\ (big top ->
           (big left -> (size left < size top)%Q) ->
           (big right -> (size right <= size top)%Q) ->
           result = top)
       /\ (big right ->
           (big left -> (size left < size right)%Q) ->
           (big top -> (size top < size right)%Q) ->
           result = right)
       /\ (big left \/ big top \/ big right ->
           In result [left; top; right] /\ big result
           /\ forall r, In r [left; top; right] -> big r ->
                        (size r <= size result)%Q).
Proof.
  intros width height outer.
  split; [apply Q.le_max_r|]. split; [apply Q.le_max_r|].
  split; [reflexivity|].
  intros characterRect left top rightX right big size result.
  exact (first_largest left top right outer).
Qed.

(** A character at the bottom right of a 1000 x 1000 canvas: the strip
    to its left (410 x 920) and the strip above it (920 x 410) both
    survive with equal areas and the strip to its right does not, so the
    left strip, the earlier one, is returned. *)
Lemma computeSafeRect_spec_witness :
  computeSafeRect 1000 1000
    (Some {| rect_x := 500; rect_y := 500; rect_width := 500; rect_height := 500 |})
    40 50
  = {| rect_x := 40; rect_y := 40; rect_width := Qmax (500 - 50 - 40) 0;
       rect_height := Qmax (1000 - 40 * 2) 10 |}.
Proof.
  pose proof (computeSafeRect_spec 1000 1000 40 50) as H. cbv zeta in H.
  destruct H as (_ & _ & _ & H).
  destruct (H {| rect_x := 500; rect_y := 500; rect_width := 500;
                 rect_height := 500 |}) as (_ & Hleft & _).
  apply Hleft.
  - split; reflexivity.
  - intros _. vm_compute. discriminate.
  - intros [Hw _]. vm_compute in Hw. discriminate Hw.
Defined.

(** [array_sort] is a sort: it rearranges the array, and by descending
    area it leaves no rectangle in front of a larger one. *)
Lemma insert_sorted_perm {A} (cmp : A -> A -> Q) x l :
  Permutation (insert_sorted cmp x l) (x :: l).
Proof.
  induction l as [|y l IH]; cbn [insert_sorted]; [reflexivity|].
  destruct (Qleb (cmp x y) 0); [reflexivity|].
  rewrite IH. apply perm_swap.
Qed.

Lemma array_sort_perm {A} (cmp : A -> A -> Q) l : Permutation (array_sort cmp l) l.
Proof.
  induction l as [|x l IH]; [reflexivity|].
  cbn [array_sort fold_right]. fold (array_sort cmp l).
  rewrite insert_sorted_perm, IH. reflexivity.
Qed.

Lemma insert_sorted_descending x l :
  StronglySorted largerFirst l ->
  StronglySorted largerFirst (insert_sorted byAreaDescending x l).
Proof.
  induction 1 as [|y l Hs IH Hy]; cbn [insert_sorted].
  - constructor; constructor.
  - unfold byAreaDescending at 1. destruct (Qleb (area y - area x) 0) eqn:E.
    + apply Qleb_le in E. constructor; [constructor; assumption|].
      constructor; [unfold largerFirst; lra|].
      eapply List.Forall_impl; [|exact Hy]. unfold largerFirst. intros z Hz. lra.
    + apply Qleb_gt in E. constructor; [exact IH|].
      apply (Permutation_Forall (Permutation_sym (insert_sorted_perm _ x l))).
      constructor; [unfold largerFirst; lra|exact Hy].
Qed.

Lemma array_sort_descending l :
  StronglySorted largerFirst (array_sort byAreaDescending l).
Proof.
  induction l as [|x l IH]; [constructor|].
  cbn [array_sort fold_right]. apply insert_sorted_descending. exact IH.
Qed.

(** ** The user offset *)

Lemma includes_In l s : includes l s = true <-> In s l.
Proof.
  unfold includes. rewrite existsb_exists. split.
  - intros (x & Hx & E). apply String.eqb_eq in E. subst x. exact Hx.
  - intros H. exists s. split; [exact H|apply String.eqb_refl].
Qed.

Lemma includes_not_In l s : includes l s = false <-> ~ In s l.
Proof.
  rewrite <- includes_In. destruct (includes l s); intuition congruence.
Qed.

Lemma count_occ_snoc (l : list string) (x y : string) :
  count_occ string_dec (l ++ [x]) y
  = (count_occ string_dec l y + if string_dec x y then 1 else 0)%nat.
Proof.
  rewrite count_occ_app. cbn. destruct (string_dec x y); reflexivity.
Qed.

(** What [applyTextOffset] does to the warnings when it moves anything. *)
Lemma applyTextOffset_warnings layout offsetX offsetY safeRect :
  success layout = true ->
  Qeq_bool offsetX 0 && Qeq_bool offsetY 0 = false ->
  warnings (applyTextOffset layout offsetX offsetY safeRect)
  = if outsideSafeRect (movedBounds layout offsetX offsetY) safeRect
       && negb (includes (warnings layout) WARN_OUTSIDE_SAFE_RECT)
    then warnings layout ++ [WARN_OUTSIDE_SAFE_RECT]
    else warnings layout.
Proof.
  intros Hs Hoff. unfold applyTextOffset, movedBounds. rewrite Hs, Hoff. cbn [negb].
  destruct (movePlacements _ _ _ _) as [moved b]. cbn [snd warnings].
  destruct (outsideSafeRect b safeRect); [|reflexivity].
  destruct (includes _ _); reflexivity.
Qed.

Lemma applyTextOffset_success layout offsetX offsetY safeRect :
  success (applyTextOffset layout offsetX offsetY safeRect) = success layout.
Proof.
  unfold applyTextOffset. destruct (negb (success layout)); [reflexivity|].
  destruct (Qeq_bool offsetX 0 && Qeq_bool offsetY 0); [reflexivity|].
  destruct (movePlacements _ _ _ _). reflexivity.
Qed.

Lemma offset_nonzero offsetX offsetY :
  ~ (offsetX == 0 /\ offsetY == 0)%Q ->
  Qeq_bool offsetX 0 && Qeq_bool offsetY 0 = false.
Proof.
  intros H. apply not_true_iff_false. rewrite andb_true_iff, !Qeq_bool_iff.
  exact H.
Qed.

Lemma ext_ltb_min a x y : ext_ltb (ext_min a x) y = ext_ltb a y || Qltb x y.
Proof.
  destruct a as [|q|]; cbn; [reflexivity| |reflexivity].
  apply eq_true_iff_eq. rewrite orb_true_iff, !Qltb_lt.
  split; intros H; qminmax; lra.
Qed.

Lemma ext_gtb_max a x y : ext_gtb (ext_max a x) y = ext_gtb a y || Qgtb x y.
Proof.
  destruct a as [|q|]; cbn; [reflexivity| |reflexivity].
  apply eq_true_iff_eq. unfold Qgtb. rewrite orb_true_iff, !Qltb_lt.
  split; intros H; qminmax; lra.
Qed.

Lemma movePlacement_outside offsetX offsetY b placement safeRect :
  outsideSafeRect (snd (movePlacement offsetX offsetY b placement)) safeRect
  = outsideSafeRect b safeRect
    || sticksOut safeRect (fst (movePlacement offsetX offsetY b placement)).
Proof.
  unfold outsideSafeRect, sticksOut, movePlacement.
  cbn [fst snd minX maxX minY maxY p_x p_y p_width p_height].
  rewrite !ext_ltb_min, !ext_gtb_max.
  repeat match goal with |- context [ext_ltb ?a ?b] => destruct (ext_ltb a b) end;
  repeat match goal with |- context [ext_gtb ?a ?b] => destruct (ext_gtb a b) end;
  repeat match goal with |- context [Qltb ?a ?b] => destruct (Qltb a b) end;
  repeat match goal with |- context [Qgtb ?a ?b] => destruct (Qgtb a b) end;
  reflexivity.
Qed.

Lemma movePlacements_spec offsetX offsetY safeRect l :
  forall b,
    fst (movePlacements offsetX offsetY b l) = map (moveBy offsetX offsetY) l
    /\ outsideSafeRect (snd (movePlacements offsetX offsetY b l)) safeRect
       = outsideSafeRect b safeRect
         || existsb (sticksOut safeRect) (map (moveBy offsetX offsetY) l).
Proof.
  induction l as [|p l IH]; intros b; cbn [movePlacements map existsb].
  - cbn [fst snd]. rewrite orb_false_r. split; reflexivity.
  - pose proof (movePlacement_outside offsetX offsetY b p safeRect) as Hstep.
    destruct (movePlacement offsetX offsetY b p) as [moved b1] eqn:E.
    destruct (IH b1) as [IHf IHo].
    destruct (movePlacements offsetX offsetY b1 l) as [rest b2].
    cbn [fst snd] in *. split.
    + rewrite IHf. f_equal. unfold moveBy, movePlacement in *.
      injection E as <- _. reflexivity.
    + rewrite IHo, Hstep, <- orb_assoc. f_equal. f_equal.
      unfold moveBy, movePlacement in *. injection E as <- _. reflexivity.
Qed.

(** The code's test on the bounding box fires exactly when some
    placement, moved by the offset, has an edge outside the safe
    rectangle. *)
Lemma sticksOut_moved safeRect offsetX offsetY p :
  sticksOut safeRect (moveBy offsetX offsetY p) = true
  <-> pushedOutside safeRect offsetX offsetY p.
Proof.
  unfold sticksOut, moveBy, movePlacement, pushedOutside, Qgtb.
  cbn [fst p_x p_y p_width p_height].
  rewrite !orb_true_iff, !Qltb_lt. tauto.
Qed.

Lemma applyTextOffset_detects layout offsetX offsetY safeRect :
  outsideSafeRect (movedBounds layout offsetX offsetY) safeRect = true
  <-> exists p, In p (placements layout) /\ pushedOutside safeRect offsetX offsetY p.
Proof.
  unfold movedBounds.
  destruct (movePlacements_spec offsetX offsetY safeRect (placements layout)
              noBounds) as [_ Ho].
  rewrite Ho. cbn [outsideSafeRect noBounds minX maxX minY maxY ext_ltb ext_gtb orb].
  rewrite existsb_exists. split.
  - intros (q & Hq & Hout). apply in_map_iff in Hq. destruct Hq as (p & <- & Hp).
    exists p. split; [exact Hp|]. apply sticksOut_moved. exact Hout.
  - intros (p & Hp & Hout). exists (moveBy offsetX offsetY p).
    split; [apply in_map; exact Hp|]. apply sticksOut_moved. exact Hout.
Qed.

(** C8. When a successful layout is moved by a non-zero offset and some
    placement, moved by the offset, has its left edge left of the safe
    rectangle, its right edge right of it, its top edge above it or its
    bottom edge below it, [applyTextOffset] appends the boundary warning
    once if it is absent and leaves the warnings alone if it is present,
    so the warning occurs once (or as often as it already did), however
    many placements are outside; applying the same offset again changes
    no warning, so a result that started without the warning keeps
    exactly one copy.  When no moved placement has an edge outside, the
    warnings are unchanged. *)
Theorem applyTextOffset_warns_once (layout : LayoutResult)
    (offsetX offsetY : Q) (safeRect : Rect) :
  success layout = true ->
  ~ (offsetX == 0 /\ offsetY == 0)%Q ->
  let once := applyTextOffset layout offsetX offsetY safeRect in
  let twice := applyTextOffset once offsetX offsetY safeRect in
  ((exists p, In p (placements layout)
              /\ pushedOutside safeRect offsetX offsetY p) ->
     (~ In WARN_OUTSIDE_SAFE_RECT (warnings layout) ->
        warnings once = warnings layout ++ [WARN_OUTSIDE_SAFE_RECT])
     /\ (In WARN_OUTSIDE_SAFE_RECT (warnings layout) ->
           warnings once = warnings layout)
     /\ count_occ string_dec (warnings once) WARN_OUTSIDE_SAFE_RECT
        = Nat.max 1 (count_occ string_dec (warnings layout) WARN_OUTSIDE_SAFE_RECT)
     /\ (length (warnings once) <= S (length (warnings layout)))%nat
     /\ warnings twice = warnings once
     /\ (~ In WARN_OUTSIDE_SAFE_RECT (warnings layout) ->
           count_occ string_dec (warnings twice) WARN_OUTSIDE_SAFE_RECT = 1%nat))
  /\ ((forall p, In p (placements layout) ->
                 ~ pushedOutside safeRect offsetX offsetY p) ->
      warnings once = warnings layout).
Proof.
  intros Hs Hoff once twice.
  apply offset_nonzero in Hoff.
  split.
  2:{ intros Hnone. unfold once.
      rewrite (applyTextOffset_warnings _ _ _ _ Hs Hoff).
      destruct (outsideSafeRect _ _) eqn:E; [|reflexivity].
      apply applyTextOffset_detects in E. destruct E as (p & Hp & Hout).
      exfalso. exact (Hnone p Hp Hout). }
  intros Hpushed. apply applyTextOffset_detects in Hpushed. rename Hpushed into Hout.
  assert (Honce : warnings once
                  = if negb (includes (warnings layout) WARN_OUTSIDE_SAFE_RECT)
                    then warnings layout ++ [WARN_OUTSIDE_SAFE_RECT]
                    else warnings layout).
  { unfold once. rewrite (applyTextOffset_warnings _ _ _ _ Hs Hoff), Hout.
    reflexivity. }
  assert (Hin : In WARN_OUTSIDE_SAFE_RECT (warnings once)).
  { rewrite Honce. destruct (includes _ _) eqn:E; cbn [negb].
    - apply includes_In. exact E.
    - apply in_or_app. right. left. reflexivity. }
  assert (Htwice : warnings twice = warnings once).
  { unfold twice. rewrite applyTextOffset_warnings.
    - apply includes_In in Hin. rewrite Hin, andb_false_r. reflexivity.
    - unfold once. rewrite applyTextOffset_success. exact Hs.
    - exact Hoff. }
  assert (Habsent : ~ In WARN_OUTSIDE_SAFE_RECT (warnings layout) ->
                    warnings once = warnings layout ++ [WARN_OUTSIDE_SAFE_RECT]).
  { intros H. apply includes_not_In in H. rewrite Honce, H. reflexivity. }
  assert (Hcount : ~ In WARN_OUTSIDE_SAFE_RECT (warnings layout) ->
                   count_occ string_dec (warnings once) WARN_OUTSIDE_SAFE_RECT = 1%nat).
  { intros H. rewrite (Habsent H), count_occ_snoc.
    apply (count_occ_not_In string_dec) in H. rewrite H.
    destruct (string_dec _ _); [reflexivity|congruence]. }
  split; [exact Habsent|].
  split.
  { intros H. apply includes_In in H. rewrite Honce, H. reflexivity. }
  split.
  { destruct (in_dec string_dec WARN_OUTSIDE_SAFE_RECT (warnings layout)) as [H|H].
    - pose proof H as H'. apply includes_In in H'. rewrite Honce, H'. cbn [negb].
      apply (count_occ_In string_dec) in H. lia.
    - rewrite (Hcount H). apply (count_occ_not_In string_dec) in H. rewrite H.
      reflexivity. }
  split.
  { rewrite Honce. destruct (includes _ _); cbn [negb].
    - lia.
    - rewrite length_app. cbn. lia. }
  split; [exact Htwice|].
  intros H. rewrite Htwice. apply Hcount. exact H.
Qed.

(** Two placements in a 100 x 100 rectangle, moved 30 px to the right:
    the second one, at the right edge, is pushed out. *)
Lemma applyTextOffset_warns_once_witness :
  warnings (applyTextOffset
              (sampleLayout [samplePlacement 10 0 20 18; samplePlacement 80 0 20 18] [])
              30 0 (sampleRect 100 100))
  = [WARN_OUTSIDE_SAFE_RECT]
  /\ warnings (applyTextOffset
                 (applyTextOffset
                    (sampleLayout
                       [samplePlacement 10 0 20 18; samplePlacement 80 0 20 18] [])
                    30 0 (sampleRect 100 100))
                 30 0 (sampleRect 100 100))
     = warnings (applyTextOffset
                   (sampleLayout
                      [samplePlacement 10 0 20 18; samplePlacement 80 0 20 18] [])
                   30 0 (sampleRect 100 100)).
Proof.
  destruct (applyTextOffset_warns_once
              (sampleLayout [samplePlacement 10 0 20 18; samplePlacement 80 0 20 18] [])
              30 0 (sampleRect 100 100))
    as [Hout _].
  - reflexivity.
  - intros [H _]. discriminate H.
  - destruct Hout as (Habsent & _ & _ & _ & Htwice & _).
    + exists (samplePlacement 80 0 20 18). split; [right; left; reflexivity|].
      right. left. reflexivity.
    + split; [|exact Htwice]. apply Habsent. intros [].
Defined.

(** * Further properties *)

(** ** What the packer measures and places *)

Lemma allRuns_close lines line fs ratio :
  allRuns (lines ++ [line]) (createLineBuffer fs ratio) = allRuns lines line.
Proof.
  unfold allRuns. rewrite flat_map_app. cbn. rewrite !app_nil_r. reflexivity.
Qed.

Lemma wrapIfNeeded_allRuns line width columnWidth fs ratio lines :
  allRuns (snd (wrapIfNeeded line width columnWidth fs ratio lines))
          (fst (wrapIfNeeded line width columnWidth fs ratio lines))
  = allRuns lines line.
Proof.
  unfold wrapIfNeeded. destruct (_ && _); cbn [fst snd]; [|reflexivity].
  apply allRuns_close.
Qed.

Lemma allRuns_text lines line run :
  allRuns lines (appendTextRun line run) = allRuns lines line ++ [run].
Proof. unfold allRuns. cbn. rewrite app_assoc. reflexivity. Qed.

Lemma allRuns_asset lines line run :
  allRuns lines (appendAssetRun line run) = allRuns lines line ++ [run].
Proof. unfold allRuns. cbn. rewrite app_assoc. reflexivity. Qed.

Lemma split_newline_nonempty value : split_newline value <> [].
Proof.
  destruct value as [|c value]; cbn [split_newline]; [discriminate|].
  destruct (split_newline value); [discriminate|].
  destruct (Ascii.eqb c newline); discriminate.
Qed.

(** Splitting at line breaks does not cut a character in two: the
    first segment starts in the middle of a character only if the whole
    text does, and a group of [Array_from] starts with the byte the
    string starts with. *)
Lemma split_newline_continues value seg segs :
  split_newline value = seg :: segs -> continues seg = continues value.
Proof.
  destruct value as [|d v]; cbn [split_newline].
  - intros [= <- _]. reflexivity.
  - destruct (split_newline v) as [|s ss].
    + intros [= <- _]. reflexivity.
    + destruct (Ascii.eqb d newline) eqn:E.
      * apply Ascii.eqb_eq in E. subst d. intros [= <- _]. reflexivity.
      * intros [= <- _]. reflexivity.
Qed.

Lemma Array_from_cons c s :
  Array_from (String c s)
  = match Array_from s with
    | g :: gs =>
        if negb (isAsciiByte c) && continues s
        then String c g :: gs
        else String c "" :: g :: gs
    | [] => [String c ""]
    end.
Proof. reflexivity. Qed.

Lemma Array_from_head d v g gs :
  Array_from (String d v) = g :: gs -> exists t, g = String d t.
Proof.
  rewrite Array_from_cons. destruct (Array_from v) as [|g0 gs0].
  - intros [= <- _]. eexists. reflexivity.
  - destruct (_ && _); intros [= <- _]; eexists; reflexivity.
Qed.

Lemma notNewline_cons c t :
  Ascii.eqb c newline = false -> notNewline (String c t) = true.
Proof.
  intros E. unfold notNewline. cbn [String.eqb]. rewrite E. reflexivity.
Qed.

Lemma continues_not_newline d v :
  continues (String d v) = true -> Ascii.eqb d newline = false.
Proof.
  cbn [continues]. intros H. apply not_true_iff_false. intros E.
  apply Ascii.eqb_eq in E. subst d. discriminate H.
Qed.

(** The characters of the segments of a text are the characters of the
    text other than the line breaks. *)
Lemma split_newline_chars value :
  flat_map Array_from (split_newline value)
  = List.filter notNewline (Array_from value).
Proof.
  induction value as [|c value IH]; [reflexivity|].
  pose proof (split_newline_continues value) as Hcont.
  cbn [split_newline].
  pose proof (split_newline_nonempty value) as Hne.
  destruct (split_newline value) as [|seg segs]; [contradiction|].
  specialize (Hcont seg segs eq_refl).
  cbn [flat_map] in IH.
  destruct (Ascii.eqb c newline) eqn:E.
  - apply Ascii.eqb_eq in E. subst c. cbn [flat_map app].
    change (Array_from "") with (@nil string). cbn [app].
    rewrite IH, Array_from_cons.
    destruct (Array_from value) as [|g gs]; reflexivity.
  - cbn [flat_map]. rewrite !Array_from_cons, Hcont.
    destruct (negb (isAsciiByte c) && continues value) eqn:Eattach.
    + apply andb_true_iff in Eattach. destruct Eattach as [_ Hc].
      destruct value as [|d v]; [discriminate Hc|].
      pose proof (continues_not_newline d v Hc) as Ed.
      destruct seg as [|d' seg'];
        [rewrite Hc in Hcont; discriminate Hcont|].
      destruct (Array_from (String d v)) as [|g gs] eqn:Ev;
        [rewrite Array_from_cons in Ev; destruct (Array_from v);
           [|destruct (_ && _)]; discriminate Ev|].
      destruct (Array_from (String d' seg')) as [|g' gs'] eqn:Es;
        [rewrite Array_from_cons in Es; destruct (Array_from seg');
           [|destruct (_ && _)]; discriminate Es|].
      destruct (Array_from_head d v g gs Ev) as [t ->].
      cbn [List.filter] in IH |- *.
      rewrite (notNewline_cons d t Ed) in IH.
      rewrite (notNewline_cons c (String d t) E).
      cbn [app] in IH |- *. injection IH as -> ->. reflexivity.
    + assert (Hv : match Array_from value with
                   | g :: gs => String c "" :: g :: gs
                   | [] => [String c ""]
                   end = String c "" :: Array_from value)
        by (destruct (Array_from value); reflexivity).
      assert (Hs : match Array_from seg with
                   | g :: gs => String c "" :: g :: gs
                   | [] => [String c ""]
                   end = String c "" :: Array_from seg)
        by (destruct (Array_from seg); reflexivity).
      rewrite Hv, Hs. cbn [List.filter app].
      rewrite (notNewline_cons c "" E), <- IH. reflexivity.
Qed.

Section PackerContent.

Variable measureText : Font -> string -> TextMetrics.

(** [pushTextSegment] calls the provider once per character, in order,
    and adds one run per character. *)
Lemma pushTextSegment_content segment :
  forall line columnWidth ctx fs ratio lines,
    snd (pushTextSegment measureText segment line columnWidth ctx fs ratio lines)
    = map (EvMeasure (ctx_font ctx)) (Array_from segment)
    /\ map run_value
         (allRuns
            (snd (fst (pushTextSegment measureText segment line columnWidth ctx
                         fs ratio lines)))
            (fst (fst (pushTextSegment measureText segment line columnWidth ctx
                         fs ratio lines))))
       = map run_value (allRuns lines line) ++ Array_from segment.
Proof.
  unfold pushTextSegment. generalize (Array_from segment) as chars.
  induction chars as [|char rest IH]; intros line columnWidth ctx fs ratio lines;
    cbn [pushChars map].
  - cbn [fst snd]. rewrite app_nil_r. split; reflexivity.
  - pose proof (wrapIfNeeded_allRuns line
                  (tm_width (measureText (ctx_font ctx) char)) columnWidth fs ratio
                  lines) as Hw.
    destruct (wrapIfNeeded _ _ _ _ _ _) as [currentLine lines1]. cbn [fst snd] in Hw.
    match goal with
    | |- context [pushChars measureText rest ?l ?w ?c ?f ?r ?ls] =>
        destruct (IH l w c f r ls) as [IHe IHr];
        destruct (pushChars measureText rest l w c f r ls)
          as [[last lines2] events]
    end.
    cbn [fst snd] in *. split; [rewrite IHe; reflexivity|].
    rewrite IHr, allRuns_text, Hw, map_app, <- app_assoc. reflexivity.
Qed.

Lemma pushSegments_content segments :
  forall line columnWidth ctx fs ratio lines,
    snd (pushSegments measureText segments line columnWidth ctx fs ratio lines)
    = map (EvMeasure (ctx_font ctx)) (flat_map Array_from segments)
    /\ map run_value
         (allRuns
            (snd (fst (pushSegments measureText segments line columnWidth ctx
                         fs ratio lines)))
            (fst (fst (pushSegments measureText segments line columnWidth ctx
                         fs ratio lines))))
       = map run_value (allRuns lines line)
         ++ flat_map Array_from segments.
Proof.
  induction segments as [|segment rest IH]; intros line columnWidth ctx fs ratio lines;
    cbn [pushSegments flat_map].
  - cbn [fst snd map]. rewrite app_nil_r. split; reflexivity.
  - assert (H1 :
      snd (if truthy segment
           then pushTextSegment measureText segment line columnWidth ctx fs ratio lines
           else (line, lines, []))
      = map (EvMeasure (ctx_font ctx)) (Array_from segment)
      /\ map run_value
           (allRuns
              (snd (fst (if truthy segment
                         then pushTextSegment measureText segment line columnWidth
                                ctx fs ratio lines
                         else (line, lines, []))))
              (fst (fst (if truthy segment
                         then pushTextSegment measureText segment line columnWidth
                                ctx fs ratio lines
                         else (line, lines, [])))))
         = map run_value (allRuns lines line)
           ++ Array_from segment).
    { destruct segment as [|c s]; cbn [truthy].
      - cbn [fst snd Array_from map]. rewrite app_nil_r. split; reflexivity.
      - apply pushTextSegment_content. }
    destruct (if truthy segment then _ else _) as [[line1 lines1] ev1].
    cbn [fst snd] in H1. destruct H1 as [He1 Hr1].
    destruct rest as [|s rest].
    + cbn [pushSegments fst snd flat_map]. rewrite !app_nil_r.
      split; assumption.
    + match goal with
      | |- context [pushSegments measureText ?ss ?l ?w ?c ?f ?r ?ls] =>
          destruct (IH l w c f r ls) as [IHe IHr];
          destruct (pushSegments measureText ss l w c f r ls)
            as [[line3 lines3] ev3]
      end.
      cbn [fst snd] in *. split.
      * rewrite He1, IHe, <- map_app. reflexivity.
      * rewrite IHr, allRuns_close, Hr1, <- app_assoc. reflexivity.
Qed.

Lemma pushTokens_content tokens :
  forall line columnWidth ctx fs ratio lines,
    snd (pushTokens measureText tokens line columnWidth ctx fs ratio lines)
    = map (EvMeasure (ctx_font ctx)) (textChars tokens)
    /\ map run_value
         (allRuns
            (snd (fst (pushTokens measureText tokens line columnWidth ctx
                         fs ratio lines)))
            (fst (fst (pushTokens measureText tokens line columnWidth ctx
                         fs ratio lines))))
       = map run_value (allRuns lines line) ++ contentValues tokens.
Proof.
  induction tokens as [|token rest IH]; intros line columnWidth ctx fs ratio lines;
    cbn [pushTokens textChars contentValues flat_map].
  - cbn [fst snd map]. rewrite app_nil_r. split; reflexivity.
  - destruct token as [value|asset].
    + destruct (pushSegments_content (split_newline value) line columnWidth ctx fs
                  ratio lines) as [He1 Hr1].
      rewrite split_newline_chars in He1, Hr1.
      destruct (pushSegments _ _ _ _ _ _ _ _) as [[line1 lines1] ev1].
      cbn [fst snd] in *.
      destruct (IH line1 columnWidth ctx fs ratio lines1) as [IHe IHr].
      destruct (pushTokens _ _ _ _ _ _ _ _) as [[line2 lines2] ev2].
      cbn [fst snd] in *. split.
      * rewrite He1, IHe, <- map_app. reflexivity.
      * rewrite IHr, Hr1, <- app_assoc. reflexivity.
    + unfold pushAssetToken.
      destruct (assetSize asset columnWidth fs) as [width height].
      pose proof (wrapIfNeeded_allRuns line width columnWidth fs ratio lines) as Hw.
      destruct (wrapIfNeeded _ _ _ _ _ _) as [currentLine lines1].
      cbn [fst snd] in Hw.
      match goal with
      | |- context [pushTokens measureText rest ?l ?w ?c ?f ?r ?ls] =>
          destruct (IH l w c f r ls) as [IHe IHr];
          destruct (pushTokens measureText rest l w c f r ls)
            as [[line2 lines2] ev2]
      end.
      cbn [fst snd app] in *. split; [exact IHe|].
      rewrite IHr, allRuns_asset, Hw, map_app, <- app_assoc. reflexivity.
Qed.

End PackerContent.

Lemma placeRuns_values rs :
  forall line safeRect left cursorX cursorY baseline columnIndex,
    map p_value (placeRuns rs line safeRect left cursorX cursorY baseline columnIndex)
    = map run_value rs.
Proof.
  induction rs as [|r rs IH]; intros; cbn [placeRuns map]; [reflexivity|].
  cbn [p_value]. rewrite IH. reflexivity.
Qed.

Lemma placeLines_values lines :
  forall safeRect cols columnWidth columnGap placed heights columnIndex cursorY,
    att_success (placeLines lines safeRect cols columnWidth columnGap placed heights
                   columnIndex cursorY) = true ->
    map p_value
      (att_placements (placeLines lines safeRect cols columnWidth columnGap placed
                         heights columnIndex cursorY))
    = map p_value placed ++ map run_value (flat_map runs lines).
Proof.
  induction lines as [|line rest IH];
    intros safeRect cols columnWidth columnGap placed heights columnIndex cursorY;
    cbn [placeLines flat_map].
  - intros _. cbn. rewrite app_nil_r. reflexivity.
  - destruct (Qgtb _ _).
    + destruct (Nat.leb cols (S columnIndex)); [discriminate|].
      intros Hs. rewrite (IH _ _ _ _ _ _ _ _ Hs), !map_app, placeRuns_values,
        <- app_assoc. reflexivity.
    + intros Hs. rewrite (IH _ _ _ _ _ _ _ _ Hs), !map_app, placeRuns_values,
        <- app_assoc. reflexivity.
Qed.

Lemma placeLines_failure lines :
  forall safeRect cols columnWidth columnGap placed heights columnIndex cursorY,
    att_success (placeLines lines safeRect cols columnWidth columnGap placed heights
                   columnIndex cursorY) = false ->
    att_placements (placeLines lines safeRect cols columnWidth columnGap placed
                      heights columnIndex cursorY) = [].
Proof.
  induction lines as [|line rest IH];
    intros safeRect cols columnWidth columnGap placed heights columnIndex cursorY;
    cbn [placeLines].
  - discriminate.
  - destruct (Qgtb _ _).
    + destruct (Nat.leb cols (S columnIndex)); [reflexivity|]. apply IH.
    + apply IH.
Qed.

(** X1. A successful attempt of [layoutWithConfig] places the whole
    content: its placements carry, in input order, exactly one entry per
    character (code point) of the text tokens other than a line break
    and one per asset token; a failed attempt returns no placement at
    all. *)
Theorem layoutWithConfig_places_everything
    (measureText : Font -> string -> TextMetrics) (tokens : list LayoutToken)
    (safeRect : Rect) (params : LayoutWithConfigParams) :
  (att_success (fst (layoutWithConfig measureText tokens safeRect params)) = true ->
     map p_value
       (att_placements (fst (layoutWithConfig measureText tokens safeRect params)))
     = contentValues tokens
     /\ length
          (att_placements (fst (layoutWithConfig measureText tokens safeRect params)))
        = length (contentValues tokens))
  /\ (att_success (fst (layoutWithConfig measureText tokens safeRect params)) = false ->
        att_placements (fst (layoutWithConfig measureText tokens safeRect params))
        = []).
Proof.
  assert (Hval :
    att_success (fst (layoutWithConfig measureText tokens safeRect params)) = true ->
    map p_value
      (att_placements (fst (layoutWithConfig measureText tokens safeRect params)))
    = contentValues tokens).
  { unfold layoutWithConfig. destruct (Qleb _ 20); [discriminate|].
    match goal with
    | |- context [pushTokens measureText tokens ?l ?w ?c ?f ?r ?ls] =>
        destruct (pushTokens_content measureText tokens l w c f r ls) as [_ Hr];
        destruct (pushTokens measureText tokens l w c f r ls)
          as [[line lines] events]
    end.
    cbn [fst snd] in *. intros Hs.
    rewrite (placeLines_values _ _ _ _ _ _ _ _ _ Hs). cbn [map app].
    cbn in Hr. rewrite <- Hr. unfold allRuns.
    destruct (runs line) as [|r rs] eqn:Er; cbn [length Nat.ltb Nat.leb orb].
    - destruct (Nat.eqb (length lines) 0).
      + rewrite flat_map_app. cbn. rewrite Er, !app_nil_r. reflexivity.
      + rewrite app_nil_r. reflexivity.
    - rewrite flat_map_app. cbn. rewrite Er, app_nil_r. reflexivity. }
  split.
  - intros Hs. split; [exact (Hval Hs)|].
    rewrite <- (Hval Hs), length_map. reflexivity.
  - unfold layoutWithConfig. destruct (Qleb _ 20); [reflexivity|].
    destruct (pushTokens _ _ _ _ _ _ _ _) as [[line lines] events]. cbn [fst].
    apply placeLines_failure.
Qed.

(** Three characters on two lines, the first of them outside ASCII, and
    an asset, in a roomy rectangle. *)
Lemma layoutWithConfig_places_everything_witness :
  map p_value
    (att_placements
       (fst (attemptAt (plainMetrics 10) [TokText "中a
c"; TokAsset asset_x1] (sampleRect 400 400) (sampleConfig 16 12 1.5 1) 1 16)))
  = ["中"; "a"; "c"; "x1"].
Proof.
  unfold attemptAt.
  destruct (layoutWithConfig_places_everything (plainMetrics 10)
              [TokText "中a
c"; TokAsset asset_x1] (sampleRect 400 400)
              {| par_fontSize := 16; par_columns := 1;
                 par_config := sampleConfig 16 12 1.5 1;
                 par_measureContext := createMeasureContext "serif" 16 |})
    as [Hs _].
  destruct Hs as [Hv _]; [vm_compute; reflexivity|].
  exact Hv.
Defined.

(** An attempt of [layoutWithConfig] on columns wider than 20 px calls
    the measurement provider exactly once per character of the text
    tokens other than a newline, in order and in the font the context
    holds; on columns of at most 20 px it does not call it. *)
Lemma layoutWithConfig_events
    (measureText : Font -> string -> TextMetrics) (tokens : list LayoutToken)
    (safeRect : Rect) (params : LayoutWithConfigParams) :
  snd (layoutWithConfig measureText tokens safeRect params)
  = if Qleb (columnWidthOf safeRect (par_config params) (par_columns params)) 20
    then []
    else map (EvMeasure (ctx_font (par_measureContext params))) (textChars tokens).
Proof.
  unfold layoutWithConfig, columnWidthOf. destruct (Qleb _ 20); [reflexivity|].
  match goal with
  | |- context [pushTokens measureText tokens ?l ?w ?c ?f ?r ?ls] =>
      destruct (pushTokens_content measureText tokens l w c f r ls) as [He _];
      destruct (pushTokens measureText tokens l w c f r ls)
        as [[line lines] events]
  end.
  exact He.
Qed.

Lemma eventsOf_trace measureText tokens safeRect config tried :
  eventsOf measureText tokens safeRect config tried
  = flat_map (attemptTrace tokens safeRect config) tried.
Proof.
  induction tried as [|[c f] tried IH]; [reflexivity|].
  unfold eventsOf in *. cbn [flat_map fst snd]. rewrite IH.
  unfold attemptAt. rewrite layoutWithConfig_events. reflexivity.
Qed.

Lemma measurements_map_EvMeasure font l :
  measurements (map (EvMeasure font) l) = length l.
Proof. induction l as [|c l IH]; [reflexivity|]. cbn. rewrite IH. reflexivity. Qed.

Lemma measurements_trace tokens safeRect config tried :
  measurements (flat_map (attemptTrace tokens safeRect config) tried)
  = (length (List.filter (wideEnough safeRect config) tried)
     * length (textChars tokens))%nat.
Proof.
  induction tried as [|[c f] tried IH]; [reflexivity|].
  cbn [flat_map List.filter]. rewrite measurements_app, IH.
  unfold attemptTrace, wideEnough at 2. cbn [fst snd measurements].
  destruct (Qleb _ 20); cbn [negb measurements length].
  - reflexivity.
  - rewrite measurements_map_EvMeasure. lia.
Qed.

(** X2. What a call of [autoLayout] costs: for every attempt it makes,
    the measurement provider is called exactly once per character (code
    point) of the text tokens other than a line break, in order, with
    that character as argument, in the font family of the
    configuration and at the font size of that attempt, unless the
    columns of the attempt are at most 20 px wide, when it is not called;
    so the number of provider calls is the number of attempts on wide
    enough columns times the number of those characters. *)
Theorem autoLayout_measurements (measureText : Font -> string -> TextMetrics)
    (tokens : list LayoutToken) (config : LayoutConfig) (safeRect : Rect)
    (autoColumns : bool) :
  snd (autoLayout measureText tokens config safeRect autoColumns)
  = flat_map (attemptTrace tokens safeRect config)
      (attempts (snd (autoLayout measureText tokens config safeRect autoColumns)))
  /\ measurements (snd (autoLayout measureText tokens config safeRect autoColumns))
     = (length
          (List.filter (wideEnough safeRect config)
             (attempts
                (snd (autoLayout measureText tokens config safeRect autoColumns))))
        * length (textChars tokens))%nat.
Proof.
  assert (H : snd (autoLayout measureText tokens config safeRect autoColumns)
              = flat_map (attemptTrace tokens safeRect config)
                  (attempts (snd (autoLayout measureText tokens config safeRect
                                    autoColumns)))).
  { unfold autoLayout.
    destruct (Qleb (rect_width safeRect) 0 || Qleb (rect_height safeRect) 0);
      [reflexivity|].
    destruct (columnLoop_spec measureText tokens safeRect config
                (createMeasureContext (cfg_fontFamily config) (cfg_fontSize config))
                (columnCandidates config autoColumns) [])
      as (tried & rest & _ & Hev & _).
    rewrite Hev, attempts_eventsOf. apply eventsOf_trace. }
  split; [exact H|].
  rewrite H at 1. apply measurements_trace.
Qed.

(** ** Geometry *)

Lemma clamp_bounds value lo hi :
  (clamp value lo hi <= hi)%Q
  /\ ((lo <= hi)%Q -> (lo <= clamp value lo hi)%Q)
  /\ ((lo <= value)%Q -> (value <= hi)%Q -> (clamp value lo hi == value)%Q)
  /\ ((hi < lo)%Q -> (clamp value lo hi == hi)%Q).
Proof. unfold clamp. repeat split; intros; qminmax; lra. Qed.

Lemma computeSafeRect_cases canvasWidth canvasHeight characterRect outerPadding
    safePadding :
  (survivors canvasWidth canvasHeight characterRect outerPadding safePadding = []
   /\ computeSafeRect canvasWidth canvasHeight (Some characterRect) outerPadding
        safePadding
      = outerRect canvasWidth canvasHeight outerPadding)
  \/ In (computeSafeRect canvasWidth canvasHeight (Some characterRect) outerPadding
           safePadding)
        (survivors canvasWidth canvasHeight characterRect outerPadding safePadding).
Proof.
  unfold computeSafeRect.
  fold (survivors canvasWidth canvasHeight characterRect outerPadding safePadding).
  pose proof (array_sort_head
                (survivors canvasWidth canvasHeight characterRect outerPadding
                   safePadding)) as H.
  destruct (array_sort byAreaDescending _) as [|best rest].
  - left. split; [exact H|reflexivity].
  - right. destruct H as (pre & post & -> & _). apply in_or_app. right. left.
    reflexivity.
Qed.

Lemma computeSafeRect_cases_any canvasWidth canvasHeight characterRect outerPadding
    safePadding :
  (10 <= rect_width (computeSafeRect canvasWidth canvasHeight characterRect
                       outerPadding safePadding))%Q
  /\ (10 <= rect_height (computeSafeRect canvasWidth canvasHeight characterRect
                           outerPadding safePadding))%Q.
Proof.
  destruct characterRect as [c|].
  - destruct (computeSafeRect_cases canvasWidth canvasHeight c outerPadding
                safePadding) as [[_ ->]|Hin].
    + split; apply Q.le_max_r.
    + unfold survivors in Hin. apply filter_In in Hin. destruct Hin as [_ Hbig].
      apply bigEnough_spec in Hbig. destruct Hbig as [Hw Hh]. split; lra.
  - split; apply Q.le_max_r.
Qed.

(** X3. [computeSafeRect] never returns a degenerate rectangle: whatever
    the canvas, the character rectangle and the paddings, the result is
    at least 10 px wide and 10 px high, so [autoLayout] never rejects it
    as invalid. *)
Theorem computeSafeRect_usable (canvasWidth canvasHeight : Q)
    (characterRect : option Rect) (outerPadding safePadding : Q) :
  (10 <= rect_width (computeSafeRect canvasWidth canvasHeight characterRect
                       outerPadding safePadding))%Q
  /\ (10 <= rect_height (computeSafeRect canvasWidth canvasHeight characterRect
                           outerPadding safePadding))%Q
  /\ ~ degenerate (computeSafeRect canvasWidth canvasHeight characterRect
                     outerPadding safePadding).
Proof.
  pose proof (computeSafeRect_cases_any canvasWidth canvasHeight characterRect
                outerPadding safePadding) as H.
  destruct H as [Hw Hh]. split; [exact Hw|]. split; [exact Hh|].
  intros [Hd|Hd]; lra.
Qed.



Lemma ratio_divisor_positive (nw nh : Q) :
  (0 <= nw)%Q -> (0 <= nh)%Q ->
  (0 < num_or (Some (if Qeq_bool nh 0 then 1 else nw / nh)) 1)%Q.
Proof.
  intros Hw Hh. cbn [num_or].
  destruct (Qeq_bool nh 0) eqn:E; [reflexivity|].
  destruct (Qeq_bool (nw / nh) 0) eqn:E2; [reflexivity|].
  apply Qeq_bool_neq in E, E2.
  assert (Hnh : (0 < nh)%Q) by (apply Qle_lt_or_eq in Hh; destruct Hh as [H|H];
                                [exact H|exfalso; apply E; symmetry; exact H]).
  assert (Hq : (0 <= nw / nh)%Q).
  { apply Qle_shift_div_l; [exact Hnh|]. lra. }
  apply Qle_lt_or_eq in Hq. destruct Hq as [H|H]; [exact H|].
  exfalso. apply E2. symmetry. exact H.
Qed.

(** X5. For a canvas and a scale that are not negative,
    [computeCharacterRect] gives a rectangle whose width is the smaller
    of 90% of the canvas width and canvas width x scale, whose height is
    that width divided by naturalWidth / naturalHeight of the image, and
    whose position is clamped so that it leaves the canvas by at most a
    quarter of its width to the left or right, by at most a tenth of its
    height at the top, and so that at least a tenth of its height is
    above the bottom edge. *)
Theorem computeCharacterRect_bounds (canvasWidth canvasHeight : Q)
    (image : Image) (options : CharacterOptions) :
  (0 <= canvasWidth)%Q -> (0 <= canvasHeight)%Q -> (0 <= opt_scale options)%Q ->
  (0 <= img_naturalWidth image)%Q -> (0 <= img_naturalHeight image)%Q ->
  let r := computeCharacterRect canvasWidth canvasHeight image options in
  rect_width r = Qmin (canvasWidth * 0.9) (canvasWidth * opt_scale options)
  /\ (0 <= rect_width r)%Q
  /\ (rect_width r <= canvasWidth * 0.9)%Q
  /\ (0 <= rect_height r)%Q
  /\ (- rect_width r * 0.25 <= rect_x r)%Q
  /\ (rect_x r <= canvasWidth - rect_width r * 0.75)%Q
  /\ (- rect_height r * 0.1 <= rect_y r)%Q
  /\ (rect_y r <= canvasHeight - rect_height r * 0.1)%Q
  /\ ((0 < img_naturalWidth image)%Q -> (0 < img_naturalHeight image)%Q ->
        rect_height r
        = (rect_width r / (img_naturalWidth image / img_naturalHeight image))%Q).
Proof.
  intros Hcw Hch Hs Hnw Hnh r.
  assert (Hw0 : (0 <= rect_width r)%Q).
  { cbn. assert (0 <= canvasWidth * opt_scale options)%Q
      by (apply Qmult_le_0_compat; assumption).
    qminmax. lra. }
  assert (Hw9 : (rect_width r <= canvasWidth * 0.9)%Q) by (cbn; apply Q.le_min_l).
  pose proof (ratio_divisor_positive _ _ Hnw Hnh) as Hd.
  assert (Hh0 : (0 <= rect_height r)%Q).
  { cbn [r computeCharacterRect rect_height]. cbn [r computeCharacterRect rect_width] in Hw0.
    apply Qle_shift_div_l; [exact Hd|]. lra. }
  split; [reflexivity|]. split; [exact Hw0|]. split; [exact Hw9|].
  split; [exact Hh0|].
  cbn [r computeCharacterRect rect_x rect_y rect_width rect_height] in *.
  set (w := Qmin (canvasWidth * 0.9) (canvasWidth * opt_scale options)) in *.
  set (h := (w / _)%Q) in *.
  split.
  { apply clamp_bounds. lra. }
  split; [apply clamp_bounds|].
  split.
  { apply clamp_bounds. lra. }
  split; [apply clamp_bounds|].
  intros Hpw Hph. unfold h. cbn [num_or].
  assert (E1 : Qeq_bool (img_naturalHeight image) 0 = false).
  { apply not_true_iff_false. intros E. apply Qeq_bool_iff in E. lra. }
  rewrite E1.
  assert (Hq : (0 < img_naturalWidth image / img_naturalHeight image)%Q).
  { apply Qlt_shift_div_l; [exact Hph|]. lra. }
  assert (E2 : Qeq_bool (img_naturalWidth image / img_naturalHeight image) 0 = false).
  { apply not_true_iff_false. intros E. apply Qeq_bool_iff in E. lra. }
  rewrite E2. reflexivity.
Qed.

(** The example of a square image on a 1000 x 1000 canvas at scale 0.5
    and margin 50. *)
Lemma computeCharacterRect_bounds_witness :
  (rect_x (computeCharacterRect 1000 1000
             {| img_naturalWidth := 300; img_naturalHeight := 300 |}
             {| opt_scale := 0.5; opt_offsetX := 0; opt_offsetY := 0;
                opt_margin := 50; opt_brightness := 100; opt_contrast := 100;
                opt_dropShadow := false |}) == 450)%Q
  /\ (rect_width (computeCharacterRect 1000 1000
                    {| img_naturalWidth := 300; img_naturalHeight := 300 |}
                    {| opt_scale := 0.5; opt_offsetX := 0; opt_offsetY := 0;
                       opt_margin := 50; opt_brightness := 100;
                       opt_contrast := 100; opt_dropShadow := false |})
      <= 1000 * 0.9)%Q.
Proof.
  split; [vm_compute; reflexivity|].
  apply (computeCharacterRect_bounds 1000 1000
           {| img_naturalWidth := 300; img_naturalHeight := 300 |}
           {| opt_scale := 0.5; opt_offsetX := 0; opt_offsetY := 0;
              opt_margin := 50; opt_brightness := 100; opt_contrast := 100;
              opt_dropShadow := false |}); cbn; discriminate.
Defined.

(** ** Cropping *)

(** X7. For a canvas height that is not negative, [normalizeCrop] gives
    a crop inside the canvas: the cut at the top and the cut at the
    bottom are not negative, together with the kept height they make up
    the full height, and the kept height is at least the minimum height
    (itself at least 1 px) or the full height if that is smaller.  Cuts
    that already leave that much are returned unchanged. *)
Theorem normalizeCrop_inside (top bottom fullHeight minHeight : Q) :
  (0 <= fullHeight)%Q ->
  let c := normalizeCrop top bottom fullHeight minHeight in
  (0 <= crop_top c)%Q
  /\ (0 <= crop_bottom c)%Q
  /\ (crop_top c + crop_height c + crop_bottom c == fullHeight)%Q
  /\ (Qmin fullHeight (Qmax minHeight 1) <= crop_height c)%Q
  /\ (crop_height c <= fullHeight)%Q
  /\ ((0 <= top)%Q -> (0 <= bottom)%Q ->
      (top + bottom + Qmax minHeight 1 <= fullHeight)%Q ->
      (crop_top c == top)%Q /\ (crop_bottom c == bottom)%Q
      /\ (crop_height c == fullHeight - top - bottom)%Q).
Proof.
  intros Hfull c. cbn [c normalizeCrop crop_top crop_bottom crop_height].
  set (safeMin := Qmin fullHeight (Qmax minHeight 1)).
  assert (Hs1 : (safeMin <= fullHeight)%Q) by apply Q.le_min_l.
  set (maxTop := Qmax 0 (fullHeight - safeMin)).
  assert (HmaxTop : (maxTop == fullHeight - safeMin)%Q)
    by (unfold maxTop; apply Q.max_r; lra).
  set (nTop := Qmax 0 (Qmin top maxTop)).
  assert (HnTop : (0 <= nTop)%Q /\ (nTop <= fullHeight - safeMin)%Q
                  /\ ((0 <= top)%Q -> (top <= fullHeight - safeMin)%Q ->
                      (nTop == top)%Q)).
  { unfold nTop. clearbody maxTop safeMin. repeat split; intros; qminmax; lra. }
  destruct HnTop as (Ht0 & Ht1 & Ht2).
  set (maxBottom := Qmax 0 (fullHeight - nTop - safeMin)).
  assert (HmaxBottom : (maxBottom == fullHeight - nTop - safeMin)%Q)
    by (unfold maxBottom; apply Q.max_r; lra).
  set (nBottom := Qmax 0 (Qmin bottom maxBottom)).
  assert (HnBottom : (0 <= nBottom)%Q /\ (nBottom <= fullHeight - nTop - safeMin)%Q
                     /\ ((0 <= bottom)%Q ->
                         (bottom <= fullHeight - nTop - safeMin)%Q ->
                         (nBottom == bottom)%Q)).
  { unfold nBottom. clearbody maxBottom nTop maxTop safeMin.
    repeat split; intros; qminmax; lra. }
  destruct HnBottom as (Hb0 & Hb1 & Hb2).
  assert (Hheight : (Qmax (fullHeight - nTop - nBottom) safeMin
                     == fullHeight - nTop - nBottom)%Q)
    by (apply Q.max_l; lra).
  split; [exact Ht0|]. split; [exact Hb0|].
  split; [rewrite Hheight; ring|].
  split; [rewrite Hheight; lra|].
  split; [rewrite Hheight; lra|].
  intros Htop Hbottom Hroom.
  assert (Hsafe : (safeMin <= Qmax minHeight 1)%Q) by apply Q.le_min_r.
  assert (Et : (nTop == top)%Q) by (apply Ht2; lra).
  assert (Eb : (nBottom == bottom)%Q) by (apply Hb2; lra).
  split; [exact Et|]. split; [exact Eb|].
  rewrite Hheight, Et, Eb. reflexivity.
Qed.

(** A cut of 1000 px from a canvas of 1080 px with a minimum of 360 px
    is reduced to 720 px. *)
Lemma normalizeCrop_inside_witness :
  (crop_top (normalizeCrop 1000 0 1080 360) == 720)%Q
  /\ (crop_top (normalizeCrop 1000 0 1080 360)
      + crop_height (normalizeCrop 1000 0 1080 360)
      + crop_bottom (normalizeCrop 1000 0 1080 360) == 1080)%Q.
Proof.
  split; [vm_compute; reflexivity|].
  apply (normalizeCrop_inside 1000 0 1080 360). discriminate.
Defined.

(** ** Alignment and user offset *)



Lemma alignLayout_keeps layout safeRect characterRect :
  success (alignLayout layout safeRect characterRect) = success layout
  /\ warnings (alignLayout layout safeRect characterRect) = warnings layout.
Proof.
  unfold alignLayout.
  destruct (negb (success layout) || Nat.eqb (length (columnHeights layout)) 0);
    [split; reflexivity|].
  destruct (Qleb (maxOf (columnHeights layout)) 0); [split; reflexivity|].
  match goal with
  | |- context [Qleb (Qmin ?a ?b) 0] => destruct (Qleb (Qmin a b) 0)
  end; split; reflexivity.
Qed.

Lemma alignLayout_failure layout safeRect characterRect :
  success layout = false -> alignLayout layout safeRect characterRect = layout.
Proof. intros H. unfold alignLayout. rewrite H. reflexivity. Qed.

(** X9. [applyTextOffset] returns a failed layout, and any layout when
    both offsets are zero, unchanged.  Otherwise it moves every
    placement by exactly the offset, keeps their order and sizes and all
    other fields, and appends the boundary warning exactly when some
    moved placement has an edge outside the safe rectangle and the
    warning is not yet in the list; with no placements it never warns. *)
Theorem applyTextOffset_moves (layout : LayoutResult) (offsetX offsetY : Q)
    (safeRect : Rect) :
  (success layout = false -> applyTextOffset layout offsetX offsetY safeRect = layout)
  /\ ((offsetX == 0)%Q -> (offsetY == 0)%Q ->
        applyTextOffset layout offsetX offsetY safeRect = layout)
  /\ (success layout = true -> ~ (offsetX == 0 /\ offsetY == 0)%Q ->
        applyTextOffset layout offsetX offsetY safeRect
        = {| success := success layout;
             placements := map (moveBy offsetX offsetY) (placements layout);
             fontSize := fontSize layout;
             columns := columns layout;
             columnHeights := columnHeights layout;
             warnings :=
               if existsb (sticksOut safeRect)
                    (map (moveBy offsetX offsetY) (placements layout))
                  && negb (includes (warnings layout) WARN_OUTSIDE_SAFE_RECT)
               then warnings layout ++ [WARN_OUTSIDE_SAFE_RECT]
               else warnings layout |}).
Proof.
  split; [|split].
  - intros H. unfold applyTextOffset. rewrite H. reflexivity.
  - intros Hx Hy. unfold applyTextOffset.
    apply Qeq_bool_iff in Hx, Hy. rewrite Hx, Hy.
    destruct (negb (success layout)); reflexivity.
  - intros Hs Hoff. apply offset_nonzero in Hoff.
    unfold applyTextOffset. rewrite Hs, Hoff. cbn [negb].
    destruct (movePlacements_spec offsetX offsetY safeRect (placements layout)
                noBounds) as [Hf Ho].
    destruct (movePlacements _ _ _ _) as [moved b]. cbn [fst snd] in Hf, Ho.
    rewrite Ho, Hf. cbn [outsideSafeRect noBounds minX maxX minY maxY ext_ltb ext_gtb
                          orb].
    destruct (existsb _ _); [|reflexivity].
    destruct (includes _ _); reflexivity.
Qed.

(** A placement inside the rectangle after the move, and one pushed out
    of it. *)
Lemma applyTextOffset_moves_witness :
  warnings (applyTextOffset (sampleLayout [samplePlacement 10 0 20 18] [])
              30 0 (sampleRect 100 100)) = []
  /\ map p_x (placements (applyTextOffset
                            (sampleLayout [samplePlacement 10 0 20 18] [])
                            30 0 (sampleRect 100 100)))
     = [(10 + 30)%Q].
Proof.
  destruct (applyTextOffset_moves (sampleLayout [samplePlacement 10 0 20 18] [])
              30 0 (sampleRect 100 100)) as (_ & _ & H).
  rewrite H.
  - split; vm_compute; reflexivity.
  - reflexivity.
  - intros [E _]. discriminate E.
Defined.

(** ** Edge cases of the search *)

Section SearchEdges.

Variable measureText : Font -> string -> TextMetrics.
Variable tokens : list LayoutToken.
Variable config : LayoutConfig.
Variable safeRect : Rect.

Local Abbreviation feas := (feasible measureText tokens safeRect config).
Local Abbreviation warnOf := (warningsOf measureText tokens safeRect config).
Local Abbreviation sizes :=
  (fontSizes (cfg_minFontSize config) (cfg_fontSize config)).

Lemma warningsOf_kinds tried w :
  In w (warnOf tried) -> w = WARN_TOO_NARROW \/ w = WARN_OVERFLOW.
Proof.
  rewrite (warningsOf_failed measureText tokens config safeRect).
  rewrite in_map_iff. intros (cf & <- & _).
  destruct (Qleb _ 20); [left|right]; reflexivity.
Qed.

Lemma warningsOf_all_failed tried :
  (forall c g, In (c, g) tried -> feas c g = false) ->
  length (warnOf tried) = length tried.
Proof.
  intros Hfail. rewrite (warningsOf_failed measureText tokens config safeRect).
  rewrite length_map. f_equal.
  induction tried as [|[c g] tried IH]; [reflexivity|].
  cbn [List.filter fst snd]. rewrite (Hfail c g) by (left; reflexivity).
  cbn [negb]. f_equal. apply IH. intros c' g' H. apply Hfail. right. exact H.
Qed.

Lemma warningsOf_feasible c g :
  feas c g = true -> warnOf [(c, g)] = [].
Proof.
  intros H. rewrite (warningsOf_failed measureText tokens config safeRect).
  cbn [List.filter fst snd]. rewrite H. reflexivity.
Qed.

Lemma searchOrder_head autoColumns :
  searchOrder config (columnCandidates config autoColumns)
  = map (pair 1%nat) sizes
    ++ searchOrder config (seq 2 (columnLimit config autoColumns - 1)).
Proof.
  rewrite columnCandidates_seq.
  pose proof (columnLimit_positive config autoColumns) as Hpos.
  destruct (columnLimit config autoColumns) as [|n]; [lia|].
  replace (S n - 1)%nat with n by lia. reflexivity.
Qed.

Lemma searchOrder_no_sizes l : sizes = [] -> searchOrder config l = [].
Proof.
  intros E. unfold searchOrder. rewrite E.
  induction l as [|c l IH]; [reflexivity|exact IH].
Qed.

End SearchEdges.

(** X10. On a safe rectangle of positive size, [autoLayout] returns the
    generic does-not-fit message exactly when the starting font size is
    below the minimum font size; it then makes no attempt and no
    measurement and fails with that message alone. *)
Theorem autoLayout_does_not_fit (measureText : Font -> string -> TextMetrics)
    (tokens : list LayoutToken) (config : LayoutConfig) (safeRect : Rect)
    (autoColumns : bool) :
  ~ degenerate safeRect ->
  ((cfg_fontSize config < cfg_minFontSize config)%Q ->
     autoLayout measureText tokens config safeRect autoColumns
     = ({| success := false;
           placements := [];
           fontSize := cfg_minFontSize config;
           columns := 1;
           columnHeights := [];
           warnings := [WARN_DOES_NOT_FIT] |}, []))
  /\ (In WARN_DOES_NOT_FIT
        (warnings (fst (autoLayout measureText tokens config safeRect autoColumns))) ->
      (cfg_fontSize config < cfg_minFontSize config)%Q).
Proof.
  intros Hrect.
  rewrite (autoLayout_regular measureText tokens config safeRect autoColumns Hrect).
  destruct (columnLoop_spec measureText tokens safeRect config
              (createMeasureContext (cfg_fontFamily config) (cfg_fontSize config))
              (columnCandidates config autoColumns) [])
    as (tried & rest & Horder & Hev & Hres).
  rewrite searchOrder_head in Horder.
  split.
  - intros Hlt.
    assert (Es : fontSizes (cfg_minFontSize config) (cfg_fontSize config) = []).
    { rewrite fontSizes_step. unfold Qgeb.
      replace (Qleb (cfg_minFontSize config) (cfg_fontSize config)) with false;
        [reflexivity|]. symmetry. apply Qleb_gt. exact Hlt. }
    assert (Et : tried = [] /\ rest = []).
    { rewrite (searchOrder_no_sizes config _ Es), Es in Horder.
      cbn [map app] in Horder. symmetry in Horder. apply app_eq_nil in Horder.
      exact Horder. }
    destruct Et as [-> ->].
    destruct (columnLoop _ _ _ _ _ _ _) as [result events]. cbn [fst snd] in *.
    destruct result as [s p f c h w]. cbn [success warnings placements fontSize
      columns columnHeights] in Hres.
    destruct s.
    + destruct Hres as (_ & before & _ & _ & Hb & _). destruct before; discriminate.
    + destruct Hres as (_ & _ & Hw & Hp & Hh & Hf & Hc). cbn in Hw. subst.
      reflexivity.
  - intros Hin.
    destruct (success _).
    + destruct Hres as (Hw & _). rewrite Hw in Hin. cbn [app] in Hin.
      apply warningsOf_kinds in Hin. destruct Hin as [H|H]; discriminate H.
    + destruct Hres as (-> & Hfail & Hw & _). rewrite Hw in Hin. cbn [app] in Hin.
      rewrite app_nil_r in Horder.
      destruct (Nat.ltb 0 (length (warningsOf measureText tokens safeRect config
                                     tried))) eqn:El.
      * apply warningsOf_kinds in Hin. destruct Hin as [H|H]; discriminate H.
      * rewrite (warningsOf_all_failed _ _ _ _ _ Hfail) in El.
        destruct tried; [|discriminate].
        apply app_eq_nil in Horder. destruct Horder as [Hm _].
        rewrite fontSizes_step in Hm.
        destruct (Qgeb (cfg_fontSize config) (cfg_minFontSize config)) eqn:E;
          [discriminate|].
        apply Qleb_gt. exact E.
Qed.

Lemma autoLayout_does_not_fit_witness :
  ~ degenerate (sampleRect 100 100)
  /\ warnings (fst (autoLayout (plainMetrics 10) [TokText "ab"]
                      (sampleConfig 10 12 1.5 2) (sampleRect 100 100) true))
     = [WARN_DOES_NOT_FIT].
Proof.
  assert (H : ~ degenerate (sampleRect 100 100))
    by (apply sampleRect_regular; reflexivity).
  split; [exact H|].
  destruct (autoLayout_does_not_fit (plainMetrics 10) [TokText "ab"]
              (sampleConfig 10 12 1.5 2) (sampleRect 100 100) true H) as [Hd _].
  rewrite Hd; reflexivity.
Defined.

(** X11. On a safe rectangle of positive size the warnings of
    [autoLayout] are empty exactly when the very first attempt, one
    column at the configured font size, succeeds; the result then has
    one column and that font size. *)
Theorem autoLayout_no_warnings (measureText : Font -> string -> TextMetrics)
    (tokens : list LayoutToken) (config : LayoutConfig) (safeRect : Rect)
    (autoColumns : bool) :
  ~ degenerate safeRect ->
  (warnings (fst (autoLayout measureText tokens config safeRect autoColumns)) = []
   <-> success (fst (autoLayout measureText tokens config safeRect autoColumns))
       = true
       /\ attempts (snd (autoLayout measureText tokens config safeRect autoColumns))
          = [(1%nat, cfg_fontSize config)])
  /\ (warnings (fst (autoLayout measureText tokens config safeRect autoColumns)) = [] ->
        columns (fst (autoLayout measureText tokens config safeRect autoColumns))
        = 1%nat
        /\ fontSize (fst (autoLayout measureText tokens config safeRect autoColumns))
           = cfg_fontSize config).
Proof.
  intros Hrect.
  rewrite (autoLayout_regular measureText tokens config safeRect autoColumns Hrect).
  destruct (columnLoop_spec measureText tokens safeRect config
              (createMeasureContext (cfg_fontFamily config) (cfg_fontSize config))
              (columnCandidates config autoColumns) [])
    as (tried & rest & Horder & Hev & Hres).
  rewrite searchOrder_head in Horder.
  rewrite Hev, attempts_eventsOf.
  assert (Hfirst : forall c f l, tried = (c, f) :: l ->
                                 (c, f) = (1%nat, cfg_fontSize config)).
  { intros c f l ->.
    destruct (fontSizes (cfg_minFontSize config) (cfg_fontSize config))
      as [|s0 ss] eqn:Es.
    - rewrite (searchOrder_no_sizes config _ Es) in Horder. discriminate.
    - rewrite fontSizes_step in Es.
      destruct (Qgeb (cfg_fontSize config) (cfg_minFontSize config));
        [|discriminate].
      injection Es as <- _. cbn in Horder. injection Horder as <- <-.
      reflexivity. }
  destruct (success _).
  - destruct Hres as (Hw & before & pre & post & Htried & Hfeas & Hbefore & _).
    cbn [app] in Hw.
    assert (Hforward : warnings (fst (columnLoop measureText tokens config safeRect
               (createMeasureContext (cfg_fontFamily config) (cfg_fontSize config))
               (columnCandidates config autoColumns) [])) = [] ->
             before = []).
    { intros E. rewrite Hw, Htried, warningsOf_app in E.
      apply app_eq_nil in E. destruct E as [E _].
      apply (f_equal (@length string)) in E.
      rewrite (warningsOf_all_failed _ _ _ _ _ Hbefore) in E.
      destruct before; [reflexivity|discriminate]. }
    split.
    + split.
      * intros E. split; [reflexivity|].
        rewrite (Hforward E) in Htried. cbn [app] in Htried.
        rewrite Htried at 1. rewrite (Hfirst _ _ _ Htried). reflexivity.
      * intros [_ Ht]. rewrite Hw, Ht.
        apply warningsOf_feasible.
        rewrite Ht in Htried. destruct before as [|b before].
        -- cbn [app] in Htried. injection Htried as Hc Hf.
           rewrite <- Hc, <- Hf in Hfeas. exact Hfeas.
        -- destruct before; discriminate.
    + intros E. rewrite (Hforward E) in Htried. cbn [app] in Htried.
      pose proof (Hfirst _ _ _ Htried) as Hf. injection Hf as Hc Hs.
      split; assumption.
  - destruct Hres as (-> & Hfail & Hw & _). cbn [app] in Hw.
    assert (Hne : warnings (fst (columnLoop measureText tokens config safeRect
               (createMeasureContext (cfg_fontFamily config) (cfg_fontSize config))
               (columnCandidates config autoColumns) [])) <> []).
    { rewrite Hw. destruct (Nat.ltb 0 _) eqn:El; [|discriminate].
      intros E. rewrite E in El. discriminate. }
    split.
    + split; [intros E; contradiction|intros [E _]; discriminate].
    + intros E. contradiction.
Qed.

Lemma autoLayout_no_warnings_witness :
  ~ degenerate (sampleRect 100 100)
  /\ warnings (fst (autoLayout (plainMetrics 10) [TokText "ab"]
                      (sampleConfig 16 12 1.5 2) (sampleRect 100 100) true)) = []
  /\ columns (fst (autoLayout (plainMetrics 10) [TokText "ab"]
                     (sampleConfig 16 12 1.5 2) (sampleRect 100 100) true)) = 1%nat.
Proof.
  assert (H : ~ degenerate (sampleRect 100 100))
    by (apply sampleRect_regular; reflexivity).
  split; [exact H|].
  assert (E : warnings (fst (autoLayout (plainMetrics 10) [TokText "ab"]
                      (sampleConfig 16 12 1.5 2) (sampleRect 100 100) true)) = [])
    by (vm_compute; reflexivity).
  split; [exact E|].
  destruct (autoLayout_no_warnings (plainMetrics 10) [TokText "ab"]
              (sampleConfig 16 12 1.5 2) (sampleRect 100 100) true H) as [_ Hc].
  apply Hc. exact E.
Defined.

Lemma columnCandidates_one config autoColumns :
  autoColumns = false \/ (cfg_maxColumns config < 2)%Q ->
  columnCandidates config autoColumns = [1%nat].
Proof.
  intros [->|Hlt]; [reflexivity|].
  destruct autoColumns; [|reflexivity].
  unfold columnCandidates.
  assert (E : Qfloor (Qmax 1 (cfg_maxColumns config)) = 1%Z).
  { assert (H1 : (1 <= Qfloor (Qmax 1 (cfg_maxColumns config)))%Z).
    { change 1%Z with (Qfloor 1). apply Qfloor_resp_le. apply Q.le_max_l. }
    assert (H2 : (Qfloor (Qmax 1 (cfg_maxColumns config)) < 2)%Z).
    { rewrite Zlt_Qlt. eapply Qle_lt_trans; [apply Qfloor_le|].
      change (inject_Z 2) with 2%Q. qminmax. lra. }
    lia. }
  rewrite E. reflexivity.
Qed.

(** X12. Without [autoColumns], and also with [autoColumns] when
    maxColumns is below 2, [autoLayout] only ever tries one column: it
    returns what it returns without [autoColumns], every attempt is at
    column count 1, and so is the result. *)
Theorem autoLayout_one_column (measureText : Font -> string -> TextMetrics)
    (tokens : list LayoutToken) (config : LayoutConfig) (safeRect : Rect)
    (autoColumns : bool) :
  autoColumns = false \/ (cfg_maxColumns config < 2)%Q ->
  autoLayout measureText tokens config safeRect autoColumns
  = autoLayout measureText tokens config safeRect false
  /\ columns (fst (autoLayout measureText tokens config safeRect autoColumns))
     = 1%nat
  /\ (forall c f,
        In (c, f)
          (attempts (snd (autoLayout measureText tokens config safeRect
                            autoColumns))) ->
        c = 1%nat).
Proof.
  intros H. pose proof (columnCandidates_one config autoColumns H) as Hc.
  assert (E : autoLayout measureText tokens config safeRect autoColumns
              = autoLayout measureText tokens config safeRect false).
  { unfold autoLayout. rewrite Hc. reflexivity. }
  split; [exact E|].
  unfold autoLayout.
  destruct (Qleb (rect_width safeRect) 0 || Qleb (rect_height safeRect) 0).
  { split; [reflexivity|]. intros c f []. }
  destruct (columnLoop_spec measureText tokens safeRect config
              (createMeasureContext (cfg_fontFamily config) (cfg_fontSize config))
              (columnCandidates config autoColumns) [])
    as (tried & rest & Horder & Hev & Hres).
  rewrite Hev, attempts_eventsOf. rewrite Hc in Horder.
  assert (Hall : forall c f, In (c, f) tried -> c = 1%nat).
  { intros c f Hin.
    assert (Hin' : In (c, f) (searchOrder config [1%nat]))
      by (rewrite Horder; apply in_or_app; left; exact Hin).
    unfold searchOrder in Hin'. cbn [flat_map] in Hin'. rewrite app_nil_r in Hin'.
    apply in_map_iff in Hin'. destruct Hin' as (g & [= <- _] & _). reflexivity. }
  split; [|exact Hall].
  destruct (success _).
  - destruct Hres as (_ & before & _ & _ & Htried & _).
    apply (Hall _ (fontSize (fst (columnLoop measureText tokens config safeRect
             (createMeasureContext (cfg_fontFamily config) (cfg_fontSize config))
             (columnCandidates config autoColumns) [])))).
    rewrite Htried. apply in_or_app. right. left. reflexivity.
  - destruct Hres as (_ & _ & _ & _ & _ & _ & Hcol). exact Hcol.
Qed.

Lemma autoLayout_one_column_witness :
  ((3 # 2) < 2)%Q
  /\ autoLayout (plainMetrics 10) [TokText "ab"] (sampleConfig 16 12 1.5 (3 # 2))
       (sampleRect 100 10) true
     = autoLayout (plainMetrics 10) [TokText "ab"] (sampleConfig 16 12 1.5 (3 # 2))
         (sampleRect 100 10) false.
Proof.
  split; [reflexivity|].
  apply (autoLayout_one_column (plainMetrics 10) [TokText "ab"]
           (sampleConfig 16 12 1.5 (3 # 2)) (sampleRect 100 10) true).
  right. reflexivity.
Defined.

Lemma autoLayout_warning_kinds measureText tokens config safeRect autoColumns w :
  ~ degenerate safeRect ->
  In w (warnings (fst (autoLayout measureText tokens config safeRect autoColumns))) ->
  w = WARN_TOO_NARROW \/ w = WARN_OVERFLOW \/ w = WARN_DOES_NOT_FIT.
Proof.
  intros Hrect.
  rewrite (autoLayout_regular measureText tokens config safeRect autoColumns Hrect).
  destruct (columnLoop_spec measureText tokens safeRect config
              (createMeasureContext (cfg_fontFamily config) (cfg_fontSize config))
              (columnCandidates config autoColumns) [])
    as (tried & rest & _ & _ & Hres).
  destruct (success _).
  - destruct Hres as (-> & _). cbn [app]. intros H.
    apply warningsOf_kinds in H. tauto.
  - destruct Hres as (_ & _ & -> & _). cbn [app].
    destruct (Nat.ltb 0 _).
    + intros H. apply warningsOf_kinds in H. tauto.
    + intros [<-|[]]. right. right. reflexivity.
Qed.

Lemma computeScene_safeRect measureText canvasWidth canvasHeight characterImage
    characterOptions text inlineAssets layoutConfig options :
  sc_safeRect
    (fst (computeScene measureText canvasWidth canvasHeight characterImage
            characterOptions text inlineAssets layoutConfig options))
  = computeSafeRect canvasWidth canvasHeight
      match characterImage with
      | Some image =>
          Some (computeCharacterRect canvasWidth canvasHeight image characterOptions)
      | None => None
      end
      (so_outerPadding options) (so_safePadding options).
Proof.
  unfold computeScene. destruct (autoLayout _ _ _ _ _). reflexivity.
Qed.

(** X13. [computeScene] hands a failed layout through alignment and
    offset unchanged, reports the warnings of its layout, and never
    reports the invalid-safe-rectangle warning, because the safe
    rectangle it computes is never degenerate; apart from the boundary
    warning of the offset step, its warnings are those of [autoLayout]. *)
Theorem computeScene_warnings (measureText : Font -> string -> TextMetrics)
    (canvasWidth canvasHeight : Q) (characterImage : option Image)
    (characterOptions : CharacterOptions) (text : string)
    (inlineAssets : list InlineAsset) (layoutConfig : LayoutConfig)
    (options : SceneOptions) :
  let scene :=
    fst (computeScene measureText canvasWidth canvasHeight characterImage
           characterOptions text inlineAssets layoutConfig options) in
  let raw :=
    fst (autoLayout measureText (tokenizeText text inlineAssets) layoutConfig
           (sc_safeRect scene) (so_autoColumns options)) in
  sc_warnings scene = warnings (sc_layout scene)
  /\ ~ degenerate (sc_safeRect scene)
  /\ success (sc_layout scene) = success raw
  /\ (success raw = false -> sc_layout scene = raw)
  /\ (sc_warnings scene = warnings raw
      \/ sc_warnings scene = warnings raw ++ [WARN_OUTSIDE_SAFE_RECT])
  /\ ~ In WARN_INVALID_SAFE_RECT (sc_warnings scene).
Proof.
  intros scene raw. unfold raw, scene. rewrite computeScene_safeRect.
  unfold computeScene.
  set (characterRect := match characterImage with
                        | Some image =>
                            Some (computeCharacterRect canvasWidth canvasHeight image
                                    characterOptions)
                        | None => None
                        end).
  set (safeRect := computeSafeRect canvasWidth canvasHeight characterRect
                     (so_outerPadding options) (so_safePadding options)).
  assert (Hrect : ~ degenerate safeRect).
  { unfold safeRect.
    destruct (computeSafeRect_cases_any canvasWidth canvasHeight characterRect
                (so_outerPadding options) (so_safePadding options)) as [Hw Hh].
    intros [Hd|Hd]; lra. }
  pose proof (autoLayout_warning_kinds measureText (tokenizeText text inlineAssets)
                layoutConfig safeRect (so_autoColumns options)) as Hkinds.
  destruct (autoLayout measureText (tokenizeText text inlineAssets) layoutConfig
              safeRect (so_autoColumns options)) as [rawLayout events].
  cbn [fst snd sc_warnings sc_layout sc_safeRect] in *.
  destruct (alignLayout_keeps rawLayout safeRect characterRect) as [Has Haw].
  set (aligned := alignLayout rawLayout safeRect characterRect) in *.
  assert (Hoff : warnings (applyTextOffset aligned (so_textOffsetX options)
                             (so_textOffsetY options) safeRect)
                 = warnings aligned
                 \/ warnings (applyTextOffset aligned (so_textOffsetX options)
                                (so_textOffsetY options) safeRect)
                    = warnings aligned ++ [WARN_OUTSIDE_SAFE_RECT]).
  { unfold applyTextOffset. destruct (negb (success aligned)); [left; reflexivity|].
    destruct (_ && _); [left; reflexivity|].
    destruct (movePlacements _ _ _ _) as [moved b]. cbn [warnings].
    destruct (outsideSafeRect b safeRect); [|left; reflexivity].
    destruct (negb _); [right|left]; reflexivity. }
  rewrite Haw in Hoff.
  split; [reflexivity|]. split; [exact Hrect|].
  split; [rewrite applyTextOffset_success; exact Has|].
  split.
  { intros Hfail. unfold aligned.
    rewrite (alignLayout_failure _ _ _ Hfail). unfold applyTextOffset.
    rewrite Hfail. reflexivity. }
  split; [exact Hoff|].
  intros Hin. destruct Hoff as [E|E]; rewrite E in Hin.
  - destruct (Hkinds _ Hrect Hin) as [H|[H|H]]; discriminate H.
  - apply in_app_or in Hin. destruct Hin as [Hin|[H|[]]].
    + destruct (Hkinds _ Hrect Hin) as [H|[H|H]]; discriminate H.
    + discriminate H.
Qed.

(** ** More on the tokenizer *)

Lemma regex_matches_step s offset :
  regex_matches s offset
  = match match_here s with
    | Some (i, r) =>
        {| m_match := marker i; m_assetId := i; m_offset := offset |}
        :: regex_matches r (offset + String.length (marker i))
    | None =>
        match s with
        | EmptyString => []
        | String _ s' => regex_matches s' (S offset)
        end
    end.
Proof.
  funelim (regex_matches s offset); clear Heqcall;
    try match goal with H : match_here _ = _ |- _ => rewrite H end; reflexivity.
Qed.

Lemma regex_matches_marker s offset m :
  In m (regex_matches s offset) -> m_match m = marker (m_assetId m).
Proof.
  funelim (regex_matches s offset); clear Heqcall.
  - intros [<-|Hin]; [reflexivity|]. eauto.
  - intros [].
  - eauto.
Qed.

Lemma marker_truthy i : truthy (marker i) = true.
Proof. reflexivity. Qed.

Lemma on_match_nonempty input assetMap results lastIndex m :
  Forall nonEmptyToken results ->
  truthy (m_match m) = true ->
  Forall nonEmptyToken (fst (on_match input assetMap (results, lastIndex) m)).
Proof.
  intros Hr Hm. unfold on_match.
  set (results1 := if Nat.ltb lastIndex (m_offset m) then _ else results).
  assert (H1 : Forall nonEmptyToken results1).
  { unfold results1. destruct (Nat.ltb _ _); [|exact Hr]. cbv zeta.
    destruct (truthy (slice input lastIndex (m_offset m))) eqn:E; [|exact Hr].
    apply Forall_app. split; [exact Hr|]. constructor; [exact E|constructor]. }
  destruct (assetMap !! m_assetId m); cbn [fst]; apply Forall_app;
    (split; [exact H1|]); constructor; try constructor; try exact I; exact Hm.
Qed.

Lemma fold_on_match_nonempty input assetMap ms :
  forall st,
    Forall nonEmptyToken (fst st) ->
    (forall m, In m ms -> truthy (m_match m) = true) ->
    Forall nonEmptyToken (fst (fold_left (on_match input assetMap) ms st)).
Proof.
  induction ms as [|m ms IH]; intros [results lastIndex] Hr Hm; [exact Hr|].
  cbn [fold_left]. apply IH.
  - destruct (on_match input assetMap (results, lastIndex) m) eqn:E.
    pose proof (on_match_nonempty input assetMap results lastIndex m Hr
                  (Hm m (or_introl eq_refl))) as H.
    rewrite E in H. exact H.
  - intros m' Hin. apply Hm. right. exact Hin.
Qed.

Lemma tokenizeText_rendered input assets :
  rendered (tokenizeText input assets) = input.
Proof.
  destruct (scan_rendered input assets input 0 [] "") as [results [pending [Hf Hin]]];
    [reflexivity | reflexivity |].
  unfold tokenizeText. change (String.length (rendered [])) with 0%nat in Hf.
  rewrite Hf.
  assert (Htail : slice_from input (String.length (rendered results)) = pending)
    by (rewrite Hin; apply slice_from_tail).
  rewrite Htail. clear Htail.
  destruct (truthy pending) eqn:Ht.
  - destruct (results ++ [TokText pending]) eqn:E.
    + destruct results; discriminate.
    + rewrite <- E, rendered_snoc. symmetry. exact Hin.
  - apply truthy_false in Ht. subst pending. rewrite append_nil_r in Hin.
    destruct results; [|symmetry; exact Hin].
    rewrite Hin. reflexivity.
Qed.

Lemma tokenizeText_cases input assets :
  tokenizeText input assets = [TokText ""]
  \/ (tokenizeText input assets <> []
      /\ Forall nonEmptyToken (tokenizeText input assets)).
Proof.
  unfold tokenizeText.
  pose proof (fold_on_match_nonempty input (buildAssetMap assets)
                (regex_matches input 0) ([], 0%nat)) as H.
  destruct (fold_left _ _ _) as [results lastIndex]. cbn [fst] in H.
  assert (Hr : Forall nonEmptyToken results).
  { apply H; [constructor|]. intros m Hm.
    rewrite (regex_matches_marker _ _ _ Hm). reflexivity. }
  destruct (truthy (slice_from input lastIndex)) eqn:Et.
  - right. destruct (results ++ _) eqn:E.
    + destruct results; discriminate.
    + rewrite <- E. split; [destruct results; discriminate|].
      apply Forall_app. split; [exact Hr|]. constructor; [exact Et|constructor].
  - destruct results as [|t results]; [left; reflexivity|].
    right. split; [discriminate|exact Hr].
Qed.

(** X14. [tokenizeText] never returns an empty list, and the only empty
    [Text] token it ever produces is the single token of the empty input:
    for any other input every [Text] token has content. *)
Theorem tokenizeText_tokens_nonempty (input : string) (assets : list InlineAsset) :
  tokenizeText input assets <> []
  /\ (tokenizeText input assets = [TokText ""] <-> input = "")
  /\ (input <> "" ->
      forall v, In (TokText v) (tokenizeText input assets) -> v <> "").
Proof.
  pose proof (tokenizeText_rendered input assets) as Hrend.
  destruct (tokenizeText_cases input assets) as [E|[Hne Hall]].
  - rewrite E in *. cbn in Hrend. split; [discriminate|].
    split; [split; [intros _; symmetry; exact Hrend|reflexivity]|].
    intros Hin. exfalso. apply Hin. symmetry. exact Hrend.
  - split; [exact Hne|]. split.
    + split.
      * intros E. rewrite E in Hrend. symmetry. exact Hrend.
      * intros ->. destruct (tokenizeText "" assets) as [|t l] eqn:E;
          [contradiction|]. vm_compute in E. exact (eq_sym E).
    + intros _ v Hin ->. rewrite List.Forall_forall in Hall.
      specialize (Hall _ Hin). discriminate Hall.
Qed.

Lemma tokenizeText_tokens_nonempty_witness :
  List.Forall (fun t => t <> TokText "")
    (tokenizeText "abc[[asset:x1]]" [asset_x1]).
Proof.
  apply List.Forall_forall. intros t Hin ->.
  destruct (tokenizeText_tokens_nonempty "abc[[asset:x1]]" [asset_x1]) as (_ & _ & H).
  apply (H ltac:(discriminate) "" Hin). reflexivity.
Defined.

(** What the map built from [assets] holds under an id. *)
Lemma buildAssetMap_last assets :
  forall i a, buildAssetMap assets !! i = Some a ->
              asset_id a = i /\ lastWithId assets a.
Proof.
  induction assets as [|x assets IH] using rev_ind; intros i a.
  - unfold buildAssetMap. cbn. rewrite lookup_empty. discriminate.
  - unfold buildAssetMap in *. rewrite fold_left_app. cbn [fold_left].
    rewrite lookup_insert. destruct (decide (asset_id x = i)) as [E|E].
    + intros [= <-]. split; [exact E|].
      exists assets, []. split; [reflexivity|]. intros b [].
    + intros H. destruct (IH i a H) as (Hid & pre & post & -> & Hpost).
      split; [exact Hid|].
      exists pre, (post ++ [x]). split; [rewrite <- app_assoc; reflexivity|].
      intros b Hb. apply in_app_or in Hb. destruct Hb as [Hb|[<-|[]]].
      * apply Hpost. exact Hb.
      * congruence.
Qed.

Lemma on_match_assets input assetMap results lastIndex m a :
  In (TokAsset a) (fst (on_match input assetMap (results, lastIndex) m)) ->
  In (TokAsset a) results \/ assetMap !! m_assetId m = Some a.
Proof.
  unfold on_match.
  set (results1 := if Nat.ltb lastIndex (m_offset m) then _ else results).
  assert (H1 : In (TokAsset a) results1 -> In (TokAsset a) results).
  { unfold results1. destruct (Nat.ltb _ _); [|tauto]. cbv zeta.
    destruct (truthy _); [|tauto]. intros H. apply in_app_or in H.
    destruct H as [H|[H|[]]]; [exact H|discriminate H]. }
  destruct (assetMap !! m_assetId m) as [b|]; cbn [fst]; intros H;
    apply in_app_or in H; destruct H as [H|[H|[]]]; auto.
  - right. congruence.
  - discriminate H.
Qed.

Lemma fold_on_match_assets input assetMap ms a :
  forall st,
    In (TokAsset a) (fst (fold_left (on_match input assetMap) ms st)) ->
    In (TokAsset a) (fst st)
    \/ exists m, In m ms /\ assetMap !! m_assetId m = Some a.
Proof.
  induction ms as [|m ms IH]; intros [results lastIndex]; cbn [fold_left].
  - tauto.
  - intros H. apply IH in H. destruct H as [H|(m' & Hm' & Hl)].
    + destruct (on_match input assetMap (results, lastIndex) m) eqn:E.
      pose proof (on_match_assets input assetMap results lastIndex m a) as Hstep.
      rewrite E in Hstep. destruct (Hstep H) as [Hr|Hl]; [left; exact Hr|].
      right. exists m. split; [left; reflexivity|exact Hl].
    + right. exists m'. split; [right; exact Hm'|exact Hl].
Qed.

(** X15. Every asset token [tokenizeText] returns stands for a marker of
    the input and carries an asset of the list with the id of that
    marker; when several assets share the id, it is the last of them. *)
Theorem tokenizeText_asset_tokens (input : string) (assets : list InlineAsset)
    (a : InlineAsset) :
  In (TokAsset a) (tokenizeText input assets) ->
  In a assets
  /\ lastWithId assets a
  /\ exists m, In m (regex_matches input 0)
               /\ m_assetId m = asset_id a
               /\ m_match m = marker (asset_id a).
Proof.
  unfold tokenizeText.
  pose proof (fold_on_match_assets input (buildAssetMap assets)
                (regex_matches input 0) a ([], 0%nat)) as H.
  destruct (fold_left _ _ _) as [results lastIndex]. cbn [fst] in H.
  intros Hin.
  assert (Hr : In (TokAsset a) results).
  { destruct (truthy (slice_from input lastIndex)).
    - destruct (results ++ _) eqn:E.
      + destruct Hin as [Hin|[]]. discriminate Hin.
      + rewrite <- E in Hin. apply in_app_or in Hin.
        destruct Hin as [Hin|[Hin|[]]]; [exact Hin|discriminate Hin].
    - destruct results; [|exact Hin]. destruct Hin as [Hin|[]]. discriminate Hin. }
  destruct (H Hr) as [[]|(m & Hm & Hl)].
  destruct (buildAssetMap_last assets _ _ Hl) as (Hid & Hlast).
  split.
  { destruct Hlast as (pre & post & -> & _). apply in_or_app. right. left.
    reflexivity. }
  split; [exact Hlast|].
  exists m. split; [exact Hm|]. split; [symmetry; exact Hid|].
  rewrite (regex_matches_marker _ _ _ Hm), Hid. reflexivity.
Qed.

(** Two assets with the id [x1]: the marker gets the second. *)
Lemma tokenizeText_asset_tokens_witness :
  lastWithId
    [asset_x1;
     {| asset_id := "x1"; asset_name := "y"; asset_dataUrl := "";
        naturalWidth := 1; naturalHeight := 1 |}]
    {| asset_id := "x1"; asset_name := "y"; asset_dataUrl := "";
       naturalWidth := 1; naturalHeight := 1 |}.
Proof.
  apply (tokenizeText_asset_tokens "a[[asset:x1]]"
           [asset_x1;
            {| asset_id := "x1"; asset_name := "y"; asset_dataUrl := "";
               naturalWidth := 1; naturalHeight := 1 |}]).
  vm_compute. right. left. reflexivity.
Defined.

(** *** Markers are found *)

Lemma strip_prefix_append p s : strip_prefix p (p +:+ s) = Some s.
Proof.
  induction p as [|c p IH]; [reflexivity|].
  rewrite append_cons. cbn [strip_prefix]. rewrite Ascii.eqb_refl. exact IH.
Qed.

Lemma lacks_cons c x s :
  lacks c (String x s) = negb (Ascii.eqb x c) && lacks c s.
Proof. reflexivity. Qed.

Lemma span_id_stop i r :
  lacks "]"%char i = true ->
  span_id (i +:+ String "]"%char r) = (i, String "]"%char r).
Proof.
  induction i as [|c i IH]; intros H.
  - reflexivity.
  - rewrite lacks_cons in H. apply andb_true_iff in H. destruct H as [Hc Hi].
    rewrite append_cons. cbn [span_id]. unfold is_rbracket.
    apply negb_true_iff in Hc. rewrite Hc, (IH Hi). reflexivity.
Qed.

Lemma match_here_marker i r :
  validId i -> match_here (marker i +:+ r) = Some (i, r).
Proof.
  intros [Hne Hi]. unfold match_here, marker.
  rewrite !append_assoc, strip_prefix_append.
  change (ASSET_SUFFIX +:+ r) with (String "]"%char (String "]"%char r)).
  rewrite (span_id_stop _ _ Hi).
  destruct i as [|c i]; [discriminate|]. reflexivity.
Qed.

Lemma match_here_other c s :
  Ascii.eqb c "["%char = false -> match_here (String c s) = None.
Proof.
  intros H. unfold match_here, ASSET_PREFIX. cbn [strip_prefix].
  rewrite Ascii.eqb_sym, H. reflexivity.
Qed.

Lemma regex_matches_plain p :
  lacks "["%char p = true ->
  forall s offset,
    regex_matches (p +:+ s) offset = regex_matches s (offset + String.length p).
Proof.
  induction p as [|c p IH]; intros H s offset.
  - rewrite append_nil_l. cbn. rewrite Nat.add_0_r. reflexivity.
  - rewrite lacks_cons in H. apply andb_true_iff in H. destruct H as [Hc Hp].
    apply negb_true_iff in Hc.
    rewrite append_cons, regex_matches_step, (match_here_other _ _ Hc), (IH Hp).
    f_equal. cbn. lia.
Qed.

Lemma regex_matches_none q offset :
  lacks "["%char q = true -> regex_matches q offset = [].
Proof.
  intros H. rewrite <- (append_nil_r q), (regex_matches_plain _ H).
  rewrite regex_matches_step. reflexivity.
Qed.

(** A marker with a valid id between two stretches of text without an
    opening bracket is found, and nothing else is. *)
Lemma tokenizeText_marker p i q assets :
  lacks "["%char p = true -> validId i -> lacks "["%char q = true ->
  tokenizeText (p +:+ marker i +:+ q) assets
  = textToken p
    ++ [marker_token (buildAssetMap assets)
          {| m_match := marker i; m_assetId := i;
             m_offset := String.length p |}]
    ++ textToken q.
Proof.
  intros Hp Hi Hq. unfold tokenizeText.
  rewrite (regex_matches_plain _ Hp), regex_matches_step, (match_here_marker _ _ Hi),
    (regex_matches_none _ _ Hq).
  cbn [fold_left Nat.add on_match m_offset m_match m_assetId].
  set (input := p +:+ marker i +:+ q).
  assert (Es : slice input 0 (String.length p) = p).
  { unfold slice, input. rewrite Nat.sub_0_r. apply substring_take. }
  assert (Et : slice_from input (String.length p + String.length (marker i)) = q).
  { unfold input. rewrite <- append_assoc, <- length_append. apply slice_from_tail. }
  rewrite Es, Et. unfold textToken, marker_token. cbn [m_assetId m_match].
  destruct p as [|c p]; cbn [String.length Nat.ltb Nat.leb truthy app].
  - destruct (buildAssetMap assets !! i); destruct (truthy q); reflexivity.
  - destruct (buildAssetMap assets !! i); destruct (truthy q); reflexivity.
Qed.

Lemma lacks_substring c s : forall n m, lacks c s = true -> lacks c (String.substring n m s) = true.
Proof.
  induction s as [|x s IH]; intros n m H.
  - destruct n, m; reflexivity.
  - rewrite lacks_cons in H. apply andb_true_iff in H. destruct H as [Hx Hs].
    destruct n as [|n]; cbn [String.substring].
    + destruct m as [|m]; [reflexivity|].
      rewrite lacks_cons, Hx. cbn [andb]. apply IH. exact Hs.
    + apply IH. exact Hs.
Qed.

Lemma fold_insert_keeps (post : list InlineAsset) i a :
  forall m : gmap string InlineAsset,
    m !! i = Some a ->
    (forall b, In b post -> asset_id b <> i) ->
    fold_left (fun m asset => <[asset_id asset := asset]> m) post m !! i = Some a.
Proof.
  induction post as [|x post IH]; intros m Hm Hpost; cbn [fold_left]; [exact Hm|].
  apply IH.
  - rewrite lookup_insert_ne; [exact Hm|]. apply Hpost. left. reflexivity.
  - intros b Hb. apply Hpost. right. exact Hb.
Qed.

Lemma buildAssetMap_lastWithId assets a :
  lastWithId assets a -> buildAssetMap assets !! asset_id a = Some a.
Proof.
  intros (pre & post & -> & Hpost). unfold buildAssetMap.
  rewrite fold_left_app. cbn [fold_left].
  apply fold_insert_keeps; [apply lookup_insert_eq|exact Hpost].
Qed.

(** X16. When the text of the editor holds no opening bracket and the
    id is valid (not empty, no closing bracket), the text
    [insertAssetToken] produces tokenizes into the text before the
    selection, the inserted token and the text after the selection, empty
    texts left out; the token is the asset itself when it is the one
    registered under the id, and the literal marker text when no asset
    has the id. *)
Theorem insertAssetToken_recognized (value : string)
    (selection : option (nat * nat)) (assetId : string)
    (assets : list InlineAsset) :
  lacks "["%char value = true ->
  validId assetId ->
  (forall a, asset_id a = assetId -> lastWithId assets a ->
     tokenizeText (insertAssetToken value selection assetId) assets
     = textToken (fst (aroundSelection value selection))
       ++ [TokAsset a]
       ++ textToken (snd (aroundSelection value selection)))
  /\ ((forall b, In b assets -> asset_id b <> assetId) ->
      tokenizeText (insertAssetToken value selection assetId) assets
      = textToken (fst (aroundSelection value selection))
        ++ [TokText (marker assetId)]
        ++ textToken (snd (aroundSelection value selection))).
Proof.
  intros Hvalue Hid.
  assert (Hshape : insertAssetToken value selection assetId
                   = fst (aroundSelection value selection) +:+ marker assetId
                     +:+ snd (aroundSelection value selection)).
  { destruct selection as [[start end_]|]; cbn [insertAssetToken aroundSelection fst snd].
    - reflexivity.
    - rewrite append_nil_r. reflexivity. }
  assert (Hbefore : lacks "["%char (fst (aroundSelection value selection)) = true).
  { destruct selection as [[start end_]|]; cbn [aroundSelection fst]; [|exact Hvalue].
    apply lacks_substring. exact Hvalue. }
  assert (Hafter : lacks "["%char (snd (aroundSelection value selection)) = true).
  { destruct selection as [[start end_]|]; cbn [aroundSelection snd]; [|reflexivity].
    apply lacks_substring. exact Hvalue. }
  rewrite Hshape, (tokenizeText_marker _ _ _ assets Hbefore Hid Hafter).
  unfold marker_token. cbn [m_assetId m_match].
  split.
  - intros a Ha Hlast. apply buildAssetMap_lastWithId in Hlast.
    rewrite Ha in Hlast. rewrite Hlast. reflexivity.
  - intros Hnone. apply buildAssetMap_unknown in Hnone. rewrite Hnone. reflexivity.
Qed.

(** The token of [asset_x1] replaces the selected "cd" of "abcdef". *)
Lemma insertAssetToken_recognized_witness :
  tokenizeText (insertAssetToken "abcdef" (Some (2%nat, 4%nat)) "x1") [asset_x1]
  = [TokText "ab"; TokAsset asset_x1; TokText "ef"].
Proof.
  destruct (insertAssetToken_recognized "abcdef" (Some (2%nat, 4%nat)) "x1"
              [asset_x1]) as [H _].
  - reflexivity.
  - split; reflexivity.
  - apply (H asset_x1); [reflexivity|].
    exists [], []. split; [reflexivity|]. intros b [].
Defined.

(** ** Asset sizing *)

Lemma asset_ratio_positive asset :
  (0 <= naturalWidth asset)%Q -> (0 <= naturalHeight asset)%Q ->
  (0 < num_or (Some (naturalWidth asset / naturalHeight asset)%Q) 1)%Q.
Proof.
  intros Hw Hh. cbn [num_or].
  destruct (Qeq_bool (naturalWidth asset / naturalHeight asset) 0) eqn:E;
    [reflexivity|].
  apply Qeq_bool_neq in E.
  destruct (Qlt_le_dec 0 (naturalHeight asset)) as [Hpos|Hzero].
  - assert (H : (0 <= naturalWidth asset / naturalHeight asset)%Q)
      by (apply Qle_shift_div_l; [exact Hpos|lra]).
    apply Qle_lt_or_eq in H. destruct H as [H|H]; [exact H|].
    exfalso. apply E. symmetry. exact H.
  - exfalso. apply E.
    assert (Ez : (naturalHeight asset == 0)%Q) by lra.
    unfold Qdiv. rewrite Ez. unfold Qinv. cbn. ring.
Qed.

Lemma assetSize_bounds (asset : InlineAsset) (columnWidth fontSize : Q) :
  (0 < fontSize)%Q -> (0 < columnWidth)%Q ->
  (0 <= naturalWidth asset)%Q -> (0 <= naturalHeight asset)%Q ->
  let size := assetSize asset columnWidth fontSize in
  (0 <= fst size)%Q /\ (fst size <= columnWidth)%Q
  /\ (0 <= snd size)%Q /\ (snd size <= fontSize * 1.05)%Q
  /\ ((0 < naturalWidth asset)%Q -> (0 < naturalHeight asset)%Q ->
      (fontSize * 1.05 * (naturalWidth asset / naturalHeight asset)
       <= columnWidth)%Q ->
      fst size = (fontSize * 1.05 * (naturalWidth asset / naturalHeight asset))%Q
      /\ snd size = (fontSize * 1.05)%Q)
  /\ ((0 < naturalWidth asset)%Q -> (0 < naturalHeight asset)%Q ->
      (columnWidth
       < fontSize * 1.05 * (naturalWidth asset / naturalHeight asset))%Q ->
      fst size = columnWidth
      /\ snd size
         = (fontSize * 1.05
            * (columnWidth
               / (fontSize * 1.05
                  * (naturalWidth asset / naturalHeight asset))))%Q).
Proof.
  intros Hfs Hcw Hnw Hnh size.
  pose proof (asset_ratio_positive asset Hnw Hnh) as Hratio.
  assert (Hth : (0 < fontSize * 1.05)%Q) by lra.
  assert (Hreg : (0 < naturalWidth asset)%Q -> (0 < naturalHeight asset)%Q ->
                 assetSize asset columnWidth fontSize
                 = if Qgtb (fontSize * 1.05
                            * (naturalWidth asset / naturalHeight asset)) columnWidth
                   then (columnWidth,
                         (fontSize * 1.05
                          * (columnWidth
                             / (fontSize * 1.05
                                * (naturalWidth asset / naturalHeight asset))))%Q)
                   else ((fontSize * 1.05
                          * (naturalWidth asset / naturalHeight asset))%Q,
                         (fontSize * 1.05)%Q)).
  { intros Hpw Hph. unfold assetSize.
    assert (E0 : Qeq_bool (naturalHeight asset) 0 = false).
    { apply not_true_iff_false. intros E. apply Qeq_bool_iff in E. lra. }
    rewrite E0. cbn [andb num_or].
    assert (Hq : (0 < naturalWidth asset / naturalHeight asset)%Q)
      by (apply Qlt_shift_div_l; [exact Hph|lra]).
    assert (E : Qeq_bool (naturalWidth asset / naturalHeight asset) 0 = false).
    { apply not_true_iff_false. intros E. apply Qeq_bool_iff in E. lra. }
    rewrite E. reflexivity. }
  assert (Hbounds : (0 <= fst size)%Q /\ (fst size <= columnWidth)%Q
                    /\ (0 <= snd size)%Q /\ (snd size <= fontSize * 1.05)%Q).
  { unfold size, assetSize.
    set (th := (fontSize * 1.05)%Q) in *.
    destruct (Qeq_bool (naturalHeight asset) 0 && Qltb 0 (naturalWidth asset)
              && Qltb 0 th) eqn:Especial.
    - cbn [fst snd]. repeat split; lra.
    - set (ratio := num_or (Some (naturalWidth asset / naturalHeight asset)%Q) 1) in *.
      assert (Hwidth : (0 < th * ratio)%Q) by (apply Qmult_lt_0_compat; assumption).
      destruct (Qgtb (th * ratio) columnWidth) eqn:Ewide; cbn [fst snd].
      + unfold Qgtb in Ewide. apply Qltb_lt in Ewide.
        assert (Hscale : (0 < columnWidth / (th * ratio))%Q)
          by (apply Qlt_shift_div_l; [exact Hwidth|lra]).
        assert (Hscale1 : (columnWidth / (th * ratio) <= 1)%Q)
          by (apply Qle_shift_div_r; [exact Hwidth|lra]).
        split; [lra|]. split; [lra|].
        split; [apply Qmult_le_0_compat; lra|].
        set (scale := (columnWidth / (th * ratio))%Q) in *. nra.
      + unfold Qgtb in Ewide. apply Qltb_ge in Ewide.
        repeat split; lra. }
  destruct Hbounds as (H1 & H2 & H3 & H4).
  split; [exact H1|]. split; [exact H2|]. split; [exact H3|]. split; [exact H4|].
  split.
  - intros Hpw Hph Hfit. unfold size. rewrite (Hreg Hpw Hph).
    assert (E : Qgtb (fontSize * 1.05
                      * (naturalWidth asset / naturalHeight asset)) columnWidth
                = false) by (unfold Qgtb; apply Qltb_ge; exact Hfit).
    rewrite E. split; reflexivity.
  - intros Hpw Hph Hwide. unfold size. rewrite (Hreg Hpw Hph).
    assert (E : Qgtb (fontSize * 1.05
                      * (naturalWidth asset / naturalHeight asset)) columnWidth
                = true) by (unfold Qgtb; apply Qltb_lt; exact Hwide).
    rewrite E. split; reflexivity.
Qed.

(** X17. For a positive font size and column width and an asset whose
    natural size is not negative, the run [pushAssetToken] adds for the
    asset is never wider than the column and never higher than
    fontSize x 1.05.  An asset of positive size whose width at the full
    height fits the column gets that width and the height
    fontSize x 1.05; otherwise it gets the column width and the height
    fontSize x 1.05 scaled by column width over that width. *)
Theorem assetSize_fits (asset : InlineAsset) (columnWidth fontSize : Q) :
  (0 < fontSize)%Q -> (0 < columnWidth)%Q ->
  (0 <= naturalWidth asset)%Q -> (0 <= naturalHeight asset)%Q ->
  let size := assetSize asset columnWidth fontSize in
  (forall line ratio lines,
     exists rest run,
       runs (fst (pushAssetToken asset line columnWidth fontSize ratio lines))
       = rest ++ [run]
       /\ run_width run = fst size /\ run_height run = snd size
       /\ run_type run = RunAsset /\ run_asset run = Some asset)
  /\ (0 <= fst size)%Q /\ (fst size <= columnWidth)%Q
  /\ (0 <= snd size)%Q /\ (snd size <= fontSize * 1.05)%Q
  /\ ((0 < naturalWidth asset)%Q -> (0 < naturalHeight asset)%Q ->
      (fontSize * 1.05 * (naturalWidth asset / naturalHeight asset)
       <= columnWidth)%Q ->
      fst size = (fontSize * 1.05 * (naturalWidth asset / naturalHeight asset))%Q
      /\ snd size = (fontSize * 1.05)%Q)
  /\ ((0 < naturalWidth asset)%Q -> (0 < naturalHeight asset)%Q ->
      (columnWidth
       < fontSize * 1.05 * (naturalWidth asset / naturalHeight asset))%Q ->
      fst size = columnWidth
      /\ snd size
         = (fontSize * 1.05
            * (columnWidth
               / (fontSize * 1.05
                  * (naturalWidth asset / naturalHeight asset))))%Q).
Proof.
  intros Hfs Hcw Hnw Hnh size.
  split.
  { intros line ratio lines. unfold pushAssetToken. fold size.
    destruct size as [width height].
    destruct (wrapIfNeeded _ _ _ _ _ _) as [currentLine lines1].
    cbn [fst snd appendAssetRun runs]. eexists _, _. split; [reflexivity|].
    repeat split. }
  apply assetSize_bounds; assumption.
Qed.

(** An image three times as wide as high at font size 50 in a column of
    width 100: too wide at the full height, so it gets the column
    width. *)
Lemma assetSize_fits_witness :
  fst (assetSize asset_x1 100 50) = 100%Q
  /\ (snd (assetSize asset_x1 100 50) <= 50 * 1.05)%Q.
Proof.
  pose proof (assetSize_fits asset_x1 100 50) as H. cbv zeta in H.
  destruct H as (_ & _ & _ & _ & Hh & _ & Hshrink);
    [reflexivity|reflexivity|discriminate|discriminate|].
  split; [|exact Hh]. apply Hshrink; reflexivity.
Defined.

(** ** Where the placements lie *)

Lemma sumWidths_cons r rs : sumWidths (r :: rs) = (run_width r + sumWidths rs)%Q.
Proof. reflexivity. Qed.

Lemma sumWidths_app a b : (sumWidths (a ++ b) == sumWidths a + sumWidths b)%Q.
Proof.
  induction a as [|r a IH]; cbn [app].
  - change (sumWidths []) with 0%Q. ring.
  - rewrite !sumWidths_cons, IH. ring.
Qed.

Lemma sumWidths_nonneg rs :
  List.Forall (fun r => (0 <= run_width r)%Q) rs -> (0 <= sumWidths rs)%Q.
Proof.
  induction 1 as [|r rs Hr _ IH]; [cbn; lra|].
  rewrite sumWidths_cons. lra.
Qed.

(** Each placement of a line stems from one of its runs and sits at the
    sum of the widths before it. *)
Lemma placeRuns_In rs :
  forall line safeRect left x y b idx p,
    In p (placeRuns rs line safeRect left x y b idx) ->
    exists pre r post,
      rs = pre ++ r :: post
      /\ (p_x p == left + (x + sumWidths pre))%Q
      /\ p_width p = run_width r
      /\ p_type p = run_type r
      /\ p_y p = (rect_y safeRect + y)%Q
      /\ p_baseline p = (rect_y safeRect + b)%Q
      /\ p_lineHeight p = line_height line
      /\ p_column p = idx
      /\ p_height p = match run_type r with
                      | RunAsset => run_height r
                      | RunText => line_height line
                      end.
Proof.
  induction rs as [|run rest IH]; intros line safeRect left x y b idx p;
    cbn [placeRuns]; [intros []|].
  intros [<-|Hin].
  - exists [], run, rest. cbn [app p_x p_width p_type p_y p_baseline p_lineHeight
      p_column p_height]. change (sumWidths []) with 0%Q.
    repeat split; try reflexivity. ring.
  - destruct (IH _ _ _ _ _ _ _ _ Hin)
      as (pre & r & post & -> & Hx & Hrest).
    exists (run :: pre), r, post. split; [reflexivity|]. split; [|exact Hrest].
    rewrite Hx, sumWidths_cons. ring.
Qed.

Section ColumnPacker.

Variable safeRect : Rect.
Variables (cols : nat) (columnWidth columnGap : Q).
Variable P : Placement -> Prop.
Variable Y : Q -> Prop.

Hypothesis Y_zero : Y 0%Q.

(** What the column packer needs of a line to place it well: a height
    that keeps the cursor in [Y], and placements that satisfy [P]
    wherever the packer may put the line. *)
Local Abbreviation placeable :=
  (fun line : LineBuffer =>
     (forall y, Y y -> Y (y + line_height line)%Q)
     /\ forall idx y p,
          (idx < cols)%nat -> Y y ->
          ((y + line_height line <= rect_height safeRect + 0.5)%Q \/ y = 0%Q) ->
          In p (placeRuns (runs line) line safeRect
                  (columnLeft safeRect columnWidth columnGap idx) 0 y
                  (y + line_ascent line
                   + Qmax 0 ((line_height line
                              - (line_ascent line + line_descent line)) / 2))
                  idx) ->
          P p).

Lemma placeLines_each lines :
  List.Forall placeable lines ->
  forall placed heights columnIndex cursorY,
    (columnIndex < cols)%nat -> Y cursorY ->
    List.Forall P placed ->
    List.Forall P
      (att_placements
         (placeLines lines safeRect cols columnWidth columnGap placed heights
            columnIndex cursorY)).
Proof.
  induction 1 as [|line rest [Hh Hline] _ IH];
    intros placed heights columnIndex cursorY Hidx Hy Hplaced; cbn [placeLines].
  - exact Hplaced.
  - destruct (Qgtb _ _) eqn:E.
    + destruct (Nat.leb cols (S columnIndex)) eqn:Ecol; [constructor|].
      apply Nat.leb_gt in Ecol.
      apply IH; [exact Ecol|apply Hh; exact Y_zero|].
      apply List.Forall_app. split; [exact Hplaced|].
      apply List.Forall_forall. intros p Hp.
      apply (Hline (S columnIndex) 0%Q p Ecol);
        [exact Y_zero|right; reflexivity|].
      exact Hp.
    + unfold Qgtb in E. apply Qltb_ge in E.
      apply IH; [exact Hidx|apply Hh; exact Hy|].
      apply List.Forall_app. split; [exact Hplaced|].
      apply List.Forall_forall. intros p Hp.
      apply (Hline columnIndex cursorY p Hidx Hy); [left; exact E|].
      exact Hp.
Qed.

End ColumnPacker.

Lemma length_array_set i v a :
  (i < length a)%nat -> length (array_set i v a) = length a.
Proof.
  intros H. unfold array_set. apply Nat.ltb_lt in H. rewrite H.
  apply length_insert.
Qed.

Lemma placeLines_columns lines :
  forall safeRect cols columnWidth columnGap placed heights columnIndex cursorY,
    (columnIndex < cols)%nat -> length heights = cols ->
    length
      (att_columnHeights
         (placeLines lines safeRect cols columnWidth columnGap placed heights
            columnIndex cursorY))
    = cols.
Proof.
  induction lines as [|line rest IH];
    intros safeRect cols columnWidth columnGap placed heights columnIndex cursorY
      Hidx Hlen; cbn [placeLines].
  - cbn [att_columnHeights]. rewrite length_array_set; [exact Hlen|].
    rewrite Hlen. exact Hidx.
  - assert (Hset : length (array_set columnIndex cursorY heights) = cols)
      by (rewrite length_array_set; [exact Hlen|rewrite Hlen; exact Hidx]).
    destruct (Qgtb _ _).
    + destruct (Nat.leb cols (S columnIndex)) eqn:Ecol; [exact Hset|].
      apply Nat.leb_gt in Ecol. apply IH; assumption.
    + apply IH; assumption.
Qed.

(** An invariant of the open line that the line packer keeps, given
    that a fresh buffer has it and that pushing a run keeps it. *)
Section PackerInvariant.

Variable measureText : Font -> string -> TextMetrics.
Variables fontSize lineHeightRatio columnWidth : Q.
Variable Inv : LineBuffer -> Prop.
Variable Good : InlineAsset -> Prop.

Hypothesis Inv_new : Inv (createLineBuffer fontSize lineHeightRatio).

Hypothesis Inv_text :
  forall line char font lines,
    Inv line ->
    Inv (appendTextRun
           (fst (wrapIfNeeded line (tm_width (measureText font char)) columnWidth
                   fontSize lineHeightRatio lines))
           (textRun char (measureText font char) fontSize
              (fst (wrapIfNeeded line (tm_width (measureText font char))
                      columnWidth fontSize lineHeightRatio lines)))).

Hypothesis Inv_asset :
  forall asset line lines,
    Good asset -> Inv line ->
    Inv (fst (pushAssetToken asset line columnWidth fontSize lineHeightRatio lines)).

Lemma wrapIfNeeded_closed line width lines :
  Inv line -> List.Forall Inv lines ->
  List.Forall Inv
    (snd (wrapIfNeeded line width columnWidth fontSize lineHeightRatio lines)).
Proof.
  intros Hl Hls. unfold wrapIfNeeded. destruct (_ && _); cbn [snd]; [|exact Hls].
  apply List.Forall_app. split; [exact Hls|]. constructor; [exact Hl|constructor].
Qed.

Lemma pushTextSegment_keeps segment :
  forall line ctx lines,
    Inv line -> List.Forall Inv lines ->
    Inv (fst (fst (pushTextSegment measureText segment line columnWidth ctx
                     fontSize lineHeightRatio lines)))
    /\ List.Forall Inv
         (snd (fst (pushTextSegment measureText segment line columnWidth ctx
                      fontSize lineHeightRatio lines))).
Proof.
  unfold pushTextSegment. generalize (Array_from segment) as chars.
  induction chars as [|char rest IH]; intros line ctx lines Hl Hls;
    cbn [pushChars]; [split; assumption|].
  pose proof (Inv_text line char (ctx_font ctx) lines Hl) as Hl1.
  pose proof (wrapIfNeeded_closed line (tm_width (measureText (ctx_font ctx) char))
                lines Hl Hls) as Hls1.
  destruct (wrapIfNeeded _ _ _ _ _ _) as [currentLine lines1]. cbn [fst snd] in *.
  match goal with
  | |- context [pushChars measureText rest ?l ?w ?c ?f ?r ?ls] =>
      specialize (IH l c ls Hl1 Hls1);
      destruct (pushChars measureText rest l w c f r ls) as [[last lines2] events]
  end.
  exact IH.
Qed.

Lemma pushAssetToken_keeps asset line lines :
  Good asset -> Inv line -> List.Forall Inv lines ->
  Inv (fst (pushAssetToken asset line columnWidth fontSize lineHeightRatio lines))
  /\ List.Forall Inv
       (snd (pushAssetToken asset line columnWidth fontSize lineHeightRatio lines)).
Proof.
  intros Hg Hl Hls. split; [apply Inv_asset; assumption|].
  unfold pushAssetToken.
  destruct (assetSize asset columnWidth fontSize) as [width height].
  pose proof (wrapIfNeeded_closed line width lines Hl Hls) as Hls1.
  destruct (wrapIfNeeded _ _ _ _ _ _) as [currentLine lines1]. exact Hls1.
Qed.

Lemma pushSegments_keeps segments :
  forall line ctx lines,
    Inv line -> List.Forall Inv lines ->
    Inv (fst (fst (pushSegments measureText segments line columnWidth ctx
                     fontSize lineHeightRatio lines)))
    /\ List.Forall Inv
         (snd (fst (pushSegments measureText segments line columnWidth ctx
                      fontSize lineHeightRatio lines))).
Proof.
  induction segments as [|segment rest IH]; intros line ctx lines Hl Hls;
    cbn [pushSegments]; [split; assumption|].
  assert (H1 : Inv (fst (fst (if truthy segment
                then pushTextSegment measureText segment line columnWidth ctx
                       fontSize lineHeightRatio lines
                else (line, lines, []))))
               /\ List.Forall Inv (snd (fst (if truthy segment
                then pushTextSegment measureText segment line columnWidth ctx
                       fontSize lineHeightRatio lines
                else (line, lines, []))))).
  { destruct (truthy segment); [|split; assumption].
    apply pushTextSegment_keeps; assumption. }
  destruct (if truthy segment then _ else _) as [[line1 lines1] ev1].
  cbn [fst snd] in H1. destruct H1 as [Hl1 Hls1].
  destruct rest as [|s rest].
  - cbn [pushSegments fst snd]. split; assumption.
  - match goal with
    | |- context [pushSegments measureText ?ss ?l ?w ?c ?f ?r ?ls] =>
        specialize (IH l c ls);
        destruct (pushSegments measureText ss l w c f r ls) as [[line3 lines3] ev3]
    end.
    cbn [fst snd] in *. apply IH; [exact Inv_new|].
    apply List.Forall_app. split; [exact Hls1|]. constructor; [exact Hl1|constructor].
Qed.

Lemma pushTokens_keeps tokens :
  forall line ctx lines,
    (forall asset, In (TokAsset asset) tokens -> Good asset) ->
    Inv line -> List.Forall Inv lines ->
    Inv (fst (fst (pushTokens measureText tokens line columnWidth ctx
                     fontSize lineHeightRatio lines)))
    /\ List.Forall Inv
         (snd (fst (pushTokens measureText tokens line columnWidth ctx
                      fontSize lineHeightRatio lines))).
Proof.
  induction tokens as [|token rest IH]; intros line ctx lines Hgood Hl Hls;
    cbn [pushTokens]; [split; assumption|].
  assert (Hrest : forall asset, In (TokAsset asset) rest -> Good asset)
    by (intros asset Hin; apply Hgood; right; exact Hin).
  destruct token as [value|asset].
  - destruct (pushSegments_keeps (split_newline value) line ctx lines Hl Hls)
      as [Hl1 Hls1].
    destruct (pushSegments _ _ _ _ _ _ _ _) as [[line1 lines1] ev1].
    cbn [fst snd] in *.
    specialize (IH line1 ctx lines1 Hrest Hl1 Hls1).
    destruct (pushTokens _ _ _ _ _ _ _ _) as [[line2 lines2] ev2].
    exact IH.
  - assert (Hg : Good asset) by (apply Hgood; left; reflexivity).
    destruct (pushAssetToken_keeps asset line lines Hg Hl Hls) as [Hl1 Hls1].
    destruct (pushAssetToken _ _ _ _ _ _) as [l ls]. cbn [fst snd] in *.
    specialize (IH l ctx ls Hrest Hl1 Hls1).
    destruct (pushTokens _ _ _ _ _ _ _ _) as [[line2 lines2] ev2].
    exact IH.
Qed.

(** The lines a non-narrow attempt hands to the column packer. *)
Lemma layoutWithConfig_lines tokens safeRect cols placed heights columnIndex
    cursorY columnGap ctx :
  (forall asset, In (TokAsset asset) tokens -> Good asset) ->
  exists lines,
    List.Forall Inv lines
    /\ (let '(currentLine, lines0, events) :=
          pushTokens measureText tokens (createLineBuffer fontSize lineHeightRatio)
            columnWidth ctx fontSize lineHeightRatio [] in
        placeLines
          (if Nat.ltb 0 (length (runs currentLine)) || Nat.eqb (length lines0) 0
           then lines0 ++ [currentLine] else lines0)
          safeRect cols columnWidth columnGap placed heights columnIndex cursorY)
       = placeLines lines safeRect cols columnWidth columnGap placed heights
           columnIndex cursorY.
Proof.
  intros Hgood.
  destruct (pushTokens_keeps tokens (createLineBuffer fontSize lineHeightRatio)
              ctx [] Hgood Inv_new (List.Forall_nil _)) as [Hl Hls].
  destruct (pushTokens _ _ _ _ _ _ _ _) as [[currentLine lines0] events].
  cbn [fst snd] in *. eexists. split; [|reflexivity].
  destruct (_ || _); [|exact Hls].
  apply List.Forall_app. split; [exact Hls|]. constructor; [exact Hl|constructor].
Qed.

End PackerInvariant.

(** *** Across: every line respects the column width *)

Lemma fitsColumn_new columnWidth fontSize lineHeightRatio :
  (0 <= columnWidth)%Q ->
  fitsColumn columnWidth (createLineBuffer fontSize lineHeightRatio).
Proof.
  intros H. split; [constructor|]. split; [reflexivity|]. left. exact H.
Qed.

(** Pushing a run after the wrap test keeps the line within the
    column; only [runs] and [width] of the result matter. *)
Lemma fitsColumn_push columnWidth fontSize lineHeightRatio line lines run result :
  (0 <= columnWidth)%Q ->
  fitsColumn columnWidth line ->
  (0 <= run_width run)%Q ->
  (run_type run = RunAsset -> (run_width run <= columnWidth)%Q) ->
  runs result
  = runs (fst (wrapIfNeeded line (run_width run) columnWidth fontSize
                 lineHeightRatio lines)) ++ [run] ->
  line_width result
  = (line_width (fst (wrapIfNeeded line (run_width run) columnWidth fontSize
                        lineHeightRatio lines)) + run_width run)%Q ->
  fitsColumn columnWidth result.
Proof.
  intros Hcw (Hruns & Hsum & Hfit) Hw Hasset Er Ew.
  unfold wrapIfNeeded in Er, Ew.
  destruct (Qgtb (line_width line + run_width run) columnWidth) eqn:Ewide;
    [destruct (Nat.ltb 0 (length (runs line))) eqn:Eruns|];
    cbn [andb fst createLineBuffer runs line_width] in Er, Ew;
    unfold fitsColumn; rewrite Er, Ew.
  - split; [constructor; [split; assumption|constructor]|].
    split; [cbn; ring|]. right. cbn. lia.
  - apply Nat.ltb_ge in Eruns. destruct (runs line) as [|r rs] eqn:E;
      [|cbn in Eruns; lia].
    split; [constructor; [split; assumption|constructor]|].
    split; [rewrite Hsum; cbn; ring|]. right. cbn. lia.
  - unfold Qgtb in Ewide. apply Qltb_ge in Ewide.
    split; [apply List.Forall_app; split;
              [exact Hruns|constructor; [split; assumption|constructor]]|].
    split; [|left; exact Ewide].
    rewrite sumWidths_app, Hsum. cbn. ring.
Qed.

Lemma fitsColumn_asset columnWidth fontSize lineHeightRatio asset line lines :
  (0 < fontSize)%Q -> (0 < columnWidth)%Q -> sizedAsset asset ->
  fitsColumn columnWidth line ->
  fitsColumn columnWidth
    (fst (pushAssetToken asset line columnWidth fontSize lineHeightRatio lines)).
Proof.
  intros Hfs Hcw [Hnw Hnh] Hfit.
  pose proof (assetSize_bounds asset columnWidth fontSize Hfs Hcw Hnw Hnh) as Hb.
  cbv zeta in Hb. destruct Hb as (Hw0 & Hw1 & _).
  unfold pushAssetToken.
  destruct (assetSize asset columnWidth fontSize) as [width height].
  cbn [fst snd] in Hw0, Hw1.
  destruct (wrapIfNeeded line width columnWidth fontSize lineHeightRatio lines)
    as [currentLine lines1] eqn:Ewrap.
  cbn [fst].
  match goal with
  | |- fitsColumn _ (appendAssetRun _ ?r) =>
      apply (fitsColumn_push columnWidth fontSize lineHeightRatio line lines r)
  end; try assumption; try lra.
  - intros _. exact Hw1.
  - cbn [run_width]. rewrite Ewrap. reflexivity.
  - cbn [run_width]. rewrite Ewrap. reflexivity.
Qed.

Lemma fitsColumn_text measureText columnWidth fontSize lineHeightRatio
    line char font lines :
  positiveWidths measureText -> (0 <= columnWidth)%Q ->
  fitsColumn columnWidth line ->
  fitsColumn columnWidth
    (appendTextRun
       (fst (wrapIfNeeded line (tm_width (measureText font char)) columnWidth
               fontSize lineHeightRatio lines))
       (textRun char (measureText font char) fontSize
          (fst (wrapIfNeeded line (tm_width (measureText font char))
                  columnWidth fontSize lineHeightRatio lines)))).
Proof.
  intros Hpos Hcw Hfit.
  match goal with
  | |- fitsColumn _ (appendTextRun _ ?r) =>
      apply (fitsColumn_push columnWidth fontSize lineHeightRatio line lines r)
  end; try assumption.
  - apply Hpos.
  - discriminate.
  - reflexivity.
  - reflexivity.
Qed.

(** The placements of a line that respects the column width lie in the
    column the line is put into. *)
Lemma placeRuns_inColumn safeRect cols columnWidth columnGap line idx y b p :
  fitsColumn columnWidth line -> (idx < cols)%nat ->
  In p (placeRuns (runs line) line safeRect
          (columnLeft safeRect columnWidth columnGap idx) 0 y b idx) ->
  inColumn safeRect columnWidth columnGap p /\ (p_column p < cols)%nat.
Proof.
  intros (Hruns & Hsum & Hfit) Hidx Hin.
  destruct (placeRuns_In _ _ _ _ _ _ _ _ _ Hin)
    as (pre & r & post & Er & Hx & Hw & Ht & _ & _ & _ & Hc & _).
  rewrite Er in Hruns, Hsum, Hfit.
  apply List.Forall_app in Hruns. destruct Hruns as [Hpre Hrest].
  inversion Hrest as [|r0 l0 [Hr Hasset] Hpost]; subst r0 l0.
  assert (Hpre0 : (0 <= sumWidths pre)%Q).
  { apply sumWidths_nonneg. eapply List.Forall_impl; [|exact Hpre].
    intros a [Ha _]. exact Ha. }
  assert (Hpost0 : (0 <= sumWidths post)%Q).
  { apply sumWidths_nonneg. eapply List.Forall_impl; [|exact Hpost].
    intros a [Ha _]. exact Ha. }
  rewrite sumWidths_app, sumWidths_cons in Hsum.
  split; [|rewrite Hc; exact Hidx].
  unfold inColumn. rewrite Hc, Hw.
  set (left := columnLeft safeRect columnWidth columnGap idx) in *.
  split; [lra|]. split; [exact Hr|].
  destruct Hfit as [Hfit|Hone].
  - left. lra.
  - rewrite length_app in Hone. cbn [length] in Hone.
    destruct pre as [|x pre]; [|cbn in Hone; lia].
    change (sumWidths []) with 0%Q in Hx.
    destruct (Qlt_le_dec columnWidth (run_width r)) as [Hwide|Hok].
    + right. split; [lra|]. split; [|exact Hwide].
      rewrite Ht. destruct (run_type r) eqn:Etype; [reflexivity|].
      specialize (Hasset eq_refl). lra.
    + left. lra.
Qed.

(** *** Down: every line has sound metrics *)

Lemma built_sound fontSize lineHeightRatio line :
  (0 <= fontSize)%Q -> (0 <= lineHeightRatio)%Q ->
  builtLine fontSize lineHeightRatio line -> soundLine line.
Proof.
  intros Hfs Hratio.
  induction 1 as [|line char metrics Hb IH|line run Hb IH Ha Hd].
  - unfold soundLine. cbn [createLineBuffer line_height line_ascent line_descent runs].
    split; [apply Qmult_le_0_compat; assumption|].
    split; [lra|]. split; [lra|]. split; [intros H; contradiction|constructor].
  - destruct IH as (Hh & Hasc & Hdesc & _ & Hall).
    unfold soundLine.
    cbn [appendTextRun line_height line_ascent line_descent runs].
    assert (Hmono : (line_height line
                     <= Qmax (line_height line)
                          (Qmax (line_ascent line) (run_ascent (textRun char metrics fontSize line))
                           + Qmax (line_descent line)
                               (run_descent (textRun char metrics fontSize line))))%Q)
      by apply Q.le_max_l.
    split; [lra|].
    split; [eapply Qle_trans; [exact Hasc|apply Q.le_max_l]|].
    split; [eapply Qle_trans; [exact Hdesc|apply Q.le_max_l]|].
    split; [intros _; apply Q.le_max_r|].
    apply List.Forall_app. split.
    + eapply List.Forall_impl; [|exact Hall]. cbn beta. intros r Hr Et.
      specialize (Hr Et). lra.
    + constructor; [discriminate|constructor].
  - destruct IH as (Hh & Hasc & Hdesc & _ & Hall).
    unfold soundLine.
    cbn [appendAssetRun line_height line_ascent line_descent runs].
    assert (Hmono : (line_height line
                     <= Qmax (Qmax (line_height line) (run_height run))
                          (Qmax (line_ascent line) (run_height run)
                           + Qmax (line_descent line) 0))%Q).
    { eapply Qle_trans; [|apply Q.le_max_l]. apply Q.le_max_l. }
    assert (Hrun : (run_height run
                    <= Qmax (Qmax (line_height line) (run_height run))
                         (Qmax (line_ascent line) (run_height run)
                          + Qmax (line_descent line) 0))%Q).
    { eapply Qle_trans; [|apply Q.le_max_l]. apply Q.le_max_r. }
    split; [lra|].
    split; [eapply Qle_trans; [exact Hasc|apply Q.le_max_l]|].
    split; [eapply Qle_trans; [exact Hdesc|apply Q.le_max_l]|].
    split; [intros _; apply Q.le_max_r|].
    apply List.Forall_app. split.
    + eapply List.Forall_impl; [|exact Hall]. cbn beta. intros r Hr Et.
      specialize (Hr Et). lra.
    + constructor; [intros _; exact Hrun|constructor].
Qed.

Lemma wrapIfNeeded_open_built fontSize lineHeightRatio line width columnWidth lines :
  builtLine fontSize lineHeightRatio line ->
  builtLine fontSize lineHeightRatio
    (fst (wrapIfNeeded line width columnWidth fontSize lineHeightRatio lines)).
Proof.
  intros Hb. unfold wrapIfNeeded. destruct (_ && _); [constructor|exact Hb].
Qed.

Lemma pushAssetToken_open_built fontSize lineHeightRatio asset line columnWidth lines :
  builtLine fontSize lineHeightRatio line ->
  builtLine fontSize lineHeightRatio
    (fst (pushAssetToken asset line columnWidth fontSize lineHeightRatio lines)).
Proof.
  intros Hb. unfold pushAssetToken.
  destruct (assetSize asset columnWidth fontSize) as [width height].
  pose proof (wrapIfNeeded_open_built _ _ line width columnWidth lines Hb) as H1.
  destruct (wrapIfNeeded _ _ _ _ _ _) as [currentLine lines1]. cbn [fst] in *.
  apply built_asset; [exact H1|reflexivity|reflexivity].
Qed.

(** The placements of a line with sound metrics lie inside the band the
    column packer gives the line. *)
Lemma placeRuns_inHeight safeRect line left idx y p :
  soundLine line -> (0 <= y)%Q ->
  ((y + line_height line <= rect_height safeRect + 0.5)%Q \/ y = 0%Q) ->
  In p (placeRuns (runs line) line safeRect left 0 y
          (y + line_ascent line
           + Qmax 0 ((line_height line
                      - (line_ascent line + line_descent line)) / 2))
          idx) ->
  inHeight safeRect p.
Proof.
  intros (Hh & Hasc & Hdesc & Hsum & Hall) Hy Hband Hin.
  destruct (placeRuns_In _ _ _ _ _ _ _ _ _ Hin)
    as (pre & r & post & Er & _ & _ & Ht & Epy & Eb & El & _ & Eh).
  assert (Hne : runs line <> []) by (rewrite Er; destruct pre; discriminate).
  specialize (Hsum Hne).
  assert (Hr : run_type r = RunAsset -> (run_height r <= line_height line)%Q).
  { rewrite List.Forall_forall in Hall. apply Hall. rewrite Er.
    apply in_or_app. right. left. reflexivity. }
  unfold inHeight. rewrite Epy, Eb, El, Eh.
  qmax_name 0%Q ((line_height line - (line_ascent line + line_descent line)) / 2)%Q.
  split; [lra|].
  split; [destruct Hband as [Hband| ->]; [left; lra|right; ring]|].
  assert (Hhalf : ((line_height line - (line_ascent line + line_descent line)) / 2
                   == (line_height line - (line_ascent line + line_descent line)) * (1 # 2))%Q)
    by (field).
  rewrite Hhalf in *.
  destruct H as [[H1 H2]|[H1 H2]].
  - split; [lra|]. split; [lra|].
    destruct (run_type r); [lra|apply Hr; reflexivity].
  - split; [lra|]. split; [lra|].
    destruct (run_type r); [lra|apply Hr; reflexivity].
Qed.

(** *** The attempts of the line packer *)

Lemma columnWidthOf_layout safeRect params :
  ((rect_width safeRect
    - cfg_columnGap (par_config params) * (Qnat (par_columns params) - 1))
   / Qnat (par_columns params))%Q
  = columnWidthOf safeRect (par_config params) (par_columns params).
Proof. reflexivity. Qed.

Lemma layoutWithConfig_inColumn measureText tokens safeRect params p :
  positiveWidths measureText -> sizedAssets tokens ->
  (0 < par_fontSize params)%Q -> (1 <= par_columns params)%nat ->
  In p (att_placements (fst (layoutWithConfig measureText tokens safeRect params))) ->
  inColumn safeRect
    (columnWidthOf safeRect (par_config params) (par_columns params))
    (cfg_columnGap (par_config params)) p
  /\ (p_column p < par_columns params)%nat.
Proof.
  intros Hpos Hsized Hfs Hcols. unfold layoutWithConfig.
  rewrite columnWidthOf_layout.
  set (columnWidth := columnWidthOf safeRect (par_config params) (par_columns params)).
  destruct (Qleb columnWidth 20) eqn:Enarrow; [intros []|].
  apply Qleb_gt in Enarrow.
  assert (Hcw : (0 < columnWidth)%Q) by lra.
  destruct (layoutWithConfig_lines measureText (par_fontSize params)
              (cfg_lineHeight (par_config params)) columnWidth
              (fitsColumn columnWidth) sizedAsset
              (fitsColumn_new columnWidth _ _ (Qlt_le_weak _ _ Hcw))
              (fun line char font lines =>
                 fitsColumn_text measureText columnWidth _ _ line char font lines
                   Hpos (Qlt_le_weak _ _ Hcw))
              (fun asset line lines =>
                 fitsColumn_asset columnWidth _ _ asset line lines Hfs Hcw)
              tokens safeRect (par_columns params) []
              (replicate (par_columns params) 0%Q) 0%nat 0%Q
              (cfg_columnGap (par_config params)) (par_measureContext params)
              Hsized)
    as (lines & Hlines & E).
  destruct (pushTokens _ _ _ _ _ _ _ _) as [[currentLine lines0] events].
  cbn [fst]. rewrite E. clear E.
  revert p. apply List.Forall_forall.
  apply (placeLines_each safeRect (par_columns params) columnWidth
           (cfg_columnGap (par_config params)) _ (fun _ => True) I lines);
    [|lia|exact I|constructor].
  eapply List.Forall_impl; [|exact Hlines]. cbn beta.
  intros line Hfit. split; [intros; exact I|].
  intros idx y p Hidx _ _ Hin.
  exact (placeRuns_inColumn safeRect (par_columns params) columnWidth _ line idx y _ p
           Hfit Hidx Hin).
Qed.

Lemma layoutWithConfig_inHeight measureText tokens safeRect params p :
  (0 <= par_fontSize params)%Q -> (0 <= cfg_lineHeight (par_config params))%Q ->
  (1 <= par_columns params)%nat ->
  In p (att_placements (fst (layoutWithConfig measureText tokens safeRect params))) ->
  inHeight safeRect p.
Proof.
  intros Hfs Hratio Hcols. unfold layoutWithConfig.
  rewrite columnWidthOf_layout.
  set (columnWidth := columnWidthOf safeRect (par_config params) (par_columns params)).
  destruct (Qleb columnWidth 20) eqn:Enarrow; [intros []|].
  destruct (layoutWithConfig_lines measureText (par_fontSize params)
              (cfg_lineHeight (par_config params)) columnWidth
              (builtLine (par_fontSize params) (cfg_lineHeight (par_config params)))
              (fun _ => True)
              (built_new _ _)
              (fun line char font lines Hb =>
                 built_text _ _ _ char (measureText font char)
                   (wrapIfNeeded_open_built _ _ line _ columnWidth lines Hb))
              (fun asset line lines _ Hb =>
                 pushAssetToken_open_built _ _ asset line columnWidth lines Hb)
              tokens safeRect (par_columns params) []
              (replicate (par_columns params) 0%Q) 0%nat 0%Q
              (cfg_columnGap (par_config params)) (par_measureContext params)
              (fun _ _ => I))
    as (lines & Hlines & E).
  destruct (pushTokens _ _ _ _ _ _ _ _) as [[currentLine lines0] events].
  cbn [fst]. rewrite E. clear E.
  revert p. apply List.Forall_forall.
  apply (placeLines_each safeRect (par_columns params) columnWidth
           (cfg_columnGap (par_config params)) _ (fun y => (0 <= y)%Q)
           (Qle_refl 0) lines);
    [|lia|apply Qle_refl|constructor].
  eapply List.Forall_impl; [|exact Hlines]. cbn beta.
  intros line Hb.
  pose proof (built_sound _ _ line Hfs Hratio Hb) as Hsound.
  split.
  - intros y Hy. destruct Hsound as (Hh & _). lra.
  - intros idx y p _ Hy Hband Hin.
    exact (placeRuns_inHeight safeRect line _ idx y p Hsound Hy Hband Hin).
Qed.

Lemma layoutWithConfig_heights_length measureText tokens safeRect params :
  (1 <= par_columns params)%nat ->
  length (att_columnHeights (fst (layoutWithConfig measureText tokens safeRect params)))
  = par_columns params.
Proof.
  intros Hcols. unfold layoutWithConfig.
  destruct (Qleb _ 20); [cbn; apply length_replicate|].
  destruct (pushTokens _ _ _ _ _ _ _ _) as [[currentLine lines0] events].
  cbn [fst]. apply placeLines_columns; [lia|apply length_replicate].
Qed.





(** *** The layout the search returns *)


